(** * Grapheme-to-phoneme rule engine: [nemo_text_processing/g2p/modules.py]

    A shallow embedding of the three G2P classes [EnglishG2p], [IPAG2P] and
    [ChineseG2p] and the properties of their word rules.

    Conventions of the embedding.
    - A Python [str] is the list of its code points ([pystr]); a one-character
      string is a one-element list, so [list(word)] is [list_chars word].
    - A Python [dict] keeps insertion order and [_normalize_dict] depends on
      it (two words may collapse to the same key), so a dict is an
      association list with unique keys, updated in place ([dict_set]).
    - A Python [set] of strings is a [gset pystr].
    - A raised exception is the [Raise] case of [result].
    - [self._rng] is the only mutable attribute the word rules touch: it is
      threaded explicitly as a stream of future draws of [random()]. *)

From Stdlib Require Import String Ascii QArith.
From stdpp Require Import base list gmap.

Local Open Scope N_scope.
Local Open Scope nat_scope.

(** ** Python values *)

Definition pystr := list N.

(** An ASCII literal as a Python string. *)
Definition py (s : string) : pystr := map N_of_ascii (list_ascii_of_string s).

(** [list(word)]: the one-character strings of [word]. *)
Definition list_chars (w : pystr) : list pystr := map (λ c, [c]) w.

(** [w.endswith(suf)] *)
Definition endswith (w suf : pystr) : bool :=
  bool_decide (length suf ≤ length w) &&
  bool_decide (drop (length w - length suf) w = suf).

(** [w[:-n]] for [n > 0]. *)
Definition drop_last (n : nat) (w : pystr) : pystr := take (length w - n) w.

(** [w.split(sep)] for a one-character separator: never empty. *)
Fixpoint split_on (sep : N) (w : pystr) : list pystr :=
  match w with
  | [] => [[]]
  | c :: w' =>
      if bool_decide (c = sep) then [] :: split_on sep w'
      else match split_on sep w' with
           | [] => [[c]]
           | p :: ps => (c :: p) :: ps
           end
  end.

Inductive exn := IndexError | KeyError | AssertionError | ValueError.

Inductive result (A : Type) :=
| Ok (a : A)
| Raise (e : exn).
Arguments Ok {A} a.
Arguments Raise {A} e.

(** An exception raised by a step is raised by the whole sequence. *)
Definition rbind {A B} (x : result A) (f : A → result B) : result B :=
  match x with Ok a => f a | Raise e => Raise e end.

Notation "'let*' x ':=' y 'in' z" := (rbind y (λ x, z))
  (at level 10, x name, y at level 100, z at level 200, only parsing).

(** What a word rule hands back: [parse_one_word] returns either a string
    (the word left as it is) or a list of symbols. [extend] is what
    [prons.extend(pron)] appends in either case. *)
Inductive pron :=
| PStr (w : pystr)
| PList (l : list pystr).

Definition extend (p : pron) : list pystr :=
  match p with PStr w => list_chars w | PList l => l end.

(** ** Dictionaries *)

Section dict.
Context {V : Type}.

Definition pydict := list (pystr * V).

Fixpoint dict_get (d : pydict) (k : pystr) : option V :=
  match d with
  | [] => None
  | (k', v) :: d' => if bool_decide (k' = k) then Some v else dict_get d' k
  end.

(** [k in d] *)
Definition dict_mem (d : pydict) (k : pystr) : bool :=
  match dict_get d k with Some _ => true | None => false end.

(** [d[k]] *)
Definition dict_getitem (d : pydict) (k : pystr) : result V :=
  match dict_get d k with Some v => Ok v | None => Raise KeyError end.

(** [d[k] = v] *)
Fixpoint dict_set (d : pydict) (k : pystr) (v : V) : pydict :=
  match d with
  | [] => [(k, v)]
  | (k', v') :: d' =>
      if bool_decide (k' = k) then (k', v) :: d' else (k', v') :: dict_set d' k v
  end.
End dict.
Arguments pydict V : clear implicits.

(** The pronunciation dictionaries: word to list of pronunciations. *)
Definition phoneme_dict_t := pydict (list (list pystr)).

(** ** The random generator *)

(** [random.Random()] as the stream of the values its [random()] will
    return; [random] takes the head and leaves the rest. *)
Definition rng := nat → Q.

Definition random (r : rng) : Q * rng := (r 0, λ n, r (S n)).

(** ** What the module imports *)

(** Methods of [str], the regex class [\d] and the white space of
    [str.split()], which rest on the Unicode tables of the interpreter. *)
Class StrOps := {
  upper : pystr → pystr;
  lower : pystr → pystr;
  isupper : pystr → bool;
  unicode_digit : N → bool;
  unicode_space : N → bool;
}.

(** [pypinyin.lazy_pinyin], with the style, the neutral tone and the
    [errors] handler [__call__] passes, and [jieba.cut]. *)
Class Pinyin := {
  lazy_pinyin : pystr → list pystr;
  jieba_cut : pystr → list pystr;
}.

(** The names imported from [nemo_text_processing.g2p.data.data_utils] and
    [ipa_lexicon]. [LATIN_CHARS_ALL] is used only inside a character class,
    so it is the predicate of the characters it lists. [validate_locale]
    returns or raises. [set_grapheme_case(text, case)] returns the text in
    the case asked for, or raises for a case it does not support:
    [set_grapheme_case_raises case] is the exception it then raises, and
    [set_grapheme_case text case] the text it returns otherwise. *)
Class DataUtils := {
  GRAPHEME_CASE_MIXED : pystr;
  GRAPHEME_CASE_UPPER : pystr;
  LATIN_CHARS_ALL : N → bool;
  set_grapheme_case : pystr → option pystr → pystr;
  set_grapheme_case_raises : option pystr → option exn;
  normalize_unicode_text : pystr → pystr;
  english_word_tokenize : pystr → list (list pystr * bool);
  any_locale_word_tokenize : pystr → list (list pystr * bool);
  validate_locale : pystr → result unit;
}.

(** [nltk.corpus.cmudict.dict()], the dictionary [EnglishG2p] falls back
    on when it is given none. *)
Class Nltk := {
  nltk_cmudict : pydict (list (list pystr));
}.

(** ** Methods of [str] and regular expressions the parsers use *)

Section str_methods.
Context `{StrOps}.

(** [s.lstrip()], [s.rstrip()] and [s.strip()] *)
Fixpoint lstrip (s : pystr) : pystr :=
  match s with
  | [] => []
  | c :: s' => if unicode_space c then lstrip s' else s
  end.

Definition rstrip (s : pystr) : pystr := reverse (lstrip (reverse s)).

Definition strip (s : pystr) : pystr := lstrip (rstrip s).

(** The first run of characters that are not white space, and what
    follows it. *)
Fixpoint take_word (s : pystr) : pystr * pystr :=
  match s with
  | [] => ([], [])
  | c :: s' =>
      if unicode_space c then ([], s)
      else let '(word, rest) := take_word s' in (c :: word, rest)
  end.

(** [s.split(maxsplit=1)]: the first word and, if there is more than
    white space after it, the rest from its first character on. *)
Definition split_maxsplit1 (s : pystr) : list pystr :=
  match lstrip s with
  | [] => []
  | c :: s' =>
      let '(word, rest) := take_word (c :: s') in
      match lstrip rest with
      | [] => [word]
      | c' :: rest' => [word; c' :: rest']
      end
  end.
End str_methods.

(** [s.split('  ')]: cut at every pair of spaces, from the left. *)
Fixpoint split_two_spaces (s : pystr) : list pystr :=
  match s with
  | [] => [[]]
  | c :: s' =>
      match s' with
      | c' :: s'' =>
          if bool_decide (c = 32%N) && bool_decide (c' = 32%N)
          then [] :: split_two_spaces s''
          else match split_two_spaces s' with
               | [] => [[c]]
               | p :: ps => (c :: p) :: ps
               end
      | [] => [[c]]
      end
  end.

(** After a ["("]: the number of characters of [[0-9]+\)] at the head of
    [s], if it matches there. *)
Fixpoint alt_digits (s : pystr) (seen : nat) : option nat :=
  match s with
  | [] => None
  | c :: s' =>
      if bool_decide (48 ≤ c)%N && bool_decide (c ≤ 57)%N then alt_digits s' (S seen)
      else if bool_decide (c = 41%N) then
             match seen with O => None | S _ => Some (S seen) end
      else None
  end.

(** [re.sub(r'\([0-9]+\)', '', s)]; [skip] characters of a match are
    still to be dropped. *)
Fixpoint sub_alt (skip : nat) (s : pystr) : pystr :=
  match s with
  | [] => []
  | c :: s' =>
      match skip with
      | S k => sub_alt k s'
      | O =>
          if bool_decide (c = 40%N) then
            match alt_digits s' 0 with
            | Some n => sub_alt n s'
            | None => c :: sub_alt 0 s'
            end
          else c :: sub_alt 0 s'
      end
  end.

(** ** [class EnglishG2p] *)

Module EnglishG2p.
Section english.
Context `{StrOps}.

(** The attributes of the object. [heteronyms] is used only through
    [in], so the list or set it holds is its set of members. *)
Record t := {
  phoneme_dict : phoneme_dict_t;
  word_tokenize_func : pystr → list (list pystr * bool);
  apply_to_oov_word : option (pystr → pron);
  mapping_file : option pystr;
  ignore_ambiguous_words : bool;
  heteronyms : option (gset pystr);
  phoneme_probability : option Q;
}.

(** The class [[a-zA-ZÀ-ÿ\d]] of the punctuation test. *)
Definition WORD_CHAR (c : N) : bool :=
  (bool_decide (97 ≤ c)%N && bool_decide (c ≤ 122)%N)
  || (bool_decide (65 ≤ c)%N && bool_decide (c ≤ 90)%N)
  || (bool_decide (192 ≤ c)%N && bool_decide (c ≤ 255)%N)
  || unicode_digit c.

Definition is_unique_in_phoneme_dict (g : t) (word : pystr) : result bool :=
  let* prons := dict_getitem (phoneme_dict g) word in
  Ok (bool_decide (length prons = 1)).

(** [self.phoneme_dict[word][0]] *)
Definition first_pron (g : t) (word : pystr) : result (list pystr) :=
  let* prons := dict_getitem (phoneme_dict g) word in
  match prons with
  | p :: _ => Ok p
  | [] => Raise IndexError
  end.

(** [not self.ignore_ambiguous_words or self.is_unique_in_phoneme_dict(word)] *)
Definition ambiguity_ok (g : t) (word : pystr) : result bool :=
  if negb (ignore_ambiguous_words g) then Ok true
  else is_unique_in_phoneme_dict g word.

(** The body of [parse_one_word] below the random draw. *)
Definition parse_rules (g : t) (word : pystr) : result (pron * bool) :=
  (* punctuation or whitespace *)
  if negb (existsb WORD_CHAR word) then Ok (PList (list_chars word), true) else
  (* heteronyms *)
  if match heteronyms g with
     | Some hs => bool_decide (word ∈ hs)
     | None => false
     end
  then Ok (PStr word, true) else
  (* 's suffix *)
  let* c1 := (if bool_decide (2 < length word)
                 && endswith word (py "'s")
                 && negb (dict_mem (phoneme_dict g) word)
                 && dict_mem (phoneme_dict g) (drop_last 2 word)
              then ambiguity_ok g (drop_last 2 word) else Ok false) in
  if c1 then
    let* p := first_pron g (drop_last 2 word) in Ok (PList (p ++ [py "Z"]), true)
  else
  (* s suffix *)
  let* c2 := (if bool_decide (1 < length word)
                 && endswith word (py "s")
                 && negb (dict_mem (phoneme_dict g) word)
                 && dict_mem (phoneme_dict g) (drop_last 1 word)
              then ambiguity_ok g (drop_last 1 word) else Ok false) in
  if c2 then
    let* p := first_pron g (drop_last 1 word) in Ok (PList (p ++ [py "Z"]), true)
  else
  (* phoneme dict *)
  let* c3 := (if dict_mem (phoneme_dict g) word then ambiguity_ok g word
              else Ok false) in
  if c3 then let* p := first_pron g word in Ok (PList p, true) else
  match apply_to_oov_word g with
  | Some f => Ok (f word, true)
  | None => Ok (PStr word, false)
  end.

(** [parse_one_word]: the draw is made only when [phoneme_probability]
    is set; a draw above it leaves the word as it is. *)
Definition parse_one_word (g : t) (word : pystr) (r : rng)
  : result (pron * bool) * rng :=
  match phoneme_probability g with
  | Some p =>
      let '(x, r') := random r in
      if negb (Qle_bool x p) then (Ok (PStr word, true), r')
      else (parse_rules g word, r')
  | None => (parse_rules g word, r)
  end.

(** The loop over the sub-words of a hyphenated word; [pron] is the list
    being built. *)
Fixpoint hyphen_loop (g : t) (subs : list pystr) (pron : list pystr) (r : rng)
  : result (list pystr) * rng :=
  match subs with
  | [] => (Ok pron, r)
  | sub_word :: subs' =>
      match parse_one_word g sub_word r with
      | (Ok (p, _), r') =>
          hyphen_loop g subs' ((pron ++ extend p) ++ [py "-"]) r'
      | (Raise e, r') => (Raise e, r')
      end
  end.

(** [pron.pop()], for the list it leaves. *)
Definition pop (l : list pystr) : result (list pystr) :=
  match l with
  | [] => Raise IndexError
  | _ => Ok (removelast l)
  end.

(** One turn of the loop of [__call__] for a word to be changed: what is
    appended to [prons]. *)
Definition call_word (g : t) (word : list pystr) (r : rng)
  : result (list pystr) * rng :=
  match word with
  | [] => (Raise IndexError, r)
  | word_str :: _ =>
      let word_by_hyphen := split_on 45%N word_str in
      match parse_one_word g word_str r with
      | (Raise e, r') => (Raise e, r')
      | (Ok (pron, is_handled), r') =>
          if negb is_handled && bool_decide (1 < length word_by_hyphen) then
            match hyphen_loop g word_by_hyphen [] r' with
            | (Ok pron', r'') => (pop pron', r'')
            | (Raise e, r'') => (Raise e, r'')
            end
          else (Ok (extend pron), r')
      end
  end.

Fixpoint call_loop (g : t) (words : list (list pystr * bool))
         (prons : list pystr) (r : rng) : result (list pystr) * rng :=
  match words with
  | [] => (Ok prons, r)
  | (word, without_changes) :: words' =>
      if without_changes then call_loop g words' (prons ++ word) r
      else
        match call_word g word r with
        | (Ok pron, r') => call_loop g words' (prons ++ pron) r'
        | (Raise e, r') => (Raise e, r')
        end
  end.

(** [__call__] *)
Definition call (g : t) (text : pystr) (r : rng) : result (list pystr) * rng :=
  call_loop g (word_tokenize_func g text) [] r.

(** The lines [_parse_as_cmu_dict] reads: those that begin with a capital
    letter or an apostrophe. *)
Definition cmu_entry_line (line : pystr) : bool :=
  match line with
  | [] => false
  | c :: _ =>
      (bool_decide (65 ≤ c)%N && bool_decide (c ≤ 90)%N) || bool_decide (c = 39%N)
  end.

(** [_parse_as_cmu_dict] on the lines of the file at [phoneme_dict_path]. *)
Definition _parse_as_cmu_dict (lines : list pystr) : result phoneme_dict_t :=
  foldl (λ acc line,
           let* g2p_dict := acc in
           if cmu_entry_line line then
             match split_two_spaces line with
             | parts0 :: parts1 :: _ =>
                 let word := lower (sub_alt 0 parts0) in
                 let pronunciation := split_on 32%N (strip parts1) in
                 match dict_get g2p_dict word with
                 | Some prons => Ok (dict_set g2p_dict word (prons ++ [pronunciation]))
                 | None => Ok (dict_set g2p_dict word [pronunciation])
                 end
             | _ => Raise IndexError
             end
           else Ok g2p_dict)
        (Ok []) lines.

(** [_parse_file_by_lines] on the lines of the file. *)
Definition _parse_file_by_lines (lines : list pystr) : list pystr :=
  map rstrip lines.

(** The [phoneme_dict] and [heteronyms] arguments: a path, given by the
    lines of the file it names, or the object itself. *)
Inductive dict_arg :=
| DictFile (lines : list pystr)
| DictObj (d : phoneme_dict_t).

Inductive heteronyms_arg :=
| HeteronymsFile (lines : list pystr)
| HeteronymsObj (hs : gset pystr).

Context `{Nltk}.

(** [__init__]; with no [phoneme_dict] the dictionary is the one of the
    NLTK corpus. *)
Definition init (phoneme_dict : option dict_arg)
           (word_tokenize_func : pystr → list (list pystr * bool))
           (apply_to_oov_word : option (pystr → pron))
           (ignore_ambiguous_words : bool) (heteronyms : option heteronyms_arg)
           (phoneme_probability : option Q) (mapping_file : option pystr)
  : result t :=
  let* phoneme_dict :=
    match phoneme_dict with
    | None => Ok nltk_cmudict
    | Some (DictFile lines) => _parse_as_cmu_dict lines
    | Some (DictObj d) => Ok d
    end in
  Ok {| phoneme_dict := phoneme_dict;
        word_tokenize_func := word_tokenize_func;
        apply_to_oov_word := apply_to_oov_word;
        mapping_file := mapping_file;
        ignore_ambiguous_words := ignore_ambiguous_words;
        heteronyms :=
          match heteronyms with
          | Some (HeteronymsFile lines) =>
              Some (list_to_set (_parse_file_by_lines lines))
          | Some (HeteronymsObj hs) => Some hs
          | None => None
          end;
        phoneme_probability := phoneme_probability |}.
End english.
End EnglishG2p.

(** ** [class IPAG2P] *)

Module IPAG2P.
Section ipa.
Context `{StrOps, DataUtils}.

Record t := {
  use_stresses : bool;
  grapheme_case : option pystr;
  grapheme_prefix : pystr;
  phoneme_probability : option Q;
  locale : option pystr;
  use_chars : bool;
  phoneme_dict : phoneme_dict_t;
  symbols : gset pystr;
  word_tokenize_func : pystr → list (list pystr * bool);
  apply_to_oov_word : option (pystr → pron);
  mapping_file : option pystr;
  heteronym_model : option (pystr → option pystr);
  ignore_ambiguous_words : bool;
  heteronyms : option (gset pystr);
}.

(** [STRESS_SYMBOLS = ["ˈ", "ˌ"]] *)
Definition STRESS_SYMBOLS : list pystr := [[712%N]; [716%N]].

(** The class of [CHAR_REGEX]; [PUNCT_REGEX] is its complement. *)
Definition CHAR_REGEX (c : N) : bool := LATIN_CHARS_ALL c || unicode_digit c.
Definition PUNCT_REGEX (c : N) : bool := negb (CHAR_REGEX c).

(** [_parse_phoneme_dict] on a dictionary object: words and phonemes are
    NFC-normalized, entries are written in the order of the argument. *)
Definition _parse_phoneme_dict (phoneme_dict : phoneme_dict_t) : phoneme_dict_t :=
  foldl (λ phoneme_dict_obj '(word, prons),
           dict_set phoneme_dict_obj (normalize_unicode_text word)
                    (map (map normalize_unicode_text) prons))
        [] phoneme_dict.

(** [replace_dict] *)
Definition replace_dict (g : t) (phoneme_dict : phoneme_dict_t) : t :=
  {| use_stresses := use_stresses g;
     grapheme_case := grapheme_case g;
     grapheme_prefix := grapheme_prefix g;
     phoneme_probability := phoneme_probability g;
     locale := locale g;
     use_chars := use_chars g;
     phoneme_dict := _parse_phoneme_dict phoneme_dict;
     symbols := symbols g;
     word_tokenize_func := word_tokenize_func g;
     apply_to_oov_word := apply_to_oov_word g;
     mapping_file := mapping_file g;
     heteronym_model := heteronym_model g;
     ignore_ambiguous_words := ignore_ambiguous_words g;
     heteronyms := heteronyms g |}.

(** [_prepend_prefix_for_one_word]; the prefix is the only attribute it
    reads. *)
Definition _prepend_prefix_for_one_word (grapheme_prefix : pystr) (word : pystr)
  : list pystr :=
  map (λ character, grapheme_prefix ++ [character]) word.

(** [set_grapheme_case(text, case=case)] as a call that returns or
    raises. *)
Definition set_grapheme_case_call (text : pystr) (case : option pystr)
  : result pystr :=
  match set_grapheme_case_raises case with
  | Some e => Raise e
  | None => Ok (set_grapheme_case text case)
  end.

(** One turn of the loop of [_normalize_dict], from [word_new] on. The
    attributes it reads are set before [__init__] calls it and are passed
    as arguments. *)
Definition normalize_entry (grapheme_case : option pystr) (use_chars : bool)
           (use_stresses : bool) (grapheme_prefix : pystr)
           (acc : phoneme_dict_t * gset pystr)
           (word_new : pystr) (prons : list (list pystr))
  : phoneme_dict_t * gset pystr :=
  let '(g2p_dict, symbols) := acc in
  let symbols :=
    if use_chars then
      let word_no_punct := filter (λ c, PUNCT_REGEX c = false) word_new in
      symbols ∪ list_to_set (_prepend_prefix_for_one_word grapheme_prefix word_no_punct)
    else symbols in
  let prons_new :=
    if negb use_stresses then
      map (λ pron, filter (λ symbol, symbol ∉ STRESS_SYMBOLS) pron) prons
    else prons in
  let symbols := foldl (λ symbols pron, symbols ∪ list_to_set pron) symbols prons_new in
  let g2p_dict := dict_set g2p_dict word_new prons_new in
  let g2p_dict :=
    if bool_decide (grapheme_case = Some GRAPHEME_CASE_MIXED) && negb (isupper word_new)
    then dict_set g2p_dict (upper word_new) prons_new
    else g2p_dict in
  (g2p_dict, symbols).

(** [_normalize_dict]: it raises what [set_grapheme_case] raises, at the
    first word. *)
Definition _normalize_dict (grapheme_case : option pystr) (use_chars : bool)
           (use_stresses : bool) (grapheme_prefix : pystr)
           (phoneme_dict_obj : phoneme_dict_t)
  : result (phoneme_dict_t * gset pystr) :=
  foldl (λ acc '(word, prons),
           let* acc := acc in
           let* word_new := set_grapheme_case_call word grapheme_case in
           Ok (normalize_entry grapheme_case use_chars use_stresses grapheme_prefix
                               acc word_new prons))
        (Ok ([], ∅)) phoneme_dict_obj.

(** The first characters of the lines [_parse_phoneme_dict] reads from a
    file: A-Z, a-z, À-Ö, Ø-ö, ø-ÿ and the apostrophe. *)
Definition ipa_entry_char (c : N) : bool :=
  (bool_decide (65 ≤ c)%N && bool_decide (c ≤ 90)%N)
  || (bool_decide (97 ≤ c)%N && bool_decide (c ≤ 122)%N)
  || (bool_decide (192 ≤ c)%N && bool_decide (c ≤ 214)%N)
  || (bool_decide (216 ≤ c)%N && bool_decide (c ≤ 246)%N)
  || (bool_decide (248 ≤ c)%N && bool_decide (c ≤ 255)%N)
  || bool_decide (c = 39%N).

(** [_parse_phoneme_dict] on a path, given by the lines of the file. The
    dictionary built is a [defaultdict(list)]: a new word starts from the
    empty list. *)
Definition _parse_phoneme_dict_file (lines : list pystr) : result phoneme_dict_t :=
  foldl (λ acc line,
           let* phoneme_dict_obj := acc in
           match line with
           | [] => Ok phoneme_dict_obj
           | _ :: _ =>
               match normalize_unicode_text line with
               | [] => Raise IndexError
               | c :: line' =>
                   if ipa_entry_char c then
                     match split_maxsplit1 (strip (c :: line')) with
                     | parts0 :: parts1 :: _ =>
                         let word := sub_alt 0 parts0 in
                         let prons := filter (λ c, unicode_space c = false) parts1 in
                         Ok (dict_set phoneme_dict_obj word
                                      (default [] (dict_get phoneme_dict_obj word)
                                       ++ [list_chars prons]))
                     | _ => Raise IndexError
                     end
                   else Ok phoneme_dict_obj
               end
           end)
        (Ok []) lines.

(** [_parse_file_by_lines] on the lines of the file. *)
Definition _parse_file_by_lines (lines : list pystr) : list pystr :=
  map rstrip lines.

(** The [phoneme_dict] and [heteronyms] arguments: a path, given by the
    lines of the file it names, or the object itself. *)
Inductive dict_arg :=
| DictFile (lines : list pystr)
| DictObj (d : phoneme_dict_t).

Inductive heteronyms_arg :=
| HeteronymsFile (lines : list pystr)
| HeteronymsList (hets : list pystr).

(** [__init__]. When the heteronyms are put in the configured case the
    case is one [set_grapheme_case] supports: [_normalize_dict] has
    returned, on a dictionary that is not empty. *)
Definition __init__ (phoneme_dict : dict_arg) (locale : option pystr)
           (apply_to_oov_word : option (pystr → pron))
           (ignore_ambiguous_words : bool) (heteronyms : option heteronyms_arg)
           (use_chars : bool) (phoneme_probability : option Q)
           (use_stresses : bool) (grapheme_case : option pystr)
           (grapheme_prefix : pystr) (mapping_file : option pystr) : result t :=
  let* _ := match locale with
            | Some l => validate_locale l
            | None => Ok ()
            end in
  let use_chars :=
    if negb use_chars && bool_decide (is_Some phoneme_probability) then true
    else use_chars in
  let* phoneme_dict_obj :=
    match phoneme_dict with
    | DictFile lines => _parse_phoneme_dict_file lines
    | DictObj d => Ok (_parse_phoneme_dict d)
    end in
  match phoneme_dict_obj with
  | [] => Raise ValueError
  | _ :: _ =>
      let* normalized :=
        _normalize_dict grapheme_case use_chars use_stresses grapheme_prefix
                        phoneme_dict_obj in
      let '(g2p_dict, symbols) := normalized in
      let word_tokenize_func :=
        if bool_decide (locale = Some (py "en-US")) then english_word_tokenize
        else any_locale_word_tokenize in
      let heteronyms : option (gset pystr) :=
        match heteronyms with
        | Some (HeteronymsFile lines) => Some (list_to_set (_parse_file_by_lines lines))
        | Some (HeteronymsList hets) => Some (list_to_set hets)
        | None => None
        end in
      let heteronyms :=
        match heteronyms with
        | Some hs =>
            if bool_decide (hs ≠ ∅)
            then Some (set_map (λ het, set_grapheme_case het grapheme_case) hs)
            else Some hs
        | None => None
        end in
      Ok {| use_stresses := use_stresses;
            grapheme_case := grapheme_case;
            grapheme_prefix := grapheme_prefix;
            phoneme_probability := phoneme_probability;
            locale := locale;
            use_chars := use_chars;
            phoneme_dict := g2p_dict;
            symbols := symbols;
            word_tokenize_func := word_tokenize_func;
            apply_to_oov_word := apply_to_oov_word;
            mapping_file := mapping_file;
            heteronym_model := None;
            ignore_ambiguous_words := ignore_ambiguous_words;
            heteronyms := heteronyms |}
  end.

(** [__init__] on a dictionary object and a list of heteronyms. *)
Definition init (phoneme_dict : phoneme_dict_t) (locale : option pystr)
           (apply_to_oov_word : option (pystr → pron))
           (ignore_ambiguous_words : bool) (heteronyms : option (list pystr))
           (use_chars : bool) (phoneme_probability : option Q)
           (use_stresses : bool) (grapheme_case : option pystr)
           (grapheme_prefix : pystr) (mapping_file : option pystr) : result t :=
  __init__ (DictObj phoneme_dict) locale apply_to_oov_word ignore_ambiguous_words
           (HeteronymsList <$> heteronyms) use_chars phoneme_probability
           use_stresses grapheme_case grapheme_prefix mapping_file.

Definition is_unique_in_phoneme_dict (g : t) (word : pystr) : result bool :=
  let* prons := dict_getitem (phoneme_dict g) word in
  Ok (bool_decide (length prons = 1)).

(** [self.phoneme_dict[word][0]] *)
Definition first_pron (g : t) (word : pystr) : result (list pystr) :=
  let* prons := dict_getitem (phoneme_dict g) word in
  match prons with
  | p :: _ => Ok p
  | [] => Raise IndexError
  end.

(** [not self.ignore_ambiguous_words or self.is_unique_in_phoneme_dict(word)] *)
Definition ambiguity_ok (g : t) (word : pystr) : result bool :=
  if negb (ignore_ambiguous_words g) then Ok true
  else is_unique_in_phoneme_dict g word.

(** [word_found[-1]] *)
Definition last_char (word : pystr) : result N :=
  match last word with
  | Some c => Ok c
  | None => Raise IndexError
  end.

(** How both en-US suffix rules set [word_found] for the stem [stem] of
    [word]. *)
Definition word_found (g : t) (word stem : pystr) : option pystr :=
  if negb (dict_mem (phoneme_dict g) word)
     && negb (dict_mem (phoneme_dict g) (upper word))
  then
    if dict_mem (phoneme_dict g) stem then Some stem
    else if dict_mem (phoneme_dict g) (upper stem) then Some (upper stem)
    else None
  else None.

(** The ['s] rule of en-US; [None] when the rule returns nothing and the
    function goes on. *)
Definition apostrophe_s_rule (g : t) (word : pystr) : result (option (pron * bool)) :=
  if bool_decide (2 < length word)
     && (endswith word (py "'s") || endswith word (py "'S"))
  then
    match word_found g word (drop_last 2 word) with
    | Some wf =>
        let* ok := ambiguity_ok g wf in
        if ok then
          let* c := last_char wf in
          let* p := first_pron g wf in
          if bool_decide (c ∈ [84%N; 116%N]) then Ok (Some (PList (p ++ [py "s"]), true))
          else if bool_decide (c ∈ [83%N; 115%N])
               then Ok (Some (PList (p ++ [[618%N]; py "z"]), true))
          else Ok (Some (PList (p ++ [py "z"]), true))
        else Ok None
    | None => Ok None
    end
  else Ok None.

(** The [s] rule of en-US. *)
Definition s_rule (g : t) (word : pystr) : result (option (pron * bool)) :=
  if bool_decide (1 < length word)
     && (endswith word (py "s") || endswith word (py "S"))
  then
    match word_found g word (drop_last 1 word) with
    | Some wf =>
        let* ok := ambiguity_ok g wf in
        if ok then
          let* c := last_char wf in
          let* p := first_pron g wf in
          if bool_decide (c ∈ [84%N; 116%N]) then Ok (Some (PList (p ++ [py "s"]), true))
          else Ok (Some (PList (p ++ [py "z"]), true))
        else Ok None
    | None => Ok None
    end
  else Ok None.

(** [parse_one_word] from the locale test on; [word] is already in the
    configured case. *)
Definition lookup_rules (g : t) (word : pystr) : result (pron * bool) :=
  let* r1 := (if bool_decide (locale g = Some (py "en-US"))
              then apostrophe_s_rule g word else Ok None) in
  match r1 with Some res => Ok res | None =>
  let* r2 := (if bool_decide (locale g = Some (py "en-US"))
              then s_rule g word else Ok None) in
  match r2 with Some res => Ok res | None =>
  let* c3 := (if dict_mem (phoneme_dict g) word then ambiguity_ok g word
              else Ok false) in
  if c3 then let* p := first_pron g word in Ok (PList p, true) else
  let mixed :=
    bool_decide (grapheme_case g = Some GRAPHEME_CASE_MIXED)
    && negb (dict_mem (phoneme_dict g) word)
    && dict_mem (phoneme_dict g) (upper word) in
  (* the mixed-case branch rebinds [word] for what follows *)
  let* c4 := (if mixed then ambiguity_ok g (upper word) else Ok false) in
  if c4 then let* p := first_pron g (upper word) in Ok (PList p, true) else
  let word := if mixed then upper word else word in
  match apply_to_oov_word g with
  | Some f => Ok (f word, true)
  | None => Ok (PList (_prepend_prefix_for_one_word (grapheme_prefix g) word), false)
  end
  end end.

(** [parse_one_word]. [self.grapheme_case] is a case [__init__] has
    accepted, one [set_grapheme_case] supports. *)
Definition parse_one_word (g : t) (word : pystr) (r : rng)
  : result (pron * bool) * rng :=
  let word := set_grapheme_case word (grapheme_case g) in
  (* punctuation *)
  if negb (existsb CHAR_REGEX word) then (Ok (PList (list_chars word), true), r) else
  (* keep graphemes of a word with a probability *)
  let '(keep, r) :=
    match phoneme_probability g with
    | Some p => let '(x, r') := random r in (negb (Qle_bool x p), r')
    | None => (false, r)
    end in
  if keep
  then (Ok (PList (_prepend_prefix_for_one_word (grapheme_prefix g) word), true), r)
  else
  (* heteronyms *)
  if match heteronyms g with
     | Some hs => bool_decide (hs ≠ ∅) && bool_decide (word ∈ hs)
     | None => false
     end
  then (Ok (PList (_prepend_prefix_for_one_word (grapheme_prefix g) word), true), r)
  else (lookup_rules g word, r).

Fixpoint hyphen_loop (g : t) (subs : list pystr) (pron : list pystr) (r : rng)
  : result (list pystr) * rng :=
  match subs with
  | [] => (Ok pron, r)
  | sub_word :: subs' =>
      match parse_one_word g sub_word r with
      | (Ok (p, _), r') =>
          hyphen_loop g subs' ((pron ++ extend p) ++ [py "-"]) r'
      | (Raise e, r') => (Raise e, r')
      end
  end.

Definition pop (l : list pystr) : result (list pystr) :=
  match l with
  | [] => Raise IndexError
  | _ => Ok (removelast l)
  end.

(** One turn of the loop of [__call__] for words to be changed. *)
Definition call_word (g : t) (words : list pystr) (r : rng)
  : result (list pystr) * rng :=
  match words with
  | [word] =>
      match parse_one_word g word r with
      | (Raise e, r') => (Raise e, r')
      | (Ok (pron, is_handled), r') =>
          let subwords_by_hyphen := split_on 45%N word in
          if negb is_handled && bool_decide (1 < length subwords_by_hyphen) then
            match hyphen_loop g subwords_by_hyphen [] r' with
            | (Ok pron', r'') => (pop pron', r'')
            | (Raise e, r'') => (Raise e, r'')
            end
          else (Ok (extend pron), r')
      end
  | _ => (Raise AssertionError, r)
  end.

Fixpoint call_loop (g : t) (words_list_of_tuple : list (list pystr * bool))
         (prons : list pystr) (r : rng) : result (list pystr) * rng :=
  match words_list_of_tuple with
  | [] => (Ok prons, r)
  | (words, without_changes) :: rest =>
      if without_changes
      then call_loop g rest (prons ++ map (λ word, grapheme_prefix g ++ word) words) r
      else
        match call_word g words r with
        | (Ok pron, r') => call_loop g rest (prons ++ pron) r'
        | (Raise e, r') => (Raise e, r')
        end
  end.

(** [__call__]. A heteronym model that fails ([None]) is skipped. *)
Definition call (g : t) (text : pystr) (r : rng) : result (list pystr) * rng :=
  let text := normalize_unicode_text text in
  let text :=
    match heteronym_model g with
    | Some disambiguate => default text (disambiguate text)
    | None => text
    end in
  call_loop g (word_tokenize_func g text) [] r.

End ipa.
End IPAG2P.

(** ** [class ChineseG2p] *)

Module ChineseG2p.
Section chinese.
Context `{StrOps, Pinyin}.

Record t := {
  phoneme_dict : pydict (list pystr);
  word_tokenize_func : option (pystr → list (list pystr * bool));
  apply_to_oov_word : option (pystr → pron);
  mapping_file : option pystr;
  tones : pydict pystr;
  word_segmenter : pystr → list pystr;
}.

(** The [phoneme_dict] argument: a path, given by the lines of the file
    it names, or a dictionary object. *)
Inductive dict_arg :=
| DictFile (lines : list pystr)
| DictObj (d : pydict (list pystr)).

(** [s.split()]: the maximal runs of characters that are not white
    space; [cur] is the run being read. *)
Fixpoint split_ws (s : pystr) (cur : pystr) : list pystr :=
  match s with
  | [] => match cur with [] => [] | _ => [cur] end
  | c :: s' =>
      if unicode_space c
      then match cur with [] => split_ws s' [] | _ => cur :: split_ws s' [] end
      else split_ws s' (cur ++ [c])
  end.

Definition _parse_as_pinyin_dict (lines : list pystr) : result (pydict (list pystr)) :=
  foldl (λ acc line,
           let* g2p_dict := acc in
           match split_on 9%N line with
           | parts0 :: parts1 :: _ =>
               let pinyin := lower parts0 in
               let pronunciation := split_ws parts1 [] in
               let pronunciation_with_sharp :=
                 map (λ pron, py "#" ++ pron) pronunciation in
               Ok (dict_set g2p_dict pinyin pronunciation_with_sharp)
           | _ => Raise IndexError
           end)
        (Ok []) lines.

(** [__init__]; pypinyin and jieba are taken to be installed. *)
Definition init (phoneme_dict : option dict_arg)
           (word_tokenize_func : option (pystr → list (list pystr * bool)))
           (apply_to_oov_word : option (pystr → pron))
           (mapping_file : option pystr) (word_segmenter : option pystr)
  : result t :=
  match phoneme_dict with
  | None => Raise AssertionError
  | Some phoneme_dict =>
      if negb (bool_decide (word_segmenter ∈ [None; Some (py "jieba")]))
      then Raise AssertionError
      else
        let* phoneme_dict :=
          match phoneme_dict with
          | DictFile lines => _parse_as_pinyin_dict lines
          | DictObj d => Ok d
          end in
        Ok {| phoneme_dict := phoneme_dict;
              word_tokenize_func := word_tokenize_func;
              apply_to_oov_word := apply_to_oov_word;
              mapping_file := mapping_file;
              tones := [(py "1", py "#1"); (py "2", py "#2"); (py "3", py "#3");
                        (py "4", py "#4"); (py "5", py "#5")];
              word_segmenter :=
                if bool_decide (word_segmenter = Some (py "jieba")) then jieba_cut
                else λ x, [x] |}
  end.

(** The first loop of [__call__]. *)
Definition pinyin_seq (g : t) (text : pystr) : list pystr :=
  foldl (λ pinyin_seq word, pinyin_seq ++ lazy_pinyin word) []
        (word_segmenter g text).

(** The second loop of [__call__], [phoneme_seq] being the list built. *)
Fixpoint phoneme_loop (g : t) (pinyin_seq : list pystr) (phoneme_seq : list pystr)
  : result (list pystr) :=
  match pinyin_seq with
  | [] => Ok phoneme_seq
  | pinyin :: rest =>
      match last pinyin with
      | None => Raise IndexError
      | Some c =>
          match dict_get (tones g) [c] with
          | Some tone =>
              match dict_get (phoneme_dict g) (drop_last 1 pinyin) with
              | None => Raise AssertionError
              | Some phonemes =>
                  phoneme_loop g rest ((phoneme_seq ++ phonemes) ++ [tone])
              end
          | None => phoneme_loop g rest (phoneme_seq ++ [pinyin])
          end
      end
  end.

(** [__call__] *)
Definition call (g : t) (text : pystr) : result (list pystr) :=
  phoneme_loop g (pinyin_seq g text) [].
End chinese.
End ChineseG2p.

(** ** A runtime for ASCII text

    The imported names, fixed on ASCII input so that the rules can be
    evaluated: [str.upper] and [str.lower] on the letters a-z, [\d] and the
    white space on their ASCII members, NFC as the identity (ASCII text is
    in normal form), the three cases of [set_grapheme_case], which raises
    [ValueError] for any other, and a tokenizer that cuts at spaces and
    marks no word as unchangeable. *)

Module Sample.
Definition in_range (lo hi c : N) : bool :=
  bool_decide (lo ≤ c)%N && bool_decide (c ≤ hi)%N.

Definition upper_char (c : N) : N := if in_range 97 122 c then (c - 32)%N else c.
Definition lower_char (c : N) : N := if in_range 65 90 c then (c + 32)%N else c.

Definition str_ops : StrOps := {|
  upper := map upper_char;
  lower := map lower_char;
  isupper w := existsb (in_range 65 90) w && negb (existsb (in_range 97 122) w);
  unicode_digit := in_range 48 57;
  unicode_space c := in_range 9 13 c || bool_decide (c = 32%N);
|}.

Definition tokenize (text : pystr) : list (list pystr * bool) :=
  map (λ word, ([word], false)) (split_on 32%N text).

Definition data_utils : DataUtils := {|
  GRAPHEME_CASE_MIXED := py "mixed";
  GRAPHEME_CASE_UPPER := py "upper";
  LATIN_CHARS_ALL c :=
    in_range 65 90 c || in_range 97 122 c || in_range 192 214 c
    || in_range 216 246 c || in_range 248 255 c;
  set_grapheme_case text case :=
    if bool_decide (case = Some (py "upper")) then map upper_char text
    else if bool_decide (case = Some (py "lower")) then map lower_char text
    else text;
  set_grapheme_case_raises case :=
    if bool_decide (case ∈ [Some (py "upper"); Some (py "lower"); Some (py "mixed")])
    then None
    else Some ValueError;
  normalize_unicode_text text := text;
  english_word_tokenize := tokenize;
  any_locale_word_tokenize := tokenize;
  validate_locale l :=
    if bool_decide (l ∈ [py "en-US"; py "de-DE"; py "es-ES"]) then Ok ()
    else Raise ValueError;
|}.

(** [lazy_pinyin] on the two characters of "你好" and on text with no
    Chinese character, every character of which is a syllable of its
    own. *)
Definition pinyin : Pinyin := {|
  lazy_pinyin text :=
    map (λ c, if bool_decide (c = 20320%N) then py "ni3"
              else if bool_decide (c = 22909%N) then py "hao3"
              else [c]) text;
  jieba_cut text := [text];
|}.

(** A generator whose draws are all [x]. *)
Definition constant_rng (x : Q) : rng := λ _, x.

(** A generator that draws [x] first and [y] ever after. *)
Definition two_rng (x y : Q) : rng := λ n, match n with O => x | S _ => y end.

(** A few entries in the CMUdict format. *)
Definition cmudict : phoneme_dict_t :=
  [(py "cat", [[py "K"; py "AE1"; py "T"]]);
   (py "read", [[py "R"; py "IY1"; py "D"]; [py "R"; py "EH1"; py "D"]]);
   (py "hi", [[py "HH"; py "AY1"]]);
   (py "cat'", [[py "X"]])].

Definition english (heteronyms : list pystr) (phoneme_probability : option Q)
  : EnglishG2p.t :=
  {| EnglishG2p.phoneme_dict := cmudict;
     EnglishG2p.word_tokenize_func := tokenize;
     EnglishG2p.apply_to_oov_word := None;
     EnglishG2p.mapping_file := None;
     EnglishG2p.ignore_ambiguous_words := true;
     EnglishG2p.heteronyms := Some (list_to_set heteronyms);
     EnglishG2p.phoneme_probability := phoneme_probability |}.

(** An IPA dictionary as a caller gives it: ˈ is 712, æ 230, ɹ 633,
    ɛ 603, ɔ 596, ɡ 609. *)
Definition ipa_dict : phoneme_dict_t :=
  [(py "Cat", [[[712%N]; py "k"; [230%N]; py "t"]]);
   (py "read", [[[712%N]; [633%N]; py "i"; py "d"]; [[712%N]; [633%N]; [603%N]; py "d"]]);
   (py "dog", [[[712%N]; py "d"; [596%N]; [609%N]]])].

(** The object [IPAG2P(ipa_dict, heteronyms=heteronyms)] is left with:
    upper-case keys, stresses kept. *)
Definition ipa (heteronyms : list pystr) : IPAG2P.t :=
  {| IPAG2P.use_stresses := true;
     IPAG2P.grapheme_case := Some (py "upper");
     IPAG2P.grapheme_prefix := [];
     IPAG2P.phoneme_probability := None;
     IPAG2P.locale := Some (py "en-US");
     IPAG2P.use_chars := false;
     IPAG2P.phoneme_dict :=
       [(py "CAT", [[[712%N]; py "k"; [230%N]; py "t"]]);
        (py "READ", [[[712%N]; [633%N]; py "i"; py "d"];
                     [[712%N]; [633%N]; [603%N]; py "d"]]);
        (py "DOG", [[[712%N]; py "d"; [596%N]; [609%N]]])];
     IPAG2P.symbols :=
       list_to_set [[712%N]; py "k"; [230%N]; py "t"; [633%N]; py "i"; py "d";
                    [603%N]; [596%N]; [609%N]];
     IPAG2P.word_tokenize_func := tokenize;
     IPAG2P.apply_to_oov_word := None;
     IPAG2P.mapping_file := None;
     IPAG2P.heteronym_model := None;
     IPAG2P.ignore_ambiguous_words := true;
     IPAG2P.heteronyms := Some (list_to_set heteronyms) |}.

(** A pinyin dictionary file of two lines. *)
Definition pinyin_lines : list pystr :=
  [[78; 73; 9; 110; 32; 105; 10]%N; [72; 65; 79; 9; 104; 32; 97; 117; 10]%N].

(** The object a constructor call has returned; the sample object when it
    has raised. *)
Definition built (r : result IPAG2P.t) : IPAG2P.t :=
  match r with Ok g => g | Raise _ => ipa [] end.

(** [IPAG2P(ipa_dict, use_stresses=use_stresses, heteronyms=["lead"])] *)
Definition ipa_init (use_stresses : bool) : result IPAG2P.t :=
  IPAG2P.init (H := str_ops) (H0 := data_utils) ipa_dict (Some (py "en-US")) None
              true (Some [py "lead"]) false None use_stresses (Some (py "upper"))
              [] None.

Definition chinese : ChineseG2p.t :=
  {| ChineseG2p.phoneme_dict :=
       [(py "ni", [py "#n"; py "#i"]); (py "hao", [py "#h"; py "#au"])];
     ChineseG2p.word_tokenize_func := None;
     ChineseG2p.apply_to_oov_word := None;
     ChineseG2p.mapping_file := None;
     ChineseG2p.tones :=
       [(py "1", py "#1"); (py "2", py "#2"); (py "3", py "#3");
        (py "4", py "#4"); (py "5", py "#5")];
     ChineseG2p.word_segmenter := λ x, [x] |}.

(** The dictionary of the NLTK corpus, cut down to the sample entries. *)
Definition nltk : Nltk := {| nltk_cmudict := cmudict |}.

(** A tokenizer that marks every word as unchangeable, as for a text that
    is already in phonemes. *)
Definition tokenize_unchanged (text : pystr) : list (list pystr * bool) :=
  map (λ word, ([word], true)) (split_on 32%N text).

(** An OOV function: the word spelled out. *)
Definition spell (word : pystr) : pron := PList (list_chars word).

(** The sample objects with another tokenizer, OOV function or case. *)
Definition english_with (tok : pystr → list (list pystr * bool))
           (oov : option (pystr → pron)) : EnglishG2p.t :=
  {| EnglishG2p.phoneme_dict := cmudict;
     EnglishG2p.word_tokenize_func := tok;
     EnglishG2p.apply_to_oov_word := oov;
     EnglishG2p.mapping_file := None;
     EnglishG2p.ignore_ambiguous_words := true;
     EnglishG2p.heteronyms := Some (list_to_set [py "lead"]);
     EnglishG2p.phoneme_probability := None |}.

Definition ipa_with (case : option pystr) (tok : pystr → list (list pystr * bool))
           (oov : option (pystr → pron)) : IPAG2P.t :=
  {| IPAG2P.use_stresses := true;
     IPAG2P.grapheme_case := case;
     IPAG2P.grapheme_prefix := py "#";
     IPAG2P.phoneme_probability := None;
     IPAG2P.locale := Some (py "en-US");
     IPAG2P.use_chars := false;
     IPAG2P.phoneme_dict := IPAG2P.phoneme_dict (ipa []);
     IPAG2P.symbols := IPAG2P.symbols (ipa []);
     IPAG2P.word_tokenize_func := tok;
     IPAG2P.apply_to_oov_word := oov;
     IPAG2P.mapping_file := None;
     IPAG2P.heteronym_model := None;
     IPAG2P.ignore_ambiguous_words := true;
     IPAG2P.heteronyms := None |}.

(** The sample object with the grapheme prefix ["#"] and a list of
    heteronyms. *)
Definition ipa_sharp (heteronyms : list pystr) : IPAG2P.t :=
  {| IPAG2P.use_stresses := true;
     IPAG2P.grapheme_case := Some (py "upper");
     IPAG2P.grapheme_prefix := py "#";
     IPAG2P.phoneme_probability := None;
     IPAG2P.locale := Some (py "en-US");
     IPAG2P.use_chars := false;
     IPAG2P.phoneme_dict := IPAG2P.phoneme_dict (ipa []);
     IPAG2P.symbols := IPAG2P.symbols (ipa []);
     IPAG2P.word_tokenize_func := tokenize;
     IPAG2P.apply_to_oov_word := None;
     IPAG2P.mapping_file := None;
     IPAG2P.heteronym_model := None;
     IPAG2P.ignore_ambiguous_words := true;
     IPAG2P.heteronyms := Some (list_to_set heteronyms) |}.

(** A CMUdict file: a comment, "cat", and "read" with a variant. *)
Definition cmu_lines : list pystr :=
  [py ";;; sample" ++ [10%N];
   py "CAT  K AE1 T" ++ [10%N];
   py "READ  R IY1 D" ++ [10%N];
   py "READ(2)  R EH1 D" ++ [10%N]].

(** The same with a word that has no pronunciation. *)
Definition cmu_lines_bad : list pystr :=
  [py "CAT  K AE1 T" ++ [10%N]; py "DOG" ++ [10%N]; py "READ  R IY1 D" ++ [10%N]].

(** A heteronyms file of one word. *)
Definition heteronym_lines : list pystr := [py "lead" ++ [10%N]].

(** [EnglishG2p(cmu_lines, heteronyms=heteronym_lines,
    phoneme_probability=prob)], both arguments as files. *)
Definition english_init (prob : option Q) : result EnglishG2p.t :=
  EnglishG2p.init (H := str_ops) (H0 := nltk) (Some (EnglishG2p.DictFile cmu_lines))
                  tokenize None true (Some (EnglishG2p.HeteronymsFile heteronym_lines))
                  prob None.

Definition english_built (r : result EnglishG2p.t) : EnglishG2p.t :=
  match r with Ok g => g | Raise _ => english [] None end.

(** [IPAG2P(ipa_dict, heteronyms=["lead"], phoneme_probability=prob)] *)
Definition ipa_init_with (prob : option Q) : result IPAG2P.t :=
  IPAG2P.init (H := str_ops) (H0 := data_utils) ipa_dict (Some (py "en-US")) None
              true (Some [py "lead"]) false prob true (Some (py "upper")) [] None.

(** An IPA dictionary file: "Cat", and "read" with a variant; a comment
    and an empty line. *)
Definition ipa_lines : list pystr :=
  [py ";;; sample" ++ [10%N];
   py "Cat  " ++ [712%N] ++ py "k" ++ [230%N] ++ py "t" ++ [10%N];
   [];
   py "read  " ++ [712%N; 633%N] ++ py "id" ++ [10%N];
   py "read(2)  " ++ [712%N; 633%N; 603%N] ++ py "d" ++ [10%N]].

(** The same with a word that has no pronunciation. *)
Definition ipa_lines_bad : list pystr :=
  [py "Cat  " ++ [712%N] ++ py "k" ++ [230%N] ++ py "t" ++ [10%N]; py "dog" ++ [10%N]].

(** A pinyin dictionary file that gives "ni" twice, and one that ends with
    an empty line. *)
Definition pinyin_lines_twice : list pystr :=
  pinyin_lines ++ [[110; 105; 9; 110; 32; 105; 105; 10]%N].

Definition pinyin_lines_bad : list pystr := pinyin_lines ++ [[10%N]].
End Sample.

(** ** The behaviour the specification describes

    Definitions that follow the words of the specification, to be compared
    with the functions above. *)

(** The phonemes the en-US suffix rules are said to append after a stem
    whose last letter is [c]: ["s"] after t or T; ["ɪ", "z"] after s or S,
    for the apostrophe form only; ["z"] otherwise. *)
Definition claimed_inflection (apostrophe : bool) (c : N) : list pystr :=
  if bool_decide (c = 116%N ∨ c = 84%N) then [py "s"]
  else if apostrophe && bool_decide (c = 115%N ∨ c = 83%N) then [[618%N]; py "z"]
  else [py "z"].

(** The sub-words parsed one after the other, each on the generator the
    one before has left. *)
Fixpoint parse_each (parse : pystr → rng → result (pron * bool) * rng)
         (subs : list pystr) (r : rng) : result (list pron) * rng :=
  match subs with
  | [] => (Ok [], r)
  | sub_word :: subs' =>
      match parse sub_word r with
      | (Ok (p, _), r1) =>
          match parse_each parse subs' r1 with
          | (Ok ps, r2) => (Ok (p :: ps), r2)
          | (Raise e, r2) => (Raise e, r2)
          end
      | (Raise e, r1) => (Raise e, r1)
      end
  end.

(** The results joined by single ["-"] tokens, none at the end. *)
Fixpoint join_hyphen (ps : list (list pystr)) : list pystr :=
  match ps with
  | [] => []
  | [p] => p
  | p :: ps' => p ++ [py "-"] ++ join_hyphen ps'
  end.

(** A computation that threads the generator is free of it when its
    result is the same on every generator and the generator is handed back
    as it came. *)
Definition rng_free {A} (f : rng → A * rng) : Prop :=
  ∀ r r', f r = ((f r').1, r).

(** A pronunciation with neither stress symbol among its symbols. *)
Definition stress_free (pron : list pystr) : Prop :=
  ∀ s, s ∈ IPAG2P.STRESS_SYMBOLS → s ∉ pron.

(** The tone token of a syllable that ends in a tone digit. *)
Definition tone_of (tones : pydict pystr) (pinyin : pystr) : option pystr :=
  match last pinyin with
  | Some c => dict_get tones [c]
  | None => None
  end.

(** The coverage a syllable asks of the dictionary: if it ends in a tone
    digit, its base, the syllable without the digit, is a key. *)
Definition covered (g : ChineseG2p.t) (pinyin : pystr) : bool :=
  match tone_of (ChineseG2p.tones g) pinyin with
  | Some _ => dict_mem (ChineseG2p.phoneme_dict g) (drop_last 1 pinyin)
  | None => true
  end.

(** What a syllable is said to add to the output: the phonemes of its base
    and its tone token, or the syllable itself as one token. *)
Definition claimed_phonemes (g : ChineseG2p.t) (pinyin : pystr) : list pystr :=
  match tone_of (ChineseG2p.tones g) pinyin with
  | Some tone =>
      default [] (dict_get (ChineseG2p.phoneme_dict g) (drop_last 1 pinyin)) ++ [tone]
  | None => [pinyin]
  end.

(** What the lines of the dictionary files stand for. *)
Section file_entries.
Context `{StrOps, DataUtils}.

(** An entry line of a CMUdict file: its word is the text before the first
    two spaces, without its variant marks and in lower case; its
    pronunciation the symbols, cut at single spaces, of what comes up to
    the next two spaces. *)
Definition cmu_word (line : pystr) : pystr :=
  lower (sub_alt 0 (hd [] (split_two_spaces line))).

Definition cmu_pronunciation (line : pystr) : list pystr :=
  split_on 32%N (strip (nth 1 (split_two_spaces line) [])).

(** The pronunciations the entry lines give for a word, in the order of
    the file. *)
Definition cmu_entries (lines : list pystr) (w : pystr) : list (list pystr) :=
  map cmu_pronunciation
      (filter (λ line, EnglishG2p.cmu_entry_line line = true ∧ cmu_word line = w)
              lines).

(** A line of an IPA dictionary file is read when it is not empty and its
    NFC form begins with a letter of the ranges the code lists or an
    apostrophe; its word is the first run of characters that are not white
    space, without its variant marks, and its pronunciation the characters
    of the rest that are not white space. *)
Definition ipa_line_read (line : pystr) : bool :=
  match line with
  | [] => false
  | _ :: _ =>
      match normalize_unicode_text line with
      | c :: _ => IPAG2P.ipa_entry_char c
      | [] => false
      end
  end.

Definition ipa_line_parts (line : pystr) : list pystr :=
  split_maxsplit1 (strip (normalize_unicode_text line)).

Definition ipa_word (line : pystr) : pystr :=
  sub_alt 0 (hd [] (ipa_line_parts line)).

Definition ipa_pronunciation (line : pystr) : list pystr :=
  list_chars (filter (λ c, unicode_space c = false) (nth 1 (ipa_line_parts line) [])).

Definition ipa_entries (lines : list pystr) (w : pystr) : list (list pystr) :=
  map ipa_pronunciation
      (filter (λ line, ipa_line_read line = true ∧ ipa_word line = w) lines).

(** A line of a pinyin dictionary file: the key is what comes before the
    first tab, in lower case; the phonemes are the words of what comes up to
    the next tab, each behind a ["#"]. *)
Definition pinyin_key (line : pystr) : pystr := lower (hd [] (split_on 9%N line)).

Definition pinyin_phonemes (line : pystr) : list pystr :=
  map (λ pron, py "#" ++ pron) (ChineseG2p.split_ws (nth 1 (split_on 9%N line) []) []).
End file_entries.

(** What [_normalize_dict] returns for a case [set_grapheme_case]
    supports: the loop with every call returning. *)
Definition normalized `{StrOps, DataUtils} (case : option pystr) (use_chars : bool)
           (use_stresses : bool) (prefix : pystr) (d : phoneme_dict_t)
  : phoneme_dict_t * gset pystr :=
  foldl (λ acc '(word, prons),
           IPAG2P.normalize_entry case use_chars use_stresses prefix acc
                                  (set_grapheme_case word case) prons)
        ([], ∅) d.

(** A generator all of whose draws are at most [p]. *)
Definition draws_le (p : Q) (r : rng) : Prop := ∀ n, Qle_bool (r n) p = true.

(** A parser of words that is free of the generator on every word. *)
Definition rng_free_all {A} (parse : pystr → rng → A * rng) : Prop :=
  ∀ w, rng_free (parse w).

(** * Properties *)

(** ** Strings and dictionaries *)

Lemma endswith_app (stem suf : pystr) : endswith (stem ++ suf) suf = true.
Proof.
  unfold endswith. rewrite length_app.
  replace (length stem + length suf - length suf) with (length stem) by lia.
  rewrite drop_app_length.
  rewrite !bool_decide_eq_true_2; [done | done | lia].
Qed.

Lemma drop_last_app (stem suf : pystr) : drop_last (length suf) (stem ++ suf) = stem.
Proof.
  unfold drop_last. rewrite length_app.
  replace (length stem + length suf - length suf) with (length stem) by lia.
  apply take_app_length.
Qed.

Lemma endswith_inv (w suf : pystr) :
  endswith w suf = true → w = drop_last (length suf) w ++ suf.
Proof.
  unfold endswith, drop_last. intros Hw.
  apply andb_true_iff in Hw as [_ Hd]. apply bool_decide_eq_true in Hd.
  rewrite <- (take_drop (length w - length suf) w) at 1. by rewrite Hd.
Qed.

Lemma dict_mem_Some {V} (d : pydict V) k v : dict_get d k = Some v → dict_mem d k = true.
Proof. unfold dict_mem. by intros ->. Qed.

Lemma dict_mem_None {V} (d : pydict V) k : dict_get d k = None → dict_mem d k = false.
Proof. unfold dict_mem. by intros ->. Qed.

Lemma dict_mem_true {V} (d : pydict V) k : dict_mem d k = true → ∃ v, dict_get d k = Some v.
Proof. unfold dict_mem. destruct (dict_get d k); [eauto | done]. Qed.

Lemma dict_get_set_eq {V} (d : pydict V) k v : dict_get (dict_set d k v) k = Some v.
Proof.
  induction d as [|[k' v'] d IH]; simpl.
  - by rewrite bool_decide_eq_true_2.
  - case_bool_decide as Hk; simpl.
    + by rewrite bool_decide_eq_true_2.
    + by rewrite bool_decide_eq_false_2.
Qed.

Lemma dict_get_set_ne {V} (d : pydict V) k k' v :
  k ≠ k' → dict_get (dict_set d k v) k' = dict_get d k'.
Proof.
  intros Hne. induction d as [|[k0 v0] d IH]; simpl.
  - by rewrite bool_decide_eq_false_2.
  - case_bool_decide as Hk; simpl.
    + subst k0. by rewrite !bool_decide_eq_false_2.
    + case_bool_decide; [done | apply IH].
Qed.

Lemma dict_get_set {V} (d : pydict V) k k' v :
  dict_get (dict_set d k v) k' = if bool_decide (k = k') then Some v else dict_get d k'.
Proof.
  case_bool_decide as Hk.
  - subst. apply dict_get_set_eq.
  - by apply dict_get_set_ne.
Qed.

Lemma dict_set_nonempty {V} (d : pydict V) k v : dict_set d k v ≠ [].
Proof. destruct d as [|[k' v'] d]; simpl; [done | by case_bool_decide]. Qed.

(** ** The word rules of [EnglishG2p] *)

Section english_rules.
Context `{StrOps}.
Import EnglishG2p.

Lemma english_no_probability g word r :
  phoneme_probability g = None →
  parse_one_word g word r = (parse_rules g word, r).
Proof. unfold parse_one_word. by intros ->. Qed.

Lemma english_ambiguity_ok g word prons :
  dict_get (phoneme_dict g) word = Some prons →
  ambiguity_ok g word
  = Ok (negb (ignore_ambiguous_words g) || bool_decide (length prons = 1)).
Proof.
  intros Hd. unfold ambiguity_ok, is_unique_in_phoneme_dict, dict_getitem.
  rewrite Hd. by destruct (ignore_ambiguous_words g).
Qed.

Lemma english_first_pron g word p prons :
  dict_get (phoneme_dict g) word = Some (p :: prons) → first_pron g word = Ok p.
Proof. intros Hd. unfold first_pron, dict_getitem. by rewrite Hd. Qed.

Lemma english_not_heteronym g word :
  (∀ hs, heteronyms g = Some hs → word ∉ hs) →
  match heteronyms g with
  | Some hs => bool_decide (word ∈ hs)
  | None => false
  end = false.
Proof.
  intros Hh. destruct (heteronyms g) as [hs|]; [|done].
  apply bool_decide_eq_false_2. by apply Hh.
Qed.

(** A word of the dictionary passes both suffix rules and is looked up. *)
Lemma english_known_word g word prons :
  dict_get (phoneme_dict g) word = Some prons →
  existsb WORD_CHAR word = true →
  (∀ hs, heteronyms g = Some hs → word ∉ hs) →
  parse_rules g word
  = if negb (ignore_ambiguous_words g) || bool_decide (length prons = 1)
    then let* p := first_pron g word in Ok (PList p, true)
    else match apply_to_oov_word g with
         | Some f => Ok (f word, true)
         | None => Ok (PStr word, false)
         end.
Proof.
  intros Hd Hc Hh. unfold parse_rules.
  rewrite Hc, (english_not_heteronym _ _ Hh), (dict_mem_Some _ _ _ Hd). simpl.
  rewrite !andb_false_r. simpl.
  rewrite (english_ambiguity_ok _ _ _ Hd). simpl.
  by destruct (negb (ignore_ambiguous_words g) || bool_decide (length prons = 1)).
Qed.
End english_rules.

(** ** The word rules of [IPAG2P] *)

Section ipa_rules.
Context `{StrOps, DataUtils}.
Import IPAG2P.

Lemma ipa_ambiguity_ok g word prons :
  dict_get (phoneme_dict g) word = Some prons →
  ambiguity_ok g word
  = Ok (negb (ignore_ambiguous_words g) || bool_decide (length prons = 1)).
Proof.
  intros Hd. unfold ambiguity_ok, is_unique_in_phoneme_dict, dict_getitem.
  rewrite Hd. by destruct (ignore_ambiguous_words g).
Qed.

Lemma ipa_first_pron g word p prons :
  dict_get (phoneme_dict g) word = Some (p :: prons) → first_pron g word = Ok p.
Proof. intros Hd. unfold first_pron, dict_getitem. by rewrite Hd. Qed.

Lemma ipa_not_heteronym g word :
  (∀ hs, heteronyms g = Some hs → word ∉ hs) →
  match heteronyms g with
  | Some hs => bool_decide (hs ≠ ∅) && bool_decide (word ∈ hs)
  | None => false
  end = false.
Proof.
  intros Hh. destruct (heteronyms g) as [hs|]; [|done].
  rewrite (bool_decide_eq_false_2 (word ∈ hs)); [apply andb_false_r | by apply Hh].
Qed.

(** Without a probability, with a grapheme in the word and the word not
    a heteronym, [parse_one_word] is [lookup_rules] and draws nothing. *)
Lemma ipa_reaches_lookup g word r :
  let w := set_grapheme_case word (grapheme_case g) in
  phoneme_probability g = None →
  existsb CHAR_REGEX w = true →
  (∀ hs, heteronyms g = Some hs → w ∉ hs) →
  parse_one_word g word r = (lookup_rules g w, r).
Proof.
  intros w Hp Hc Hh. unfold parse_one_word. fold w.
  by rewrite Hc, Hp, (ipa_not_heteronym _ _ Hh).
Qed.

Lemma ipa_word_found_known g word stem :
  dict_mem (phoneme_dict g) word = true → word_found g word stem = None.
Proof. unfold word_found. by intros ->. Qed.

Lemma ipa_suffix_rules_known g word :
  dict_mem (phoneme_dict g) word = true →
  apostrophe_s_rule g word = Ok None ∧ s_rule g word = Ok None.
Proof.
  intros Hm. unfold apostrophe_s_rule, s_rule.
  rewrite !(ipa_word_found_known _ _ _ Hm).
  split; by case_match.
Qed.

(** A word of the dictionary passes the suffix rules of every locale
    and is looked up. *)
Lemma ipa_known_word g w prons :
  dict_get (phoneme_dict g) w = Some prons →
  lookup_rules g w
  = if negb (ignore_ambiguous_words g) || bool_decide (length prons = 1)
    then let* p := first_pron g w in Ok (PList p, true)
    else match apply_to_oov_word g with
         | Some f => Ok (f w, true)
         | None => Ok (PList (_prepend_prefix_for_one_word (grapheme_prefix g) w), false)
         end.
Proof.
  intros Hd. unfold lookup_rules.
  pose proof (dict_mem_Some _ _ _ Hd) as Hm.
  destruct (ipa_suffix_rules_known _ _ Hm) as [-> ->].
  rewrite Hm, (ipa_ambiguity_ok _ _ _ Hd).
  destruct (bool_decide (locale g = Some (py "en-US"))); simpl;
    destruct (negb (ignore_ambiguous_words g) || bool_decide (length prons = 1));
    simpl; try done; by rewrite andb_false_r.
Qed.
End ipa_rules.

(** ** The constructor of [IPAG2P] *)

Section ipa_constructor.
Context `{StrOps, DataUtils}.

(** [_normalize_dict] returns for a case [set_grapheme_case] supports, and
    raises at the first word for another. *)
Lemma normalize_dict_supported case uc us prefix (d : phoneme_dict_t) :
  set_grapheme_case_raises case = None →
  IPAG2P._normalize_dict case uc us prefix d = Ok (normalized case uc us prefix d).
Proof.
  intros Hc. unfold IPAG2P._normalize_dict, normalized, IPAG2P.set_grapheme_case_call.
  rewrite Hc. generalize (([], ∅) : phoneme_dict_t * gset pystr).
  induction d as [|[word prons] d IH]; intros acc; simpl; [done | apply IH].
Qed.

Lemma normalize_dict_unsupported case uc us prefix (d : phoneme_dict_t) e :
  set_grapheme_case_raises case = Some e → d ≠ [] →
  IPAG2P._normalize_dict case uc us prefix d = Raise e.
Proof.
  intros Hc Hd. unfold IPAG2P._normalize_dict.
  destruct d as [|[word prons] d]; [done|]. simpl.
  unfold IPAG2P.set_grapheme_case_call. rewrite Hc. simpl. clear Hd.
  induction d as [|[w p] d IH]; [done|]. simpl. exact IH.
Qed.

(** What [__init__] has gone through when it returns, and the object it
    returns. *)
Lemma init_inv pd locale oov ignore hets use_chars prob use_stresses case prefix
      mapping g :
  IPAG2P.__init__ pd locale oov ignore hets use_chars prob use_stresses case
                  prefix mapping = Ok g →
  ∃ obj,
    match pd with
    | IPAG2P.DictFile lines => IPAG2P._parse_phoneme_dict_file lines
    | IPAG2P.DictObj d => Ok (IPAG2P._parse_phoneme_dict d)
    end = Ok obj
    ∧ obj ≠ []
    ∧ match locale with Some l => validate_locale l | None => Ok () end = Ok ()
    ∧ set_grapheme_case_raises case = None
    ∧ g = let use_chars' :=
            if negb use_chars && bool_decide (is_Some prob) then true
            else use_chars in
          {| IPAG2P.use_stresses := use_stresses;
             IPAG2P.grapheme_case := case;
             IPAG2P.grapheme_prefix := prefix;
             IPAG2P.phoneme_probability := prob;
             IPAG2P.locale := locale;
             IPAG2P.use_chars := use_chars';
             IPAG2P.phoneme_dict :=
               (normalized case use_chars' use_stresses prefix obj).1;
             IPAG2P.symbols :=
               (normalized case use_chars' use_stresses prefix obj).2;
             IPAG2P.word_tokenize_func :=
               if bool_decide (locale = Some (py "en-US")) then english_word_tokenize
               else any_locale_word_tokenize;
             IPAG2P.apply_to_oov_word := oov;
             IPAG2P.mapping_file := mapping;
             IPAG2P.heteronym_model := None;
             IPAG2P.ignore_ambiguous_words := ignore;
             IPAG2P.heteronyms :=
               match
                 match hets with
                 | Some (IPAG2P.HeteronymsFile lines) =>
                     Some (list_to_set (IPAG2P._parse_file_by_lines lines) : gset pystr)
                 | Some (IPAG2P.HeteronymsList l) => Some (list_to_set l)
                 | None => None
                 end
               with
               | Some hs =>
                   if bool_decide (hs ≠ ∅)
                   then Some (set_map (λ het, set_grapheme_case het case) hs)
                   else Some hs
               | None => None
               end |}.
Proof.
  unfold IPAG2P.__init__. intros Hg.
  destruct (match locale with Some l => validate_locale l | None => Ok () end)
    as [[]|]; simpl in Hg; [|done].
  destruct (match pd with
            | IPAG2P.DictFile lines => IPAG2P._parse_phoneme_dict_file lines
            | IPAG2P.DictObj d => Ok (IPAG2P._parse_phoneme_dict d)
            end) as [obj|]; simpl in Hg; [|done].
  exists obj. split; [done|].
  destruct obj as [|entry obj]; [done|]. split; [done|]. split; [done|].
  destruct (set_grapheme_case_raises case) as [e|] eqn:Hc.
  - by rewrite (normalize_dict_unsupported _ _ _ _ _ e Hc) in Hg.
  - rewrite (normalize_dict_supported _ _ _ _ _ Hc) in Hg. simpl in Hg.
    split; [done|].
    destruct (normalized _ _ _ _ (entry :: obj)) as [d syms].
    by injection Hg as <-.
Qed.

(** The same for a dictionary object and a list of heteronyms. *)
Lemma init_record phoneme_dict locale oov ignore hets use_chars prob use_stresses
      case prefix mapping g :
  IPAG2P.init phoneme_dict locale oov ignore hets use_chars prob use_stresses case
              prefix mapping = Ok g →
  IPAG2P._parse_phoneme_dict phoneme_dict ≠ []
  ∧ set_grapheme_case_raises case = None
  ∧ g = let use_chars' :=
          if negb use_chars && bool_decide (is_Some prob) then true
          else use_chars in
        let obj := IPAG2P._parse_phoneme_dict phoneme_dict in
        {| IPAG2P.use_stresses := use_stresses;
           IPAG2P.grapheme_case := case;
           IPAG2P.grapheme_prefix := prefix;
           IPAG2P.phoneme_probability := prob;
           IPAG2P.locale := locale;
           IPAG2P.use_chars := use_chars';
           IPAG2P.phoneme_dict :=
             (normalized case use_chars' use_stresses prefix obj).1;
           IPAG2P.symbols :=
             (normalized case use_chars' use_stresses prefix obj).2;
           IPAG2P.word_tokenize_func :=
             if bool_decide (locale = Some (py "en-US")) then english_word_tokenize
             else any_locale_word_tokenize;
           IPAG2P.apply_to_oov_word := oov;
           IPAG2P.mapping_file := mapping;
           IPAG2P.heteronym_model := None;
           IPAG2P.ignore_ambiguous_words := ignore;
           IPAG2P.heteronyms :=
             match list_to_set <$> hets with
             | Some hs =>
                 if bool_decide (hs ≠ ∅)
                 then Some (set_map (λ het, set_grapheme_case het case) hs)
                 else Some hs
             | None => None
             end |}.
Proof.
  unfold IPAG2P.init. intros Hg.
  apply init_inv in Hg as (obj & [= <-] & Hne & _ & Hc & ->).
  split; [done|]. split; [done|]. by destruct hets.
Qed.
End ipa_constructor.

(** ** Heteronyms *)

Section heteronym_claims.
Context `{StrOps, DataUtils}.

Lemma init_heteronyms phoneme_dict locale oov ignore hets use_chars prob
      use_stresses case prefix mapping g :
  IPAG2P.init phoneme_dict locale oov ignore (Some hets) use_chars prob
              use_stresses case prefix mapping = Ok g →
  IPAG2P.grapheme_case g = case
  ∧ IPAG2P.heteronyms g
    = Some (if bool_decide (list_to_set hets ≠ (∅ : gset pystr))
            then set_map (λ het, set_grapheme_case het case)
                         (list_to_set hets : gset pystr)
            else list_to_set hets).
Proof.
  intros Hg. apply init_record in Hg as (_ & _ & ->). simpl.
  split; [done|]. by case_bool_decide.
Qed.

(** C5. A heteronym that has a letter or digit, with no phoneme
    probability, is left in grapheme form with status [True], whatever
    the dictionary holds: [EnglishG2p] returns the word itself, [IPAG2P]
    the characters of the word in the configured case, each behind the
    grapheme prefix. The last part ties the set [IPAG2P] tests to the
    list its constructor was given: every word of that list is, in the
    configured case, a member. *)
Theorem C5_heteronyms_kept_as_graphemes :
  (∀ (g : EnglishG2p.t) (word : pystr) (hs : gset pystr) (r : rng),
      EnglishG2p.heteronyms g = Some hs → word ∈ hs →
      existsb EnglishG2p.WORD_CHAR word = true →
      EnglishG2p.phoneme_probability g = None →
      EnglishG2p.parse_one_word g word r = (Ok (PStr word, true), r))
  ∧ (∀ (g : IPAG2P.t) (word : pystr) (hs : gset pystr) (r : rng),
        let w := set_grapheme_case word (IPAG2P.grapheme_case g) in
        IPAG2P.heteronyms g = Some hs → w ∈ hs →
        existsb IPAG2P.CHAR_REGEX w = true →
        IPAG2P.phoneme_probability g = None →
        IPAG2P.parse_one_word g word r
        = (Ok (PList (map (λ c, IPAG2P.grapheme_prefix g ++ [c]) w), true), r))
  ∧ (∀ phoneme_dict locale oov ignore hets use_chars prob use_stresses case
       prefix mapping g (word : pystr),
        IPAG2P.init phoneme_dict locale oov ignore (Some hets) use_chars prob
                    use_stresses case prefix mapping = Ok g →
        word ∈ hets →
        ∃ hs, IPAG2P.heteronyms g = Some hs
              ∧ set_grapheme_case word (IPAG2P.grapheme_case g) ∈ hs).
Proof.
  split; [|split].
  - intros g word hs r Hh Hin Hc Hp.
    rewrite (english_no_probability _ _ _ Hp). unfold EnglishG2p.parse_rules.
    by rewrite Hc, Hh, bool_decide_eq_true_2.
  - intros g word hs r w Hh Hin Hc Hp. unfold IPAG2P.parse_one_word. fold w.
    rewrite Hc, Hp, Hh. simpl.
    rewrite !bool_decide_eq_true_2; [done | done |].
    intros ->. set_solver.
  - intros phoneme_dict locale oov ignore hets use_chars prob use_stresses case
           prefix mapping g word Hg Hin.
    destruct (init_heteronyms _ _ _ _ _ _ _ _ _ _ _ _ Hg) as [-> ->].
    eexists; split; [done|].
    rewrite bool_decide_eq_true_2 by set_solver.
    apply elem_of_map. exists word. split; [done | set_solver].
Qed.
End heteronym_claims.

(** ** The suffix rules of [EnglishG2p] *)

Section english_suffix_claims.
Context `{StrOps}.
Import EnglishG2p.

Lemma english_s_word_has_char (stem : pystr) (c : N) :
  WORD_CHAR c = true → existsb WORD_CHAR (stem ++ [c]) = true.
Proof. intros Hc. rewrite existsb_app. simpl. rewrite Hc. apply orb_true_r. Qed.

Lemma english_apostrophe_s g stem p prons :
  let word := stem ++ py "'s" in
  stem ≠ [] →
  (∀ hs, heteronyms g = Some hs → word ∉ hs) →
  dict_get (phoneme_dict g) word = None →
  dict_get (phoneme_dict g) stem = Some (p :: prons) →
  ignore_ambiguous_words g = false ∨ prons = [] →
  parse_rules g word = Ok (PList (p ++ [py "Z"]), true).
Proof.
  intros word Hne Hh Hw Hs Ha. unfold parse_rules.
  assert (existsb WORD_CHAR word = true) as ->.
  { unfold word. change (py "'s") with ([39%N] ++ [115%N]).
    rewrite app_assoc. by apply english_s_word_has_char. }
  rewrite (english_not_heteronym _ _ Hh). simpl.
  assert (endswith word (py "'s") = true) as Hend by apply endswith_app.
  assert (drop_last 2 word = stem) as Hstem by apply (drop_last_app stem (py "'s")).
  assert (bool_decide (2 < length word) = true) as Hlen.
  { apply bool_decide_eq_true_2. unfold word. rewrite length_app. simpl.
    destruct stem; [done | simpl; lia]. }
  rewrite (dict_mem_None _ _ Hw), Hend, Hstem, Hlen, (dict_mem_Some _ _ _ Hs).
  simpl. rewrite (english_ambiguity_ok _ _ _ Hs).
  assert (negb (ignore_ambiguous_words g)
          || bool_decide (length (p :: prons) = 1) = true) as ->.
  { destruct Ha as [-> | ->]; [done | apply orb_true_r]. }
  simpl. by rewrite (english_first_pron _ _ _ _ Hs).
Qed.

(** When the ['s] rule does not apply, its condition is false. *)
Lemma english_apostrophe_s_skipped g stem word :
  word = stem ++ py "s" →
  (∀ stem2 prons2,
      stem = stem2 ++ py "'" → stem2 ≠ [] →
      dict_get (phoneme_dict g) stem2 = Some prons2 →
      ignore_ambiguous_words g = true ∧ length prons2 ≠ 1) →
  (if bool_decide (2 < length word)
      && endswith word (py "'s")
      && negb (dict_mem (phoneme_dict g) word)
      && dict_mem (phoneme_dict g) (drop_last 2 word)
   then ambiguity_ok g (drop_last 2 word) else Ok false) = Ok false.
Proof.
  intros Hword Hskip.
  destruct (bool_decide (2 < length word)) eqn:Hlen; [|done].
  destruct (endswith word (py "'s")) eqn:Hend; [|done].
  destruct (negb (dict_mem (phoneme_dict g) word)); [|done].
  destruct (dict_mem (phoneme_dict g) (drop_last 2 word)) eqn:Hm; [|done].
  simpl. apply dict_mem_true in Hm as [prons2 Hd].
  apply bool_decide_eq_true in Hlen.
  pose proof (endswith_inv _ _ Hend) as Hw. simpl in Hw.
  set (stem2 := drop_last 2 word) in *.
  assert (stem = stem2 ++ py "'") as Hstem.
  { rewrite Hword in Hw at 1. change (py "'s") with (py "'" ++ py "s") in Hw.
    rewrite app_assoc in Hw. by apply app_inj_tail in Hw as [? _]. }
  assert (stem2 ≠ []) as Hne.
  { intros Hnil. rewrite Hw, Hnil in Hlen. simpl in Hlen. lia. }
  destruct (Hskip _ _ Hstem Hne Hd) as [Hi Hl].
  rewrite (english_ambiguity_ok _ _ _ Hd), Hi. simpl.
  by rewrite bool_decide_eq_false_2.
Qed.

Lemma english_s g stem p prons :
  let word := stem ++ py "s" in
  stem ≠ [] →
  (∀ hs, heteronyms g = Some hs → word ∉ hs) →
  (∀ stem2 prons2,
      stem = stem2 ++ py "'" → stem2 ≠ [] →
      dict_get (phoneme_dict g) stem2 = Some prons2 →
      ignore_ambiguous_words g = true ∧ length prons2 ≠ 1) →
  dict_get (phoneme_dict g) word = None →
  dict_get (phoneme_dict g) stem = Some (p :: prons) →
  ignore_ambiguous_words g = false ∨ prons = [] →
  parse_rules g word = Ok (PList (p ++ [py "Z"]), true).
Proof.
  intros word Hne Hh Hskip Hw Hs Ha. unfold parse_rules.
  rewrite (english_apostrophe_s_skipped g stem word eq_refl Hskip).
  assert (existsb WORD_CHAR word = true) as ->
      by by apply english_s_word_has_char.
  rewrite (english_not_heteronym _ _ Hh). simpl.
  assert (endswith word (py "s") = true) as Hend by apply endswith_app.
  assert (drop_last 1 word = stem) as Hstem by apply (drop_last_app stem (py "s")).
  assert (bool_decide (1 < length word) = true) as Hlen.
  { apply bool_decide_eq_true_2. unfold word. rewrite length_app. simpl.
    destruct stem; [done | simpl; lia]. }
  rewrite (dict_mem_None _ _ Hw), Hend, Hstem, Hlen, (dict_mem_Some _ _ _ Hs).
  simpl. rewrite (english_ambiguity_ok _ _ _ Hs).
  assert (negb (ignore_ambiguous_words g)
          || bool_decide (length (p :: prons) = 1) = true) as ->.
  { destruct Ha as [-> | ->]; [done | apply orb_true_r]. }
  simpl. by rewrite (english_first_pron _ _ _ _ Hs).
Qed.

(** C3, as the code has it. With no phoneme probability and the word not
    a heteronym: a word [stem ++ "'s"], [stem] not empty, that is not a
    key while [stem] is a key with a first pronunciation, unique or with
    ambiguous words not ignored, gets that pronunciation with ["Z"]
    appended and status [True]; so does a word [stem ++ "s"] under the
    same conditions, provided the ['s] rule, which is tried first, does
    not apply to it. *)
Theorem C3_english_suffix_rules :
  (∀ (g : t) (stem p : list _) (prons : list (list pystr)) (r : rng),
      let word := stem ++ py "'s" in
      stem ≠ [] →
      phoneme_probability g = None →
      (∀ hs, heteronyms g = Some hs → word ∉ hs) →
      dict_get (phoneme_dict g) word = None →
      dict_get (phoneme_dict g) stem = Some (p :: prons) →
      ignore_ambiguous_words g = false ∨ prons = [] →
      parse_one_word g word r = (Ok (PList (p ++ [py "Z"]), true), r))
  ∧ (∀ (g : t) (stem p : list _) (prons : list (list pystr)) (r : rng),
        let word := stem ++ py "s" in
        stem ≠ [] →
        phoneme_probability g = None →
        (∀ hs, heteronyms g = Some hs → word ∉ hs) →
        (∀ stem2 prons2,
            stem = stem2 ++ py "'" → stem2 ≠ [] →
            dict_get (phoneme_dict g) stem2 = Some prons2 →
            ignore_ambiguous_words g = true ∧ length prons2 ≠ 1) →
        dict_get (phoneme_dict g) word = None →
        dict_get (phoneme_dict g) stem = Some (p :: prons) →
        ignore_ambiguous_words g = false ∨ prons = [] →
        parse_one_word g word r = (Ok (PList (p ++ [py "Z"]), true), r)).
Proof.
  split.
  - intros g stem p prons r word Hne Hp Hh Hw Hs Ha.
    rewrite (english_no_probability _ _ _ Hp). subst word.
    by rewrite (english_apostrophe_s g stem p prons).
  - intros g stem p prons r word Hne Hp Hh Hskip Hw Hs Ha.
    rewrite (english_no_probability _ _ _ Hp). subst word.
    by rewrite (english_s g stem p prons).
Qed.
End english_suffix_claims.

(** ** The en-US suffix rules of [IPAG2P] *)

Section ipa_suffix_claims.
Context `{StrOps, DataUtils}.
Import IPAG2P.

Lemma ipa_word_found_absent g word stem wf :
  dict_get (phoneme_dict g) word = None →
  dict_get (phoneme_dict g) (upper word) = None →
  (dict_mem (phoneme_dict g) stem = true ∧ wf = stem)
  ∨ (dict_mem (phoneme_dict g) stem = false
     ∧ dict_mem (phoneme_dict g) (upper stem) = true ∧ wf = upper stem) →
  word_found g word stem = Some wf.
Proof.
  intros Hw Hu Hwf. unfold word_found.
  rewrite (dict_mem_None _ _ Hw), (dict_mem_None _ _ Hu). simpl.
  by destruct Hwf as [[-> ->] | (-> & -> & ->)].
Qed.

Lemma claimed_inflection_apostrophe c p :
  (if bool_decide (c ∈ [84%N; 116%N])
   then Ok (Some (PList (p ++ [py "s"]), true))
   else if bool_decide (c ∈ [83%N; 115%N])
        then Ok (Some (PList (p ++ [[618%N]; py "z"]), true))
        else Ok (Some (PList (p ++ [py "z"]), true)))
  = Ok (Some (PList (p ++ claimed_inflection true c), true)).
Proof.
  unfold claimed_inflection.
  rewrite (bool_decide_ext (c ∈ [84%N; 116%N]) (c = 116%N ∨ c = 84%N))
    by (rewrite !elem_of_cons, elem_of_nil; tauto).
  rewrite ?(bool_decide_ext (c ∈ [83%N; 115%N]) (c = 115%N ∨ c = 83%N))
    by (rewrite !elem_of_cons, elem_of_nil; tauto).
  by repeat case_bool_decide.
Qed.

Lemma claimed_inflection_bare c p :
  (if bool_decide (c ∈ [84%N; 116%N])
   then Ok (Some (PList (p ++ [py "s"]), true))
   else Ok (Some (PList (p ++ [py "z"]), true)))
  = Ok (Some (PList (p ++ claimed_inflection false c), true)).
Proof.
  unfold claimed_inflection.
  rewrite (bool_decide_ext (c ∈ [84%N; 116%N]) (c = 116%N ∨ c = 84%N))
    by (rewrite !elem_of_cons, elem_of_nil; tauto).
  rewrite ?(bool_decide_ext (c ∈ [83%N; 115%N]) (c = 115%N ∨ c = 83%N))
    by (rewrite !elem_of_cons, elem_of_nil; tauto).
  by repeat case_bool_decide.
Qed.

Lemma ipa_apostrophe_s g w stem wf p prons c :
  w = stem ++ py "'s" ∨ w = stem ++ py "'S" →
  stem ≠ [] →
  dict_get (phoneme_dict g) w = None →
  dict_get (phoneme_dict g) (upper w) = None →
  (dict_mem (phoneme_dict g) stem = true ∧ wf = stem)
  ∨ (dict_mem (phoneme_dict g) stem = false
     ∧ dict_mem (phoneme_dict g) (upper stem) = true ∧ wf = upper stem) →
  dict_get (phoneme_dict g) wf = Some (p :: prons) →
  ignore_ambiguous_words g = false ∨ prons = [] →
  last wf = Some c →
  apostrophe_s_rule g w = Ok (Some (PList (p ++ claimed_inflection true c), true)).
Proof.
  intros Hw Hne Hd Hu Hwf Hp Ha Hc. unfold apostrophe_s_rule.
  assert (drop_last 2 w = stem) as ->.
  { destruct Hw as [-> | ->];
      [apply (drop_last_app stem (py "'s")) | apply (drop_last_app stem (py "'S"))]. }
  assert (endswith w (py "'s") || endswith w (py "'S") = true) as ->.
  { destruct Hw as [-> | ->]; rewrite endswith_app; [done | apply orb_true_r]. }
  rewrite bool_decide_eq_true_2.
  2:{ destruct Hw as [-> | ->]; rewrite length_app; simpl;
      (destruct stem; [done | simpl; lia]). }
  simpl. rewrite (ipa_word_found_absent _ _ _ _ Hd Hu Hwf).
  rewrite (ipa_ambiguity_ok _ _ _ Hp).
  assert (negb (ignore_ambiguous_words g)
          || bool_decide (length (p :: prons) = 1) = true) as ->.
  { destruct Ha as [-> | ->]; [done | apply orb_true_r]. }
  simpl. unfold last_char. rewrite Hc. simpl.
  rewrite (ipa_first_pron _ _ _ _ Hp). simpl.
  apply claimed_inflection_apostrophe.
Qed.

(** A word with no apostrophe before its last letter is none of the
    ['s] rule's. *)
Lemma ipa_apostrophe_s_bare g w stem (c : N) :
  w = stem ++ [c] → last stem ≠ Some 39%N → apostrophe_s_rule g w = Ok None.
Proof.
  intros Hw Hbare. unfold apostrophe_s_rule.
  assert (∀ s : N, endswith w [39%N; s] = false) as Hend.
  { intros s. destruct (endswith w [39%N; s]) eqn:He; [|done].
    apply endswith_inv in He. simpl in He. exfalso. apply Hbare.
    rewrite Hw in He at 1.
    change [39%N; s] with ([39%N] ++ [s]) in He. rewrite app_assoc in He.
    apply app_inj_tail in He as [-> _]. by rewrite last_snoc. }
  change (py "'s") with [39%N; 115%N]. change (py "'S") with [39%N; 83%N].
  rewrite !Hend. by rewrite andb_false_r.
Qed.

Lemma ipa_s g w stem (s : N) wf p prons c :
  w = stem ++ [s] → s = 115%N ∨ s = 83%N →
  stem ≠ [] →
  dict_get (phoneme_dict g) w = None →
  dict_get (phoneme_dict g) (upper w) = None →
  (dict_mem (phoneme_dict g) stem = true ∧ wf = stem)
  ∨ (dict_mem (phoneme_dict g) stem = false
     ∧ dict_mem (phoneme_dict g) (upper stem) = true ∧ wf = upper stem) →
  dict_get (phoneme_dict g) wf = Some (p :: prons) →
  ignore_ambiguous_words g = false ∨ prons = [] →
  last wf = Some c →
  s_rule g w = Ok (Some (PList (p ++ claimed_inflection false c), true)).
Proof.
  intros Hw Hs Hne Hd Hu Hwf Hp Ha Hc. unfold s_rule.
  assert (drop_last 1 w = stem) as ->.
  { rewrite Hw. apply (drop_last_app stem [s]). }
  assert (endswith w (py "s") || endswith w (py "S") = true) as ->.
  { rewrite Hw. destruct Hs as [-> | ->].
    - change (py "s") with [115%N]. by rewrite endswith_app.
    - change (py "S") with [83%N]. rewrite endswith_app. apply orb_true_r. }
  rewrite bool_decide_eq_true_2.
  2:{ rewrite Hw, length_app. simpl. destruct stem; [done | simpl; lia]. }
  simpl. rewrite (ipa_word_found_absent _ _ _ _ Hd Hu Hwf).
  rewrite (ipa_ambiguity_ok _ _ _ Hp).
  assert (negb (ignore_ambiguous_words g)
          || bool_decide (length (p :: prons) = 1) = true) as ->.
  { destruct Ha as [-> | ->]; [done | apply orb_true_r]. }
  simpl. unfold last_char. rewrite Hc. simpl.
  rewrite (ipa_first_pron _ _ _ _ Hp). simpl.
  apply claimed_inflection_bare.
Qed.

(** C4, as the code has it. With locale en-US, no phoneme probability,
    and the word, in the configured case, having a grapheme and not being
    a heteronym: if it is [stem ++ "'s"] or [stem ++ "'S"] with [stem]
    not empty, absent from the dictionary as it is and in upper case,
    and the stem found ([stem] itself if it is a key, else its upper-case
    form) has a first pronunciation and passes the ambiguity check, the
    result is that pronunciation extended as said, with status [True];
    the same holds for a word in bare [s] or [S], with no apostrophe
    before it, where there is no ["ɪ", "z"] case. *)
Theorem C4_ipa_suffix_rules :
  (∀ (g : t) (word stem wf : pystr) (p : list pystr) (prons : list (list pystr))
     (c : N) (r : rng),
      let w := set_grapheme_case word (grapheme_case g) in
      locale g = Some (py "en-US") →
      phoneme_probability g = None →
      existsb CHAR_REGEX w = true →
      (∀ hs, heteronyms g = Some hs → w ∉ hs) →
      w = stem ++ py "'s" ∨ w = stem ++ py "'S" →
      stem ≠ [] →
      dict_get (phoneme_dict g) w = None →
      dict_get (phoneme_dict g) (upper w) = None →
      (dict_mem (phoneme_dict g) stem = true ∧ wf = stem)
      ∨ (dict_mem (phoneme_dict g) stem = false
         ∧ dict_mem (phoneme_dict g) (upper stem) = true ∧ wf = upper stem) →
      dict_get (phoneme_dict g) wf = Some (p :: prons) →
      ignore_ambiguous_words g = false ∨ prons = [] →
      last wf = Some c →
      parse_one_word g word r
      = (Ok (PList (p ++ claimed_inflection true c), true), r))
  ∧ (∀ (g : t) (word stem wf : pystr) (s : N) (p : list pystr)
       (prons : list (list pystr)) (c : N) (r : rng),
        let w := set_grapheme_case word (grapheme_case g) in
        locale g = Some (py "en-US") →
        phoneme_probability g = None →
        existsb CHAR_REGEX w = true →
        (∀ hs, heteronyms g = Some hs → w ∉ hs) →
        w = stem ++ [s] → s = 115%N ∨ s = 83%N →
        stem ≠ [] → last stem ≠ Some 39%N →
        dict_get (phoneme_dict g) w = None →
        dict_get (phoneme_dict g) (upper w) = None →
        (dict_mem (phoneme_dict g) stem = true ∧ wf = stem)
        ∨ (dict_mem (phoneme_dict g) stem = false
           ∧ dict_mem (phoneme_dict g) (upper stem) = true ∧ wf = upper stem) →
        dict_get (phoneme_dict g) wf = Some (p :: prons) →
        ignore_ambiguous_words g = false ∨ prons = [] →
        last wf = Some c →
        parse_one_word g word r
        = (Ok (PList (p ++ claimed_inflection false c), true), r)).
Proof.
  split.
  - intros g word stem wf p prons c r w Hl Hp Hc Hh Hw Hne Hd Hu Hwf Hpr Ha Hlast.
    rewrite (ipa_reaches_lookup _ _ _ Hp Hc Hh). fold w.
    unfold lookup_rules. rewrite Hl, bool_decide_eq_true_2 by done.
    by rewrite (ipa_apostrophe_s g w stem wf p prons c).
  - intros g word stem wf s p prons c r w Hl Hp Hc Hh Hw Hs Hne Hbare Hd Hu Hwf
           Hpr Ha Hlast.
    rewrite (ipa_reaches_lookup _ _ _ Hp Hc Hh). fold w.
    unfold lookup_rules. rewrite Hl, bool_decide_eq_true_2 by done.
    rewrite (ipa_apostrophe_s_bare g w stem s Hw Hbare). simpl.
    by rewrite (ipa_s g w stem s wf p prons c).
Qed.
End ipa_suffix_claims.

(** ** Hyphenated words *)

Lemma split_on_nonempty sep w : split_on sep w ≠ [].
Proof.
  destruct w as [|c w]; simpl; [done|].
  case_bool_decide; [done|]. by destruct (split_on sep w).
Qed.


Lemma parse_each_length parse subs r ps r' :
  parse_each parse subs r = (Ok ps, r') → length ps = length subs.
Proof.
  revert r ps r'. induction subs as [|s subs IH]; intros r ps r'; simpl.
  - by intros [= <- _].
  - destruct (parse s r) as [[[p b]|e] r1]; [|by intros [=]].
    destruct (parse_each parse subs r1) as [[ps'|e] r2] eqn:E; [|by intros [=]].
    intros [= <- _]. simpl. f_equal. by eapply IH.
Qed.

Lemma parse_each_rng_free parse subs :
  (∀ s, rng_free (parse s)) → rng_free (parse_each parse subs).
Proof.
  intros Hparse. induction subs as [|s subs IH]; intros r r'; simpl; [done|].
  rewrite (Hparse s r r').
  pose proof (Hparse s r' r') as Hr'.
  destruct (parse s r') as [res r1]. simpl in *. injection Hr' as ->.
  destruct res as [[p b]|e]; [|done].
  rewrite (IH r r'). by destruct (parse_each parse subs r') as [[ps|e] r2].
Qed.

(** What the loop leaves once its last ["-"] is popped. *)
Lemma removelast_hyphens (ps : list (list pystr)) :
  ps ≠ [] →
  removelast (concat (map (λ p, p ++ [py "-"]) ps)) = join_hyphen ps.
Proof.
  induction ps as [|p ps IH]; [done|]. intros _.
  destruct ps as [|q ps].
  - simpl. rewrite app_nil_r. apply removelast_last.
  - change (concat (map (λ p, p ++ [py "-"]) (p :: q :: ps)))
      with ((p ++ [py "-"]) ++ concat (map (λ p, p ++ [py "-"]) (q :: ps))).
    rewrite removelast_app.
    + rewrite IH by done. by rewrite <- app_assoc.
    + simpl. by destruct q.
Qed.

Lemma hyphens_nonempty (ps : list (list pystr)) :
  ps ≠ [] → concat (map (λ p, p ++ [py "-"]) ps) ≠ [].
Proof. destruct ps as [|p ps]; [done|]. intros _. simpl. by destruct p. Qed.

(** The sub-word loop of either class, from an empty list: every parse in
    turn, the results and hyphens appended. *)
Ltac hyphen_loop_parse_each :=
  let subs := fresh "subs" in
  let IH := fresh "IH" in
  intros ? subs; induction subs as [|? subs IH]; intros acc r; simpl;
  [ by rewrite app_nil_r
  | destruct (_ : result (pron * bool) * rng) as [[[p b]|e] r1]; [|done];
    rewrite IH;
    destruct (parse_each _ subs r1) as [[ps|e] r2]; [|done];
    simpl; by rewrite <- !app_assoc ].

Section hyphen_claims.
Context `{StrOps, DataUtils}.

Lemma english_hyphen_loop g subs acc r :
  EnglishG2p.hyphen_loop g subs acc r
  = match parse_each (EnglishG2p.parse_one_word g) subs r with
    | (Ok ps, r') =>
        (Ok (acc ++ concat (map (λ p, p ++ [py "-"]) (map extend ps))), r')
    | (Raise e, r') => (Raise e, r')
    end.
Proof. revert g subs acc r. hyphen_loop_parse_each. Qed.

Lemma ipa_hyphen_loop g subs acc r :
  IPAG2P.hyphen_loop g subs acc r
  = match parse_each (IPAG2P.parse_one_word g) subs r with
    | (Ok ps, r') =>
        (Ok (acc ++ concat (map (λ p, p ++ [py "-"]) (map extend ps))), r')
    | (Raise e, r') => (Raise e, r')
    end.
Proof. revert g subs acc r. hyphen_loop_parse_each. Qed.

Lemma english_hyphen_fallback g subs r :
  1 < length subs →
  match EnglishG2p.hyphen_loop g subs [] r with
  | (Ok pron', r'') => (EnglishG2p.pop pron', r'')
  | (Raise e, r'') => (Raise e, r'')
  end
  = match parse_each (EnglishG2p.parse_one_word g) subs r with
    | (Ok ps, r'') => (Ok (join_hyphen (map extend ps)), r'')
    | (Raise e, r'') => (Raise e, r'')
    end.
Proof.
  intros Hlen. rewrite english_hyphen_loop.
  destruct (parse_each _ subs r) as [[ps|e] r2] eqn:E; [|done].
  apply parse_each_length in E.
  assert (map extend ps ≠ []) as Hne by (destruct ps; simpl in *; [lia | done]).
  simpl. unfold EnglishG2p.pop.
  pose proof (hyphens_nonempty _ Hne).
  rewrite (removelast_hyphens _ Hne).
  by destruct (concat _).
Qed.

Lemma ipa_hyphen_fallback g subs r :
  1 < length subs →
  match IPAG2P.hyphen_loop g subs [] r with
  | (Ok pron', r'') => (IPAG2P.pop pron', r'')
  | (Raise e, r'') => (Raise e, r'')
  end
  = match parse_each (IPAG2P.parse_one_word g) subs r with
    | (Ok ps, r'') => (Ok (join_hyphen (map extend ps)), r'')
    | (Raise e, r'') => (Raise e, r'')
    end.
Proof.
  intros Hlen. rewrite ipa_hyphen_loop.
  destruct (parse_each _ subs r) as [[ps|e] r2] eqn:E; [|done].
  apply parse_each_length in E.
  assert (map extend ps ≠ []) as Hne by (destruct ps; simpl in *; [lia | done]).
  simpl. unfold IPAG2P.pop.
  pose proof (hyphens_nonempty _ Hne).
  rewrite (removelast_hyphens _ Hne).
  by destruct (concat _).
Qed.

End hyphen_claims.

(** ** Dependence on the random generator *)

Section determinism_claims.
Context `{StrOps, DataUtils}.

Lemma english_parse_rng_free g :
  EnglishG2p.phoneme_probability g = None →
  ∀ word, rng_free (EnglishG2p.parse_one_word g word).
Proof. intros Hp word r r'. by rewrite !(english_no_probability _ _ _ Hp). Qed.

Lemma ipa_parse_rng_free g :
  IPAG2P.phoneme_probability g = None →
  ∀ word, rng_free (IPAG2P.parse_one_word g word).
Proof.
  intros Hp word r r'. unfold IPAG2P.parse_one_word. rewrite Hp.
  repeat case_match; by simplify_eq.
Qed.

Lemma english_call_word_rng_free g word :
  EnglishG2p.phoneme_probability g = None →
  rng_free (EnglishG2p.call_word g word).
Proof.
  intros Hp r r'. unfold EnglishG2p.call_word.
  destruct word as [|word_str rest]; [done|].
  rewrite (english_parse_rng_free g Hp word_str r r').
  pose proof (english_parse_rng_free g Hp word_str r' r') as Hr'.
  destruct (EnglishG2p.parse_one_word g word_str r') as [res r1].
  simpl in *. injection Hr' as ->.
  destruct res as [[pron is_handled]|e]; [|done].
  case_match; [|done].
  rewrite !english_hyphen_loop.
  rewrite (parse_each_rng_free _ _ (english_parse_rng_free g Hp) r r').
  by destruct (parse_each _ _ r') as [[ps|e] r2].
Qed.

Lemma ipa_call_word_rng_free g words :
  IPAG2P.phoneme_probability g = None →
  rng_free (IPAG2P.call_word g words).
Proof.
  intros Hp r r'. unfold IPAG2P.call_word.
  destruct words as [|word [|? ?]]; [done | | done].
  rewrite (ipa_parse_rng_free g Hp word r r').
  pose proof (ipa_parse_rng_free g Hp word r' r') as Hr'.
  destruct (IPAG2P.parse_one_word g word r') as [res r1].
  simpl in *. injection Hr' as ->.
  destruct res as [[pron is_handled]|e]; [|done].
  case_match; [|done].
  rewrite !ipa_hyphen_loop.
  rewrite (parse_each_rng_free _ _ (ipa_parse_rng_free g Hp) r r').
  by destruct (parse_each _ _ r') as [[ps|e] r2].
Qed.

Lemma english_call_loop_rng_free g words prons :
  EnglishG2p.phoneme_probability g = None →
  rng_free (EnglishG2p.call_loop g words prons).
Proof.
  intros Hp. revert prons.
  induction words as [|[word without_changes] words IH]; intros prons r r';
    simpl; [done|].
  destruct without_changes; [apply IH|].
  rewrite (english_call_word_rng_free g word Hp r r').
  pose proof (english_call_word_rng_free g word Hp r' r') as Hr'.
  destruct (EnglishG2p.call_word g word r') as [res r1].
  simpl in *. injection Hr' as ->.
  destruct res as [pron|e]; [apply IH | done].
Qed.

Lemma ipa_call_loop_rng_free g words prons :
  IPAG2P.phoneme_probability g = None →
  rng_free (IPAG2P.call_loop g words prons).
Proof.
  intros Hp. revert prons.
  induction words as [|[word without_changes] words IH]; intros prons r r';
    simpl; [done|].
  destruct without_changes; [apply IH|].
  rewrite (ipa_call_word_rng_free g word Hp r r').
  pose proof (ipa_call_word_rng_free g word Hp r' r') as Hr'.
  destruct (IPAG2P.call_word g word r') as [res r1].
  simpl in *. injection Hr' as ->.
  destruct res as [pron|e]; [apply IH | done].
Qed.

(** C2, as the code has it. With no phoneme probability, [__call__] of
    either class never draws: on the same text it returns the same
    result whatever the state of the generator, and leaves the generator
    as it found it, so that any two calls on a text agree. (With a
    phoneme probability each word is kept as graphemes or not by a draw,
    and two calls may differ.) *)
Theorem C2_deterministic_without_probability :
  (∀ (g : EnglishG2p.t) (text : pystr) (r1 r2 : rng),
      EnglishG2p.phoneme_probability g = None →
      (EnglishG2p.call g text r1).1 = (EnglishG2p.call g text r2).1
      ∧ (EnglishG2p.call g text r1).2 = r1)
  ∧ (∀ (g : IPAG2P.t) (text : pystr) (r1 r2 : rng),
        IPAG2P.phoneme_probability g = None →
        (IPAG2P.call g text r1).1 = (IPAG2P.call g text r2).1
        ∧ (IPAG2P.call g text r1).2 = r1).
Proof.
  split.
  - intros g text r1 r2 Hp. unfold EnglishG2p.call.
    by rewrite (english_call_loop_rng_free g _ [] Hp r1 r2).
  - intros g text r1 r2 Hp. unfold IPAG2P.call.
    by rewrite (ipa_call_loop_rng_free g _ [] Hp r1 r2).
Qed.
End determinism_claims.

(** ** Construction and normalization of the [IPAG2P] dictionary *)

Lemma foldl_invariant {A B} (P : A → Prop) (f : A → B → A) (l : list B) (a : A) :
  P a → (∀ a x, x ∈ l → P a → P (f a x)) → P (foldl f a l).
Proof.
  revert a. induction l as [|x l IH]; intros a Ha Hstep; simpl; [done|].
  apply IH.
  - apply Hstep; [apply elem_of_cons; by left | done].
  - intros a' y Hy. apply Hstep. apply elem_of_cons. by right.
Qed.

Lemma foldl_union_elem (prons : list (list pystr)) (syms : gset pystr) s :
  s ∈ foldl (λ symbols pron, symbols ∪ list_to_set pron) syms prons
  ↔ s ∈ syms ∨ ∃ pron, pron ∈ prons ∧ s ∈ pron.
Proof.
  revert syms. induction prons as [|pron prons IH]; intros syms; simpl.
  - split; [by left | intros [?|(? & Hin & _)]; [done | by apply elem_of_nil in Hin]].
  - rewrite IH, elem_of_union, elem_of_list_to_set. split.
    + intros [[?|?]|(pron' & ? & ?)]; [by left | right | right].
      * exists pron. split; [apply elem_of_cons; by left | done].
      * exists pron'. split; [apply elem_of_cons; by right | done].
    + intros [?|(pron' & Hin & ?)]; [by left; left|].
      apply elem_of_cons in Hin as [-> | Hin]; [by left; right|].
      right. by exists pron'.
Qed.

Lemma stress_free_filter (pron : list pystr) :
  stress_free (filter (λ symbol, symbol ∉ IPAG2P.STRESS_SYMBOLS) pron).
Proof. intros s Hs Hin. apply list_elem_of_filter in Hin as [Hn _]. by apply Hn. Qed.

Lemma stress_free_app (p q : list pystr) :
  stress_free p → stress_free q → stress_free (p ++ q).
Proof.
  intros Hp Hq s Hs Hin. apply elem_of_app in Hin as [Hin|Hin];
    [by apply (Hp s) | by apply (Hq s)].
Qed.

Section ipa_dict.
Context `{StrOps, DataUtils}.
Import IPAG2P.

(** The parsed dictionary holds the entries of the argument, words and
    symbols in NFC form and nothing else changed. *)
Lemma parse_phoneme_dict_entries (d : phoneme_dict_t) k prons :
  dict_get (_parse_phoneme_dict d) k = Some prons →
  ∃ word prons0, (word, prons0) ∈ d
                 ∧ k = normalize_unicode_text word
                 ∧ prons = map (map normalize_unicode_text) prons0.
Proof.
  unfold _parse_phoneme_dict. revert k prons.
  apply (foldl_invariant
           (λ acc, ∀ k prons, dict_get acc k = Some prons →
              ∃ word prons0, (word, prons0) ∈ d
                             ∧ k = normalize_unicode_text word
                             ∧ prons = map (map normalize_unicode_text) prons0)).
  - intros k prons Hk. done.
  - intros acc [word prons0] Hin IH k prons. rewrite dict_get_set.
    case_bool_decide as Hk; [|apply IH].
    intros [= <-]. by exists word, prons0.
Qed.

Lemma parse_phoneme_dict_empty (d : phoneme_dict_t) :
  _parse_phoneme_dict d = [] ↔ d = [].
Proof.
  split; [|by intros ->].
  destruct d as [|[word prons] d]; [done|]. intros Hd. exfalso. revert Hd.
  unfold _parse_phoneme_dict. simpl.
  apply (foldl_invariant (λ acc : phoneme_dict_t, acc ≠ [])); [done|].
  intros acc [w p] _ _. apply dict_set_nonempty.
Qed.

(** What is stored for the pronunciations [prons] of an entry. *)
Lemma normalize_dict_entries case use_chars use_stresses prefix
      (d : phoneme_dict_t) k prons :
  dict_get (normalized case use_chars use_stresses prefix d).1 k = Some prons →
  ∃ word prons0,
    (word, prons0) ∈ d
    ∧ prons = (if negb use_stresses
               then map (λ pron, filter (λ symbol, symbol ∉ STRESS_SYMBOLS) pron) prons0
               else prons0)
    ∧ (k = set_grapheme_case word case
       ∨ (case = Some GRAPHEME_CASE_MIXED
          ∧ k = upper (set_grapheme_case word case))).
Proof.
  unfold normalized. revert k prons.
  apply (foldl_invariant
           (λ acc : phoneme_dict_t * gset pystr,
              ∀ k prons, dict_get acc.1 k = Some prons →
                ∃ word prons0,
                  (word, prons0) ∈ d
                  ∧ prons = (if negb use_stresses
                             then map (λ pron, filter (λ symbol, symbol ∉ STRESS_SYMBOLS)
                                                      pron) prons0
                             else prons0)
                  ∧ (k = set_grapheme_case word case
                     ∨ (case = Some GRAPHEME_CASE_MIXED
                        ∧ k = upper (set_grapheme_case word case))))).
  - intros k prons Hk. done.
  - intros [g2p_dict syms] [word prons0] Hin IH k prons. unfold normalize_entry.
    simpl in IH.
    destruct (bool_decide (case = Some GRAPHEME_CASE_MIXED)
              && negb (isupper (set_grapheme_case word case))) eqn:Hmixed;
      simpl; rewrite ?dict_get_set.
    + apply andb_true_iff in Hmixed as [Hcase _].
      apply bool_decide_eq_true in Hcase.
      repeat case_bool_decide;
        try (intros [= Hprons]; subst prons; exists word, prons0; by eauto).
      apply IH.
    + clear Hmixed. case_bool_decide; [|apply IH].
      intros [= Hprons]. subst prons. exists word, prons0. by eauto.
Qed.

(** With the stress symbols outside the class of graphemes, no symbol
    collected from a dictionary stripped of its stresses is one. *)
Lemma normalize_dict_symbols case use_chars prefix (d : phoneme_dict_t) :
  (∀ c, [c] ∈ STRESS_SYMBOLS → CHAR_REGEX c = false) →
  ∀ s, s ∈ STRESS_SYMBOLS → s ∉ (normalized case use_chars false prefix d).2.
Proof.
  intros Hstress. unfold normalized.
  apply (foldl_invariant
           (λ acc : phoneme_dict_t * gset pystr,
              ∀ s, s ∈ STRESS_SYMBOLS → s ∉ acc.2)).
  - intros s _. apply not_elem_of_empty.
  - intros [g2p_dict syms] [word prons0] Hin IH s Hs. unfold normalize_entry.
    simpl in IH.
    assert (s ∉ (if use_chars
                 then syms ∪ list_to_set
                             (_prepend_prefix_for_one_word
                                prefix
                                (filter (λ c, PUNCT_REGEX c = false)
                                        (set_grapheme_case word case)))
                 else syms)) as Hgraph.
    { destruct use_chars; [|by apply IH].
      rewrite elem_of_union, elem_of_list_to_set. intros [Hin'|Hin'].
      - by apply (IH s).
      - unfold _prepend_prefix_for_one_word in Hin'.
        apply list_elem_of_fmap in Hin' as (c & -> & Hc).
        apply list_elem_of_filter in Hc as [Hc _].
        unfold PUNCT_REGEX in Hc. apply negb_false_iff in Hc.
        assert (prefix = []) as ->.
        { unfold STRESS_SYMBOLS in Hs.
          rewrite !elem_of_cons, elem_of_nil in Hs.
          destruct prefix as [|a [|b prefix]]; [done | |];
            by destruct Hs as [Hs|[Hs|[]]]. }
        simpl in Hs. by rewrite (Hstress c Hs) in Hc. }
    set (syms' := if use_chars then _ else _) in *.
    destruct (bool_decide (case = Some GRAPHEME_CASE_MIXED)
              && negb (isupper (set_grapheme_case word case)));
      simpl; rewrite foldl_union_elem;
      intros [?|(pron & Hp & Hsp)]; try done;
      apply list_elem_of_fmap in Hp as (pron0 & -> & _);
      by apply (stress_free_filter pron0 s).
Qed.

(** What [__init__] leaves in the object when it returns. *)
Lemma init_attributes phoneme_dict locale oov ignore hets use_chars prob
      use_stresses case prefix mapping g :
  init phoneme_dict locale oov ignore hets use_chars prob use_stresses case
       prefix mapping = Ok g →
  let use_chars' :=
    if negb use_chars && bool_decide (is_Some prob) then true else use_chars in
  (IPAG2P.phoneme_dict g, symbols g)
  = normalized case use_chars' use_stresses prefix
                    (_parse_phoneme_dict phoneme_dict)
  ∧ apply_to_oov_word g = oov
  ∧ phoneme_probability g = prob
  ∧ grapheme_case g = case
  ∧ grapheme_prefix g = prefix.
Proof.
  intros Hg. apply init_record in Hg as (_ & _ & ->). simpl.
  by destruct (normalized _ _ _ _ _).
Qed.
End ipa_dict.

(** ** Dictionary lookup and ambiguity *)

Section lookup_claims.
Context `{StrOps, DataUtils}.

(** The keys of a dictionary the constructor has built are in the
    configured case: [parse_one_word] looks them up as they are. *)
Lemma init_keys_in_case phoneme_dict locale oov ignore hets use_chars prob
      use_stresses case prefix mapping g word prons :
  IPAG2P.init phoneme_dict locale oov ignore hets use_chars prob use_stresses case
              prefix mapping = Ok g →
  (∀ word0 prons0,
      (word0, prons0) ∈ IPAG2P._parse_phoneme_dict phoneme_dict →
      set_grapheme_case (set_grapheme_case word0 case) case
      = set_grapheme_case word0 case) →
  (case = Some GRAPHEME_CASE_MIXED → ∀ w, set_grapheme_case w case = w) →
  dict_get (IPAG2P.phoneme_dict g) word = Some prons →
  set_grapheme_case word (IPAG2P.grapheme_case g) = word.
Proof.
  intros Hg Hidem Hmixed Hk.
  destruct (init_attributes _ _ _ _ _ _ _ _ _ _ _ _ Hg) as (Hn & _ & _ & -> & _).
  assert (IPAG2P.phoneme_dict g
          = (normalized
               case (if negb use_chars && bool_decide (is_Some prob) then true
                     else use_chars)
               use_stresses prefix (IPAG2P._parse_phoneme_dict phoneme_dict)).1) as Hd
      by by rewrite <- Hn.
  rewrite Hd in Hk.
  apply normalize_dict_entries in Hk as (word0 & prons0 & Hin & _ & Hkey).
  destruct Hkey as [-> | [Hcase ->]]; [by eapply Hidem | by apply Hmixed].
Qed.

(** C1, as the code has it. A word that is a key of the dictionary, for
    [IPAG2P] a word whose form in the configured case is a key, that has a
    letter or digit, is not a heteronym, with no phoneme probability:
    with exactly one pronunciation, [parse_one_word] returns it with
    status [True]; with more than one, ambiguous words ignored and no OOV
    function, the word is not phonemized and the status is [False]
    ([EnglishG2p] returns the word, [IPAG2P] the characters of the word in
    the configured case, each behind the grapheme prefix). No suffix rule
    can apply to a key, in either class and for every locale. The last
    part shows that a key of a dictionary the constructor has built is in
    the configured case already, the case conversion being idempotent on
    the words given and the identity for mixed case; [replace_dict] gives
    no such guarantee. *)
Theorem C1_dictionary_lookup :
  (∀ (g : EnglishG2p.t) (word : pystr) (prons : list (list pystr)) (r : rng),
      dict_get (EnglishG2p.phoneme_dict g) word = Some prons →
      existsb EnglishG2p.WORD_CHAR word = true →
      (∀ hs, EnglishG2p.heteronyms g = Some hs → word ∉ hs) →
      EnglishG2p.phoneme_probability g = None →
      (∀ p, prons = [p] →
            EnglishG2p.parse_one_word g word r = (Ok (PList p, true), r))
      ∧ (1 < length prons →
         EnglishG2p.ignore_ambiguous_words g = true →
         EnglishG2p.apply_to_oov_word g = None →
         EnglishG2p.parse_one_word g word r = (Ok (PStr word, false), r)))
  ∧ (∀ (g : IPAG2P.t) (word : pystr) (prons : list (list pystr)) (r : rng),
        let w := set_grapheme_case word (IPAG2P.grapheme_case g) in
        dict_get (IPAG2P.phoneme_dict g) w = Some prons →
        existsb IPAG2P.CHAR_REGEX w = true →
        (∀ hs, IPAG2P.heteronyms g = Some hs → w ∉ hs) →
        IPAG2P.phoneme_probability g = None →
        (∀ p, prons = [p] →
              IPAG2P.parse_one_word g word r = (Ok (PList p, true), r))
        ∧ (1 < length prons →
           IPAG2P.ignore_ambiguous_words g = true →
           IPAG2P.apply_to_oov_word g = None →
           IPAG2P.parse_one_word g word r
           = (Ok (PList (map (λ c, IPAG2P.grapheme_prefix g ++ [c]) w), false), r)))
  ∧ (∀ phoneme_dict locale oov ignore hets use_chars prob use_stresses case prefix
       mapping (g : IPAG2P.t) (word : pystr) (prons : list (list pystr)),
        IPAG2P.init phoneme_dict locale oov ignore hets use_chars prob use_stresses
                    case prefix mapping = Ok g →
        (∀ word0 prons0,
            (word0, prons0) ∈ IPAG2P._parse_phoneme_dict phoneme_dict →
            set_grapheme_case (set_grapheme_case word0 case) case
            = set_grapheme_case word0 case) →
        (case = Some GRAPHEME_CASE_MIXED → ∀ w, set_grapheme_case w case = w) →
        dict_get (IPAG2P.phoneme_dict g) word = Some prons →
        set_grapheme_case word (IPAG2P.grapheme_case g) = word).
Proof.
  split; [|split; [|intros; by eapply init_keys_in_case]].
  - intros g word prons r Hd Hc Hh Hp.
    rewrite (english_no_probability _ _ _ Hp), (english_known_word _ _ _ Hd Hc Hh).
    split.
    + intros p ->. rewrite orb_true_r.
      by rewrite (english_first_pron _ _ _ _ Hd).
    + intros Hlen -> ->. simpl.
      rewrite bool_decide_eq_false_2; [done | lia].
  - intros g word prons r w Hd Hc Hh Hp.
    rewrite (ipa_reaches_lookup _ _ _ Hp Hc Hh). fold w.
    rewrite (ipa_known_word _ _ _ Hd).
    split.
    + intros p ->. rewrite orb_true_r.
      by rewrite (ipa_first_pron _ _ _ _ Hd).
    + intros Hlen -> ->. simpl.
      rewrite bool_decide_eq_false_2; [done | lia].
Qed.
End lookup_claims.

(** ** Stress symbols *)

Ltac stress_free_literal :=
  let s := fresh "s" in
  let Hs := fresh "Hs" in
  let Hin := fresh "Hin" in
  intros s Hs Hin; apply list_elem_of_In in Hs; apply list_elem_of_In in Hin;
  simpl in Hs, Hin; intuition (subst; discriminate).

Section stress_claims.
Context `{StrOps, DataUtils}.
Import IPAG2P.

Lemma apostrophe_s_rule_lookup g w res status :
  apostrophe_s_rule g w = Ok (Some (res, status)) →
  ∃ wf p suf, first_pron g wf = Ok p ∧ res = PList (p ++ suf) ∧ stress_free suf.
Proof.
  unfold apostrophe_s_rule. intros Hr.
  destruct (_ && _); [|done].
  destruct (word_found g w (drop_last 2 w)) as [wf|]; [|done].
  destruct (ambiguity_ok g wf) as [[|]|]; simpl in Hr; [|done|done].
  destruct (last_char wf) as [c|]; simpl in Hr; [|done].
  destruct (first_pron g wf) as [p|] eqn:Hp; simpl in Hr; [|done].
  exists wf, p.
  repeat case_match; simplify_eq; eexists; (split; [done|]);
    (split; [done|]); stress_free_literal.
Qed.

Lemma s_rule_lookup g w res status :
  s_rule g w = Ok (Some (res, status)) →
  ∃ wf p suf, first_pron g wf = Ok p ∧ res = PList (p ++ suf) ∧ stress_free suf.
Proof.
  unfold s_rule. intros Hr.
  destruct (_ && _); [|done].
  destruct (word_found g w (drop_last 1 w)) as [wf|]; [|done].
  destruct (ambiguity_ok g wf) as [[|]|]; simpl in Hr; [|done|done].
  destruct (last_char wf) as [c|]; simpl in Hr; [|done].
  destruct (first_pron g wf) as [p|] eqn:Hp; simpl in Hr; [|done].
  exists wf, p.
  repeat case_match; simplify_eq; eexists; (split; [done|]);
    (split; [done|]); stress_free_literal.
Qed.

(** With no OOV function, a word the lookup rules handle is answered
    from the dictionary: by the first pronunciation of some key, with the
    phonemes of a suffix rule after it or nothing. *)
Lemma lookup_rules_handled g w res :
  apply_to_oov_word g = None →
  lookup_rules g w = Ok (res, true) →
  ∃ wf p suf, first_pron g wf = Ok p ∧ res = PList (p ++ suf) ∧ stress_free suf.
Proof.
  intros Hoov. unfold lookup_rules. rewrite Hoov.
  destruct (if bool_decide (locale g = Some (py "en-US")) then apostrophe_s_rule g w
            else Ok None) as [[[res1 st1]|]|] eqn:H1; simpl; [| |done].
  { intros [= -> ->]. case_bool_decide; [|done].
    by eapply apostrophe_s_rule_lookup. }
  destruct (if bool_decide (locale g = Some (py "en-US")) then s_rule g w
            else Ok None) as [[[res2 st2]|]|] eqn:H2; simpl; [| |done].
  { intros [= -> ->]. case_bool_decide; [|done].
    by eapply s_rule_lookup. }
  destruct (if dict_mem (phoneme_dict g) w then ambiguity_ok g w else Ok false)
    as [[|]|]; simpl; [| |done].
  { destruct (first_pron g w) as [p|] eqn:Hp; simpl; [|done].
    intros [= <-]. exists w, p, []. rewrite app_nil_r.
    repeat split; [done|]. intros s _ Hin. by apply elem_of_nil in Hin. }
  destruct (if _ && _ && _ then ambiguity_ok g (upper w) else Ok false)
    as [[|]|]; simpl; [| |done].
  { destruct (first_pron g (upper w)) as [p|] eqn:Hp; simpl; [|done].
    intros [= <-]. exists (upper w), p, []. rewrite app_nil_r.
    repeat split; [done|]. intros s _ Hin. by apply elem_of_nil in Hin. }
  done.
Qed.

(** C6. Built with [use_stresses = False], the dictionary stores every
    pronunciation of the parsed dictionary with the symbols ["ˈ"] and
    ["ˌ"] filtered out: no stored pronunciation has a stress symbol, none
    is read by the word rules, the set of symbols has none (the stress
    marks being no graphemes, that is, outside the class of
    [CHAR_REGEX]), and with no OOV function a handled word that has a
    grapheme and is not a heteronym gets a result with no stress symbol.
    Built with [use_stresses = True], every stored pronunciation list is
    the list of a parsed entry as given. *)
Theorem C6_stress_normalization :
  ∀ phoneme_dict locale oov ignore hets use_chars prob use_stresses case prefix
    mapping (g : t),
    init phoneme_dict locale oov ignore hets use_chars prob use_stresses case
         prefix mapping = Ok g →
    (use_stresses = false →
     (∀ k prons,
         dict_get (IPAG2P.phoneme_dict g) k = Some prons →
         (∃ word prons0,
             (word, prons0) ∈ _parse_phoneme_dict phoneme_dict
             ∧ prons = map (λ pron, filter (λ symbol, symbol ∉ STRESS_SYMBOLS) pron)
                           prons0)
         ∧ ∀ pron, pron ∈ prons → stress_free pron)
     ∧ (∀ word p, first_pron g word = Ok p → stress_free p)
     ∧ ((∀ c, [c] ∈ STRESS_SYMBOLS → CHAR_REGEX c = false) →
        ∀ s, s ∈ STRESS_SYMBOLS → s ∉ symbols g)
     ∧ (∀ word r res r',
           let w := set_grapheme_case word (grapheme_case g) in
           oov = None → prob = None →
           existsb CHAR_REGEX w = true →
           (∀ hs, heteronyms g = Some hs → w ∉ hs) →
           parse_one_word g word r = (Ok (res, true), r') →
           ∃ pron, res = PList pron ∧ stress_free pron))
    ∧ (use_stresses = true →
       ∀ k prons,
         dict_get (IPAG2P.phoneme_dict g) k = Some prons →
         ∃ word, (word, prons) ∈ _parse_phoneme_dict phoneme_dict
                 ∧ (k = set_grapheme_case word case
                    ∨ (case = Some GRAPHEME_CASE_MIXED
                       ∧ k = upper (set_grapheme_case word case)))).
Proof.
  intros phoneme_dict locale oov ignore hets use_chars prob use_stresses case
         prefix mapping g Hg.
  destruct (init_attributes _ _ _ _ _ _ _ _ _ _ _ _ Hg)
    as (Hn & Hoov & Hprob & Hcase & Hprefix).
  assert (IPAG2P.phoneme_dict g
          = (normalized
               case (if negb use_chars && bool_decide (is_Some prob) then true
                     else use_chars)
               use_stresses prefix (_parse_phoneme_dict phoneme_dict)).1) as Hd
      by by rewrite <- Hn.
  assert (symbols g
          = (normalized
               case (if negb use_chars && bool_decide (is_Some prob) then true
                     else use_chars)
               use_stresses prefix (_parse_phoneme_dict phoneme_dict)).2) as Hs
      by by rewrite <- Hn.
  split.
  - intros ->.
    assert (∀ k prons,
               dict_get (IPAG2P.phoneme_dict g) k = Some prons →
               (∃ word prons0,
                   (word, prons0) ∈ _parse_phoneme_dict phoneme_dict
                   ∧ prons = map (λ pron, filter (λ symbol, symbol ∉ STRESS_SYMBOLS)
                                                 pron) prons0)
               ∧ ∀ pron, pron ∈ prons → stress_free pron) as Hstored.
    { intros k prons Hk. rewrite Hd in Hk.
      apply normalize_dict_entries in Hk as (word & prons0 & Hin & -> & _).
      simpl. split; [by exists word, prons0|].
      intros pron Hp. apply list_elem_of_fmap in Hp as (pron0 & -> & _).
      apply stress_free_filter. }
    assert (∀ word p, first_pron g word = Ok p → stress_free p) as Hfirst.
    { intros word p. unfold first_pron, dict_getitem.
      destruct (dict_get (IPAG2P.phoneme_dict g) word) as [prons|] eqn:Hk;
        simpl; [|done].
      destruct prons as [|p0 prons]; [done|]. intros [= <-].
      apply (proj2 (Hstored _ _ Hk)). apply elem_of_cons. by left. }
    split; [done|]. split; [done|]. split.
    + intros Hstress s Hin. rewrite Hs. by apply normalize_dict_symbols.
    + intros word r res r' w -> -> Hc Hh Hparse.
      rewrite (ipa_reaches_lookup _ _ _ Hprob Hc Hh) in Hparse.
      injection Hparse as Hparse _.
      apply (lookup_rules_handled _ _ _ Hoov) in Hparse
        as (wf & p & suf & Hp & -> & Hsuf).
      exists (p ++ suf). split; [done|].
      apply stress_free_app; [by eapply Hfirst | done].
  - intros -> k prons Hk. rewrite Hd in Hk.
    apply normalize_dict_entries in Hk as (word & prons0 & Hin & -> & Hkey).
    by exists word.
Qed.
End stress_claims.

(** ** Validation of the constructor arguments *)

Section validation_claims.
Context `{StrOps, DataUtils, Pinyin}.

(** C7, as the code has it. With no locale or a locale
    [validate_locale] accepts, and a [phoneme_dict] argument that parses
    (a dictionary object always does): [IPAG2P.__init__] raises
    [ValueError] when the parsed dictionary has no entry, which for an
    object is when the argument has none; on a dictionary that is not
    empty it returns an object exactly when [grapheme_case] is a case
    [set_grapheme_case] supports, and raises what [set_grapheme_case]
    raises for another, so that [ValueError] is also raised on a
    dictionary with entries, and the case of an object it has returned is
    a supported one. [ChineseG2p.__init__] raises
    [AssertionError] when [phoneme_dict] is [None] or [word_segmenter]
    is neither [None] nor ['jieba']. *)
Theorem C7_constructor_validation :
  (∀ pd locale oov ignore hets use_chars prob use_stresses case prefix mapping
     (obj : phoneme_dict_t),
      locale = None ∨ (∃ l, locale = Some l ∧ validate_locale l = Ok ()) →
      match pd with
      | IPAG2P.DictFile lines => IPAG2P._parse_phoneme_dict_file lines
      | IPAG2P.DictObj d => Ok (IPAG2P._parse_phoneme_dict d)
      end = Ok obj →
      (obj = [] →
       IPAG2P.__init__ pd locale oov ignore hets use_chars prob use_stresses case
                       prefix mapping = Raise ValueError)
      ∧ (obj ≠ [] →
         match set_grapheme_case_raises case with
         | None => ∃ g, IPAG2P.__init__ pd locale oov ignore hets use_chars prob
                                        use_stresses case prefix mapping = Ok g
         | Some e => IPAG2P.__init__ pd locale oov ignore hets use_chars prob
                                     use_stresses case prefix mapping = Raise e
         end)
      ∧ (IPAG2P.__init__ pd locale oov ignore hets use_chars prob use_stresses case
                         prefix mapping = Raise ValueError
         ↔ obj = [] ∨ set_grapheme_case_raises case = Some ValueError)
      ∧ (∀ d, pd = IPAG2P.DictObj d → (obj = [] ↔ d = []))
      ∧ (∀ g, IPAG2P.__init__ pd locale oov ignore hets use_chars prob use_stresses
                              case prefix mapping = Ok g →
              set_grapheme_case_raises (IPAG2P.grapheme_case g) = None))
  ∧ (∀ phoneme_dict word_tokenize_func oov mapping word_segmenter,
        phoneme_dict = None ∨ word_segmenter ∉ [None; Some (py "jieba")] →
        ChineseG2p.init phoneme_dict word_tokenize_func oov mapping word_segmenter
        = Raise AssertionError).
Proof.
  split.
  - intros pd locale oov ignore hets use_chars prob use_stresses case prefix mapping
           obj Hlocale Hparse.
    assert ((∀ d, pd = IPAG2P.DictObj d → (obj = [] ↔ d = []))
            ∧ (∀ g, IPAG2P.__init__ pd locale oov ignore hets use_chars prob
                                    use_stresses case prefix mapping = Ok g →
                    set_grapheme_case_raises (IPAG2P.grapheme_case g) = None))
      as Hobj.
    { split.
      - intros d ->. injection Hparse as <-. apply parse_phoneme_dict_empty.
      - intros g Hg. by apply init_inv in Hg as (obj' & _ & _ & _ & Hc & ->). }
    match goal with
    | |- ?A ∧ ?B ∧ ?C ∧ _ =>
        cut (A ∧ B ∧ C);
        [intros (HA & HB & HC); exact (conj HA (conj HB (conj HC Hobj))) | clear Hobj]
    end.
    unfold IPAG2P.__init__.
    assert (match locale with Some l => validate_locale l | None => Ok () end
            = Ok ()) as ->.
    { by destruct Hlocale as [-> | (l & -> & ->)]. }
    rewrite Hparse. simpl. destruct obj as [|entry obj].
    + split; [done|]. split; [done|].
      split; [by left | done].
    + split; [done|]. split.
      * destruct (set_grapheme_case_raises case) as [e|] eqn:Hc.
        -- by rewrite (normalize_dict_unsupported _ _ _ _ _ e Hc).
        -- rewrite (normalize_dict_supported _ _ _ _ _ Hc). simpl.
           destruct (normalized _ _ _ _ _) as [d syms]. intros _. by eexists.
      * destruct (set_grapheme_case_raises case) as [e|] eqn:Hc.
        -- rewrite (normalize_dict_unsupported _ _ _ _ _ e Hc) by done. simpl.
           split; [intros [= ->]; by right | by intros [? | [= ->]]].
        -- rewrite (normalize_dict_supported _ _ _ _ _ Hc). simpl.
           destruct (normalized _ _ _ _ _) as [d syms].
           split; [done | by intros [? | ?]].
  - intros phoneme_dict word_tokenize_func oov mapping word_segmenter Hbad.
    unfold ChineseG2p.init. destruct phoneme_dict as [d|]; [|done].
    destruct Hbad as [? | Hseg]; [done|].
    by rewrite bool_decide_eq_false_2.
Qed.
End validation_claims.

(** ** [replace_dict] *)

Lemma dict_set_fresh {V} (d : pydict V) k v :
  k ∉ d.*1 → dict_set d k v = d ++ [(k, v)].
Proof.
  induction d as [|[k' v'] d IH]; simpl; [done|]. intros Hk.
  apply not_elem_of_cons in Hk as [Hne Hk].
  rewrite bool_decide_eq_false_2 by done. by rewrite IH.
Qed.

Section replace_dict_claims.
Context `{StrOps, DataUtils}.
Import IPAG2P.

(** A dictionary in NFC form is parsed into itself. *)
Lemma parse_phoneme_dict_id (d acc : phoneme_dict_t) :
  NoDup (acc.*1 ++ d.*1) →
  (∀ word prons, (word, prons) ∈ d →
                 normalize_unicode_text word = word
                 ∧ map (map normalize_unicode_text) prons = prons) →
  foldl (λ phoneme_dict_obj '(word, prons),
           dict_set phoneme_dict_obj (normalize_unicode_text word)
                    (map (map normalize_unicode_text) prons))
        acc d
  = acc ++ d.
Proof.
  revert acc. induction d as [|[word prons] d IH]; intros acc Hnd Hnfc; simpl.
  - by rewrite app_nil_r.
  - destruct (Hnfc word prons) as [-> ->]; [apply elem_of_cons; by left|].
    simpl in Hnd. apply NoDup_app in Hnd as (Hacc & Hdisj & Hd).
    apply NoDup_cons in Hd as [Hword Hd].
    rewrite dict_set_fresh.
    2:{ intros Hin. apply (Hdisj _ Hin). apply elem_of_cons. by left. }
    rewrite IH.
    + by rewrite <- app_assoc.
    + rewrite fmap_app. simpl. rewrite <- app_assoc. simpl.
      apply NoDup_app. split; [done|]. split; [|by apply NoDup_cons].
      intros k Hk Hk'. by apply (Hdisj k).
    + intros w p Hin. apply Hnfc. apply elem_of_cons. by right.
Qed.

(** C9. [replace_dict] stores the parsed dictionary and touches no other
    attribute, the symbols among them. The stored keys are the words
    given, NFC-normalized and in the case given, each with its
    pronunciations NFC-normalized and nothing removed; a dictionary
    already in NFC form is stored as it is, with no entry added. *)
Theorem C9_replace_dict_frame :
  ∀ (g : t) (d : phoneme_dict_t),
    let g' := replace_dict g d in
    IPAG2P.phoneme_dict g' = _parse_phoneme_dict d
    ∧ (symbols g' = symbols g
       ∧ use_stresses g' = use_stresses g
       ∧ grapheme_case g' = grapheme_case g
       ∧ grapheme_prefix g' = grapheme_prefix g
       ∧ phoneme_probability g' = phoneme_probability g
       ∧ locale g' = locale g
       ∧ use_chars g' = use_chars g
       ∧ word_tokenize_func g' = word_tokenize_func g
       ∧ apply_to_oov_word g' = apply_to_oov_word g
       ∧ mapping_file g' = mapping_file g
       ∧ heteronym_model g' = heteronym_model g
       ∧ ignore_ambiguous_words g' = ignore_ambiguous_words g
       ∧ heteronyms g' = heteronyms g)
    ∧ (∀ k prons,
          dict_get (IPAG2P.phoneme_dict g') k = Some prons →
          ∃ word prons0, (word, prons0) ∈ d
                         ∧ k = normalize_unicode_text word
                         ∧ prons = map (map normalize_unicode_text) prons0)
    ∧ (NoDup d.*1 →
       (∀ word prons, (word, prons) ∈ d →
                      normalize_unicode_text word = word
                      ∧ map (map normalize_unicode_text) prons = prons) →
       IPAG2P.phoneme_dict g' = d).
Proof.
  intros g d g'. split; [done|]. split; [done|]. split.
  - intros k prons. apply parse_phoneme_dict_entries.
  - intros Hnd Hnfc. simpl. unfold _parse_phoneme_dict.
    by rewrite parse_phoneme_dict_id.
Qed.
End replace_dict_claims.

(** ** [ChineseG2p.__call__] *)

Section chinese_claims.
Context `{StrOps, Pinyin}.
Import ChineseG2p.

Lemma phoneme_loop_covered g seq acc :
  Forall (λ pinyin, pinyin ≠ []) seq →
  phoneme_loop g seq acc
  = if forallb (covered g) seq
    then Ok (acc ++ concat (map (claimed_phonemes g) seq))
    else Raise AssertionError.
Proof.
  intros Hne. revert acc.
  induction Hne as [|pinyin seq Hp Hne IH]; intros acc; simpl.
  - by rewrite app_nil_r.
  - unfold covered at 1, claimed_phonemes at 1, tone_of.
    destruct (last pinyin) as [c|] eqn:Hlast.
    2:{ by apply last_None in Hlast. }
    destruct (dict_get (tones g) [c]) as [tone|].
    + unfold dict_mem.
      destruct (dict_get (phoneme_dict g) (drop_last 1 pinyin)) as [phonemes|];
        [|done].
      simpl. rewrite IH. destruct (forallb (covered g) seq); [|done].
      by rewrite <- !app_assoc.
    + simpl. rewrite IH. destruct (forallb (covered g) seq); [|done].
      by rewrite <- !app_assoc.
Qed.

Lemma init_tones phoneme_dict word_tokenize_func oov mapping word_segmenter g :
  init phoneme_dict word_tokenize_func oov mapping word_segmenter = Ok g →
  tones g = [(py "1", py "#1"); (py "2", py "#2"); (py "3", py "#3");
             (py "4", py "#4"); (py "5", py "#5")].
Proof.
  unfold init. destruct phoneme_dict as [d|]; [|done].
  case_match; [done|]. destruct (match d with DictFile _ => _ | DictObj _ => _ end);
    simpl; [|done].
  by intros [= <-].
Qed.

Lemma tone_of_init_tones pinyin tone :
  tone_of [(py "1", py "#1"); (py "2", py "#2"); (py "3", py "#3");
           (py "4", py "#4"); (py "5", py "#5")] pinyin = Some tone
  ↔ ∃ base digit, pinyin = base ++ [digit]
                  ∧ (49 ≤ digit ≤ 53)%N ∧ tone = [35%N; digit].
Proof.
  unfold tone_of. split.
  - destruct (last pinyin) as [c|] eqn:Hlast; [|done].
    apply last_Some in Hlast as [base ->]. intros Hc. exists base, c.
    split; [done|]. simpl in Hc.
    repeat (case_bool_decide as Hk;
            [cbv in Hk, Hc; simplify_eq; split; [lia | done]|clear Hk]).
    done.
  - intros (base & digit & -> & Hd & ->). rewrite last_snoc.
    assert (digit = 49 ∨ digit = 50 ∨ digit = 51 ∨ digit = 52 ∨ digit = 53)%N
      as Hcases by lia.
    by destruct Hcases as [-> | [-> | [-> | [-> | ->]]]].
Qed.

Lemma parse_as_pinyin_dict_sharp lines d k phonemes ph :
  _parse_as_pinyin_dict lines = Ok d →
  dict_get d k = Some phonemes → ph ∈ phonemes →
  ∃ pron, ph = py "#" ++ pron.
Proof.
  unfold _parse_as_pinyin_dict. revert d k phonemes ph.
  apply (foldl_invariant
           (λ acc : result (pydict (list pystr)),
              ∀ d k phonemes ph,
                acc = Ok d → dict_get d k = Some phonemes → ph ∈ phonemes →
                ∃ pron, ph = py "#" ++ pron)).
  - by intros d k phonemes ph [= <-].
  - intros [acc|e] line _ IH d k phonemes ph; simpl; [|done].
    destruct (split_on 9%N line) as [|parts0 [|parts1 parts]]; [done | done |].
    intros [= <-]. rewrite dict_get_set. case_bool_decide.
    + intros [= <-] Hin. apply list_elem_of_fmap in Hin as (pron & -> & _).
      by exists pron.
    + by apply IH.
Qed.

(** C8. The syllables being non-empty strings, [__call__] returns
    exactly when every syllable that ends in a tone digit has its base
    among the keys of the dictionary: it then returns, syllable by
    syllable, the phonemes of the base and the tone token, or the
    syllable itself if it does not end in a tone digit; if some base is
    missing it raises [AssertionError]. In an object [__init__] has
    built, the syllables with a tone token are those that end in a digit
    from 1 to 5, the token being ["#"] and the digit, and a dictionary read
    from a file has its phonemes behind a ["#"]. *)
Theorem C8_chinese_call_coverage :
  (∀ (g : t) (text : pystr),
      Forall (λ pinyin, pinyin ≠ []) (pinyin_seq g text) →
      (forallb (covered g) (pinyin_seq g text) = true →
       call g text = Ok (concat (map (claimed_phonemes g) (pinyin_seq g text))))
      ∧ (forallb (covered g) (pinyin_seq g text) = false →
         call g text = Raise AssertionError))
  ∧ (∀ phoneme_dict word_tokenize_func oov mapping word_segmenter (g : t),
        init phoneme_dict word_tokenize_func oov mapping word_segmenter = Ok g →
        (∀ pinyin tone,
            tone_of (tones g) pinyin = Some tone
            ↔ ∃ base digit, pinyin = base ++ [digit]
                            ∧ (49 ≤ digit ≤ 53)%N ∧ tone = [35%N; digit])
        ∧ (∀ lines k phonemes ph,
              phoneme_dict = Some (DictFile lines) →
              dict_get (ChineseG2p.phoneme_dict g) k = Some phonemes →
              ph ∈ phonemes → ∃ pron, ph = py "#" ++ pron)).
Proof.
  split.
  - intros g text Hne. unfold call. rewrite (phoneme_loop_covered _ _ _ Hne).
    split; by intros ->.
  - intros phoneme_dict word_tokenize_func oov mapping word_segmenter g Hg.
    split.
    + intros pinyin tone. rewrite (init_tones _ _ _ _ _ _ Hg).
      apply tone_of_init_tones.
    + intros lines k phonemes ph -> Hk Hin. unfold init in Hg.
      case_match; [done|].
      destruct (_parse_as_pinyin_dict lines) as [d|] eqn:Hd; simpl in Hg; [|done].
      injection Hg as <-. simpl in Hk.
      by eapply parse_as_pinyin_dict_sharp.
Qed.
End chinese_claims.

(** * The rules on sample inputs *)

Ltac by_computation :=
  match goal with
  | |- ?P => apply (bool_decide_eq_true_1 P); vm_compute; reflexivity
  end.

(** "cat" has one pronunciation, "read" two; the graphemes of "read" come
    behind the prefix "#". *)
Lemma C1_dictionary_lookup_witness :
  (EnglishG2p.parse_one_word (H := Sample.str_ops) (Sample.english [py "lead"] None)
                             (py "cat") (Sample.constant_rng 0)
   = (Ok (PList [py "K"; py "AE1"; py "T"], true), Sample.constant_rng 0)
   ∧ EnglishG2p.parse_one_word (H := Sample.str_ops) (Sample.english [py "lead"] None)
                               (py "read") (Sample.constant_rng 0)
     = (Ok (PStr (py "read"), false), Sample.constant_rng 0))
  ∧ (IPAG2P.parse_one_word (H := Sample.str_ops) (H0 := Sample.data_utils)
                           (Sample.ipa_sharp [py "LEAD"]) (py "cat")
                           (Sample.constant_rng 0)
     = (Ok (PList [[712%N]; py "k"; [230%N]; py "t"], true), Sample.constant_rng 0)
     ∧ IPAG2P.parse_one_word (H := Sample.str_ops) (H0 := Sample.data_utils)
                             (Sample.ipa_sharp [py "LEAD"]) (py "read")
                             (Sample.constant_rng 0)
       = (Ok (PList [py "#R"; py "#E"; py "#A"; py "#D"], false),
          Sample.constant_rng 0))
  ∧ set_grapheme_case (DataUtils := Sample.data_utils) (py "CAT")
                      (IPAG2P.grapheme_case (Sample.built (Sample.ipa_init true)))
    = py "CAT".
Proof.
  destruct (@C1_dictionary_lookup Sample.str_ops Sample.data_utils) as (HE & HI & HK).
  split; [split | split; [split|]].
  - apply (HE (Sample.english [py "lead"] None) (py "cat")
              [[py "K"; py "AE1"; py "T"]] (Sample.constant_rng 0));
      [reflexivity | reflexivity | intros hs [= <-]; by_computation
       | reflexivity | reflexivity].
  - apply (HE (Sample.english [py "lead"] None) (py "read")
              [[py "R"; py "IY1"; py "D"]; [py "R"; py "EH1"; py "D"]]
              (Sample.constant_rng 0));
      [reflexivity | reflexivity | intros hs [= <-]; by_computation
       | reflexivity | simpl; lia | reflexivity | reflexivity].
  - apply (HI (Sample.ipa_sharp [py "LEAD"]) (py "cat")
              [[[712%N]; py "k"; [230%N]; py "t"]] (Sample.constant_rng 0));
      [reflexivity | reflexivity | intros hs [= <-]; by_computation
       | reflexivity | reflexivity].
  - apply (HI (Sample.ipa_sharp [py "LEAD"]) (py "read")
              [[[712%N]; [633%N]; py "i"; py "d"]; [[712%N]; [633%N]; [603%N]; py "d"]]
              (Sample.constant_rng 0));
      [reflexivity | reflexivity | intros hs [= <-]; by_computation
       | reflexivity | simpl; lia | reflexivity | reflexivity].
  - apply (HK Sample.ipa_dict (Some (py "en-US")) None true (Some [py "lead"]) false
              None true (Some (py "upper")) [] None
              (Sample.built (Sample.ipa_init true)) (py "CAT")
              [[[712%N]; py "k"; [230%N]; py "t"]]).
    + vm_compute. reflexivity.
    + intros word0 prons0 Hin. apply list_elem_of_In in Hin. vm_compute in Hin.
      destruct Hin as [[= <- _] | [[= <- _] | [[= <- _] | []]]]; reflexivity.
    + intros Hcase. vm_compute in Hcase. discriminate.
    + vm_compute. reflexivity.
Defined.

(** [replace_dict] stores the keys as they are given. In an object with
    upper-case graphemes it can leave the key "dog", with one
    pronunciation: the word "dog" is then a key, has letters, is no
    heteronym, and [parse_one_word] looks up "DOG", finds nothing and
    returns the graphemes with status [False]. *)
Lemma C1_counterexample :
  dict_get (IPAG2P.phoneme_dict
              (IPAG2P.replace_dict (H0 := Sample.data_utils) (Sample.ipa [])
                                   [(py "dog", [[py "d"; [596%N]; [609%N]]])]))
           (py "dog")
  = Some [[py "d"; [596%N]; [609%N]]]
  ∧ existsb (IPAG2P.CHAR_REGEX (H := Sample.str_ops) (H0 := Sample.data_utils))
            (py "dog") = true
  ∧ IPAG2P.heteronyms
      (IPAG2P.replace_dict (H0 := Sample.data_utils) (Sample.ipa [])
                           [(py "dog", [[py "d"; [596%N]; [609%N]]])])
    = Some ∅
  ∧ IPAG2P.phoneme_probability
      (IPAG2P.replace_dict (H0 := Sample.data_utils) (Sample.ipa [])
                           [(py "dog", [[py "d"; [596%N]; [609%N]]])])
    = None
  ∧ IPAG2P.parse_one_word (H := Sample.str_ops) (H0 := Sample.data_utils)
      (IPAG2P.replace_dict (H0 := Sample.data_utils) (Sample.ipa [])
                           [(py "dog", [[py "d"; [596%N]; [609%N]]])])
      (py "dog") (Sample.constant_rng 0)
    = (Ok (PList [py "D"; py "O"; py "G"], false), Sample.constant_rng 0).
Proof. repeat split; vm_compute; reflexivity. Qed.

(** With no probability two generators give the same output, and the
    generator comes back as it was. *)
Lemma C2_deterministic_without_probability_witness :
  ((EnglishG2p.call (H := Sample.str_ops) (Sample.english [py "lead"] None)
                    (py "hi cat") (Sample.constant_rng 0)).1
   = (EnglishG2p.call (H := Sample.str_ops) (Sample.english [py "lead"] None)
                      (py "hi cat") (Sample.constant_rng 1)).1
   ∧ (EnglishG2p.call (H := Sample.str_ops) (Sample.english [py "lead"] None)
                      (py "hi cat") (Sample.constant_rng 0)).2
     = Sample.constant_rng 0)
  ∧ ((IPAG2P.call (H := Sample.str_ops) (H0 := Sample.data_utils)
                  (Sample.ipa [py "LEAD"]) (py "cat dog") (Sample.constant_rng 0)).1
     = (IPAG2P.call (H := Sample.str_ops) (H0 := Sample.data_utils)
                    (Sample.ipa [py "LEAD"]) (py "cat dog") (Sample.constant_rng 1)).1
     ∧ (IPAG2P.call (H := Sample.str_ops) (H0 := Sample.data_utils)
                    (Sample.ipa [py "LEAD"]) (py "cat dog") (Sample.constant_rng 0)).2
       = Sample.constant_rng 0).
Proof.
  destruct (@C2_deterministic_without_probability Sample.str_ops Sample.data_utils)
    as [HE HI].
  split.
  - apply (HE (Sample.english [py "lead"] None) (py "hi cat")
              (Sample.constant_rng 0) (Sample.constant_rng 1)).
    reflexivity.
  - apply (HI (Sample.ipa [py "LEAD"]) (py "cat dog")
              (Sample.constant_rng 0) (Sample.constant_rng 1)).
    reflexivity.
Defined.

(** With [phoneme_probability = 0.5], a generator that draws 0.9 and then
    0.1 keeps "hi" as graphemes in a first call and phonemizes it in the
    next one: two calls on the same text, two outputs. *)
Lemma C2_counterexample :
  (EnglishG2p.call (H := Sample.str_ops) (Sample.english [] (Some (1 # 2)))
                   (py "hi") (Sample.two_rng (9 # 10) (1 # 10))).1
  = Ok [py "h"; py "i"]
  ∧ (EnglishG2p.call (H := Sample.str_ops) (Sample.english [] (Some (1 # 2)))
                     (py "hi")
                     (EnglishG2p.call (H := Sample.str_ops)
                                      (Sample.english [] (Some (1 # 2)))
                                      (py "hi") (Sample.two_rng (9 # 10) (1 # 10))).2).1
    = Ok [py "HH"; py "AY1"]
  ∧ (EnglishG2p.call (H := Sample.str_ops) (Sample.english [] (Some (1 # 2)))
                     (py "hi") (Sample.two_rng (9 # 10) (1 # 10))).1
    ≠ (EnglishG2p.call (H := Sample.str_ops) (Sample.english [] (Some (1 # 2)))
                       (py "hi")
                       (EnglishG2p.call (H := Sample.str_ops)
                                        (Sample.english [] (Some (1 # 2)))
                                        (py "hi") (Sample.two_rng (9 # 10) (1 # 10))).2).1.
Proof.
  split; [reflexivity|]. split; [reflexivity|].
  intros Heq. vm_compute in Heq. discriminate.
Qed.

(** "cat's" and "cats" from "cat". *)
Lemma C3_english_suffix_rules_witness :
  EnglishG2p.parse_one_word (H := Sample.str_ops) (Sample.english [py "lead"] None)
                            (py "cat" ++ py "'s") (Sample.constant_rng 0)
  = (Ok (PList ([py "K"; py "AE1"; py "T"] ++ [py "Z"]), true), Sample.constant_rng 0)
  ∧ EnglishG2p.parse_one_word (H := Sample.str_ops) (Sample.english [py "lead"] None)
                              (py "cat" ++ py "s") (Sample.constant_rng 0)
    = (Ok (PList ([py "K"; py "AE1"; py "T"] ++ [py "Z"]), true), Sample.constant_rng 0).
Proof.
  destruct (@C3_english_suffix_rules Sample.str_ops) as [HA HB].
  split.
  - apply (HA (Sample.english [py "lead"] None) (py "cat")
              [py "K"; py "AE1"; py "T"] [] (Sample.constant_rng 0));
      [discriminate | reflexivity | intros hs [= <-]; by_computation
       | reflexivity | reflexivity | by right].
  - apply (HB (Sample.english [py "lead"] None) (py "cat")
              [py "K"; py "AE1"; py "T"] [] (Sample.constant_rng 0));
      [discriminate | reflexivity | intros hs [= <-]; by_computation
       | | reflexivity | reflexivity | by right].
    intros stem2 prons2 Hstem. exfalso.
    change (py "cat" = stem2 ++ [39%N]) in Hstem.
    apply (f_equal last) in Hstem. rewrite last_snoc in Hstem.
    vm_compute in Hstem. discriminate.
Defined.

(** The heteronym "cats" stays as it is although "cat" is a key with one
    pronunciation; and "cat's", which ends in "s" and whose stem "cat'" is a
    key, is answered by the ['s] rule from "cat". *)
Lemma C3_counterexample :
  (dict_get Sample.cmudict (py "cats") = None
   ∧ dict_get Sample.cmudict (py "cat") = Some [[py "K"; py "AE1"; py "T"]]
   ∧ EnglishG2p.parse_one_word (H := Sample.str_ops) (Sample.english [py "cats"] None)
                               (py "cats") (Sample.constant_rng 0)
     = (Ok (PStr (py "cats"), true), Sample.constant_rng 0)
   ∧ EnglishG2p.parse_one_word (H := Sample.str_ops) (Sample.english [py "cats"] None)
                               (py "cats") (Sample.constant_rng 0)
     ≠ (Ok (PList [py "K"; py "AE1"; py "T"; py "Z"], true), Sample.constant_rng 0))
  ∧ (dict_get Sample.cmudict (py "cat's") = None
     ∧ dict_get Sample.cmudict (py "cat'") = Some [[py "X"]]
     ∧ EnglishG2p.parse_one_word (H := Sample.str_ops) (Sample.english [] None)
                                 (py "cat's") (Sample.constant_rng 0)
       = (Ok (PList [py "K"; py "AE1"; py "T"; py "Z"], true), Sample.constant_rng 0)
     ∧ EnglishG2p.parse_one_word (H := Sample.str_ops) (Sample.english [] None)
                                 (py "cat's") (Sample.constant_rng 0)
       ≠ (Ok (PList [py "X"; py "Z"], true), Sample.constant_rng 0)).
Proof.
  repeat split; try reflexivity; intros Heq; vm_compute in Heq; discriminate.
Qed.

(** "cat's" takes /s/ after the T of "CAT", "dogs" /z/ after the G of
    "DOG". *)
Lemma C4_ipa_suffix_rules_witness :
  IPAG2P.parse_one_word (H := Sample.str_ops) (H0 := Sample.data_utils)
                        (Sample.ipa [py "LEAD"]) (py "cat's") (Sample.constant_rng 0)
  = (Ok (PList ([[712%N]; py "k"; [230%N]; py "t"] ++ claimed_inflection true 84), true),
     Sample.constant_rng 0)
  ∧ IPAG2P.parse_one_word (H := Sample.str_ops) (H0 := Sample.data_utils)
                          (Sample.ipa [py "LEAD"]) (py "dogs") (Sample.constant_rng 0)
    = (Ok (PList ([[712%N]; py "d"; [596%N]; [609%N]] ++ claimed_inflection false 71),
           true),
       Sample.constant_rng 0).
Proof.
  destruct (@C4_ipa_suffix_rules Sample.str_ops Sample.data_utils) as [HA HB].
  split.
  - apply (HA (Sample.ipa [py "LEAD"]) (py "cat's") (py "CAT") (py "CAT")
              [[712%N]; py "k"; [230%N]; py "t"] [] 84%N (Sample.constant_rng 0));
      [reflexivity | reflexivity | reflexivity | intros hs [= <-]; by_computation
       | by right | discriminate | reflexivity | reflexivity | by left
       | reflexivity | by right | reflexivity].
  - apply (HB (Sample.ipa [py "LEAD"]) (py "dogs") (py "DOG") (py "DOG") 83%N
              [[712%N]; py "d"; [596%N]; [609%N]] [] 71%N (Sample.constant_rng 0));
      [reflexivity | reflexivity | reflexivity | intros hs [= <-]; by_computation
       | reflexivity | by right | discriminate | discriminate | reflexivity
       | reflexivity | by left | reflexivity | by right | reflexivity].
Defined.

(** The heteronym "CATS" is kept as graphemes although "CAT" is a key with
    one pronunciation and "CATS" is none. *)
Lemma C4_counterexample :
  IPAG2P.locale (Sample.ipa [py "CATS"]) = Some (py "en-US")
  ∧ set_grapheme_case (DataUtils := Sample.data_utils) (py "cats")
                      (IPAG2P.grapheme_case (Sample.ipa [py "CATS"]))
    = py "CAT" ++ py "S"
  ∧ dict_get (IPAG2P.phoneme_dict (Sample.ipa [py "CATS"])) (py "CATS") = None
  ∧ dict_get (IPAG2P.phoneme_dict (Sample.ipa [py "CATS"])) (py "CAT")
    = Some [[[712%N]; py "k"; [230%N]; py "t"]]
  ∧ IPAG2P.parse_one_word (H := Sample.str_ops) (H0 := Sample.data_utils)
                          (Sample.ipa [py "CATS"]) (py "cats") (Sample.constant_rng 0)
    = (Ok (PList [py "C"; py "A"; py "T"; py "S"], true), Sample.constant_rng 0)
  ∧ IPAG2P.parse_one_word (H := Sample.str_ops) (H0 := Sample.data_utils)
                          (Sample.ipa [py "CATS"]) (py "cats") (Sample.constant_rng 0)
    ≠ (Ok (PList [[712%N]; py "k"; [230%N]; py "t"; py "s"], true),
       Sample.constant_rng 0).
Proof.
  repeat split; try reflexivity; intros Heq; vm_compute in Heq; discriminate.
Qed.

(** The heteronym "lead", and the set the constructor derives from the
    list ["lead"]. *)
Lemma C5_heteronyms_kept_as_graphemes_witness :
  EnglishG2p.parse_one_word (H := Sample.str_ops) (Sample.english [py "lead"] None)
                            (py "lead") (Sample.constant_rng 0)
  = (Ok (PStr (py "lead"), true), Sample.constant_rng 0)
  ∧ IPAG2P.parse_one_word (H := Sample.str_ops) (H0 := Sample.data_utils)
                          (Sample.ipa_sharp [py "LEAD"]) (py "lead")
                          (Sample.constant_rng 0)
    = (Ok (PList [py "#L"; py "#E"; py "#A"; py "#D"], true), Sample.constant_rng 0)
  ∧ ∃ hs, IPAG2P.heteronyms (Sample.built (Sample.ipa_init true)) = Some hs
          ∧ py "LEAD" ∈ hs.
Proof.
  destruct (@C5_heteronyms_kept_as_graphemes Sample.str_ops Sample.data_utils)
    as (HE & HI & HC).
  split; [|split].
  - apply (HE (Sample.english [py "lead"] None) (py "lead") (list_to_set [py "lead"])
              (Sample.constant_rng 0));
      [reflexivity | by_computation | reflexivity | reflexivity].
  - apply (HI (Sample.ipa_sharp [py "LEAD"]) (py "lead") (list_to_set [py "LEAD"])
              (Sample.constant_rng 0));
      [reflexivity | by_computation | reflexivity | reflexivity].
  - apply (HC Sample.ipa_dict (Some (py "en-US")) None true [py "lead"] false None true
              (Some (py "upper")) [] None (Sample.built (Sample.ipa_init true))
              (py "lead"));
      [reflexivity | by_computation].
Defined.

(** Built without stresses, the sample dictionary has no stress symbol
    left, in its pronunciations or in its symbols; built with them, "CAT"
    has the pronunciations given for "Cat". *)
Lemma C6_stress_normalization_witness :
  (stress_free [py "k"; [230%N]; py "t"]
   ∧ (∀ s, s ∈ IPAG2P.STRESS_SYMBOLS →
           s ∉ IPAG2P.symbols (Sample.built (Sample.ipa_init false)))
   ∧ ∃ pron, PList [py "k"; [230%N]; py "t"] = PList pron ∧ stress_free pron)
  ∧ ∃ word, (word, [[[712%N]; py "k"; [230%N]; py "t"]])
            ∈ IPAG2P._parse_phoneme_dict (H0 := Sample.data_utils) Sample.ipa_dict
            ∧ (py "CAT" = set_grapheme_case (DataUtils := Sample.data_utils) word
                                            (Some (py "upper"))
               ∨ (Some (py "upper")
                  = Some (GRAPHEME_CASE_MIXED (DataUtils := Sample.data_utils))
                  ∧ py "CAT"
                    = upper (StrOps := Sample.str_ops)
                            (set_grapheme_case (DataUtils := Sample.data_utils) word
                                               (Some (py "upper"))))).
Proof.
  assert (Sample.ipa_init false = Ok (Sample.built (Sample.ipa_init false)))
    as Hoff_init by (vm_compute; reflexivity).
  assert (Sample.ipa_init true = Ok (Sample.built (Sample.ipa_init true)))
    as Hon_init by (vm_compute; reflexivity).
  split.
  - destruct (@C6_stress_normalization
                Sample.str_ops Sample.data_utils
                Sample.ipa_dict (Some (py "en-US")) None true (Some [py "lead"]) false
                None false (Some (py "upper")) [] None
                (Sample.built (Sample.ipa_init false)) Hoff_init) as [Hoff _].
    destruct (Hoff eq_refl) as (Hstored & Hfirst & Hsymbols & Hparse).
    split; [|split].
    + apply (Hfirst (py "CAT")). vm_compute. reflexivity.
    + apply Hsymbols. intros c Hc.
      apply list_elem_of_In in Hc. simpl in Hc.
      destruct Hc as [[= <-] | [[= <-] | []]]; reflexivity.
    + apply (Hparse (py "cat") (Sample.constant_rng 0) _ (Sample.constant_rng 0));
        [reflexivity | reflexivity | vm_compute; reflexivity
         | intros hs Hhs; vm_compute in Hhs; injection Hhs as <-; by_computation
         | vm_compute; reflexivity].
  - destruct (@C6_stress_normalization
                Sample.str_ops Sample.data_utils
                Sample.ipa_dict (Some (py "en-US")) None true (Some [py "lead"]) false
                None true (Some (py "upper")) [] None
                (Sample.built (Sample.ipa_init true)) Hon_init) as [_ Hon].
    apply (Hon eq_refl (py "CAT")). vm_compute. reflexivity.
Defined.

(** The sample dictionary is accepted with upper-case graphemes and
    refused with a case that is not supported, the empty one is refused; no
    dictionary and an unknown segmenter are refused. *)
Lemma C7_constructor_validation_witness :
  (IPAG2P.init (H := Sample.str_ops) (H0 := Sample.data_utils) [] (Some (py "en-US"))
               None true None false None true (Some (py "upper")) [] None
   = Raise ValueError
   ∧ (∃ g, Sample.ipa_init true = Ok g)
   ∧ IPAG2P.init (H := Sample.str_ops) (H0 := Sample.data_utils) Sample.ipa_dict
                 (Some (py "en-US")) None true None false None true
                 (Some (py "title")) [] None
     = Raise ValueError
   ∧ ∃ g, IPAG2P.__init__ (H := Sample.str_ops) (H0 := Sample.data_utils)
            (IPAG2P.DictFile Sample.ipa_lines) (Some (py "en-US")) None true
            (Some (IPAG2P.HeteronymsFile Sample.heteronym_lines)) false None true
            (Some (py "upper")) [] None = Ok g)
  ∧ ChineseG2p.init (H := Sample.str_ops) (H0 := Sample.pinyin) None None None None None
    = Raise AssertionError
  ∧ ChineseG2p.init (H := Sample.str_ops) (H0 := Sample.pinyin)
                    (Some (ChineseG2p.DictFile Sample.pinyin_lines)) None None None
                    (Some (py "spacy"))
    = Raise AssertionError.
Proof.
  destruct (@C7_constructor_validation Sample.str_ops Sample.data_utils Sample.pinyin)
    as [HI HC].
  assert (Some (py "en-US") = None
          ∨ ∃ l, Some (py "en-US") = Some l
                 ∧ validate_locale (DataUtils := Sample.data_utils) l = Ok ())
    as Hlocale.
  { right. exists (py "en-US"). split; reflexivity. }
  split; [split; [|split; [|split]] | split].
  - destruct (HI (IPAG2P.DictObj []) (Some (py "en-US")) None true None false None
                 true (Some (py "upper")) [] None [] Hlocale eq_refl)
      as (Hempty & _).
    apply Hempty. reflexivity.
  - destruct (HI (IPAG2P.DictObj Sample.ipa_dict) (Some (py "en-US")) None true
                 (Some (IPAG2P.HeteronymsList [py "lead"])) false None true
                 (Some (py "upper")) [] None
                 (IPAG2P._parse_phoneme_dict (H0 := Sample.data_utils) Sample.ipa_dict)
                 Hlocale eq_refl)
      as (_ & Hfull & _).
    apply Hfull. vm_compute. discriminate.
  - destruct (HI (IPAG2P.DictObj Sample.ipa_dict) (Some (py "en-US")) None true None
                 false None true (Some (py "title")) [] None
                 (IPAG2P._parse_phoneme_dict (H0 := Sample.data_utils) Sample.ipa_dict)
                 Hlocale eq_refl)
      as (_ & Hfull & _).
    apply Hfull. vm_compute. discriminate.
  - destruct (HI (IPAG2P.DictFile Sample.ipa_lines) (Some (py "en-US")) None true
                 (Some (IPAG2P.HeteronymsFile Sample.heteronym_lines)) false None true
                 (Some (py "upper")) [] None
                 [(py "Cat", [[[712%N]; py "k"; [230%N]; py "t"]]);
                  (py "read", [[[712%N]; [633%N]; py "i"; py "d"];
                               [[712%N]; [633%N]; [603%N]; py "d"]])]
                 Hlocale ltac:(vm_compute; reflexivity))
      as (_ & Hfull & _).
    apply Hfull. discriminate.
  - apply HC. by left.
  - apply HC. right. by_computation.
Defined.

(** A dictionary with entries and [grapheme_case=None]: the parsed
    dictionary is not empty, the locale is supported, and [__init__]
    raises [ValueError], from [set_grapheme_case] in [_normalize_dict]. *)
Lemma C7_counterexample :
  IPAG2P._parse_phoneme_dict (H0 := Sample.data_utils) Sample.ipa_dict ≠ []
  ∧ validate_locale (DataUtils := Sample.data_utils) (py "en-US") = Ok ()
  ∧ IPAG2P.init (H := Sample.str_ops) (H0 := Sample.data_utils) Sample.ipa_dict
                (Some (py "en-US")) None true None false None true None [] None
    = Raise ValueError.
Proof.
  split; [vm_compute; discriminate|]. split; vm_compute; reflexivity.
Qed.

(** "你好A" on the sample dictionary, and "你5", whose "5" has the empty
    base. *)
Lemma C8_chinese_call_coverage_witness :
  (ChineseG2p.call (H0 := Sample.pinyin) Sample.chinese [20320; 22909; 65]%N
   = Ok [py "#n"; py "#i"; py "#3"; py "#h"; py "#au"; py "#3"; py "A"]
   ∧ ChineseG2p.call (H0 := Sample.pinyin) Sample.chinese [20320; 53]%N
     = Raise AssertionError)
  ∧ (tone_of (ChineseG2p.tones Sample.chinese) (py "hao" ++ [51%N]) = Some [35%N; 51%N]
     ∧ ∃ pron, py "#au" = py "#" ++ pron).
Proof.
  destruct (@C8_chinese_call_coverage Sample.str_ops Sample.pinyin) as [Hcall Hinit].
  split.
  - split.
    + apply (Hcall Sample.chinese [20320; 22909; 65]%N);
        [by_computation | reflexivity].
    + apply (Hcall Sample.chinese [20320; 53]%N); [by_computation | reflexivity].
  - destruct (Hinit (Some (ChineseG2p.DictFile Sample.pinyin_lines)) None None None None
                    Sample.chinese eq_refl) as [Htone Hsharp].
    split.
    + apply Htone. exists (py "hao"), 51%N. repeat split; lia.
    + apply (Hsharp Sample.pinyin_lines (py "hao") [py "#h"; py "#au"]);
        [reflexivity | reflexivity | by_computation].
Defined.

(** Replacing the dictionary of the upper-case sample object by the
    dictionary as given stores "Cat" and "read" as they are. *)
Lemma C9_replace_dict_frame_witness :
  IPAG2P.phoneme_dict
    (IPAG2P.replace_dict (H0 := Sample.data_utils) (Sample.ipa [py "LEAD"])
                         Sample.ipa_dict)
  = Sample.ipa_dict
  ∧ IPAG2P.symbols
      (IPAG2P.replace_dict (H0 := Sample.data_utils) (Sample.ipa [py "LEAD"])
                           Sample.ipa_dict)
    = IPAG2P.symbols (Sample.ipa [py "LEAD"]).
Proof.
  destruct (@C9_replace_dict_frame Sample.data_utils (Sample.ipa [py "LEAD"])
                                   Sample.ipa_dict)
    as (Hdict & (Hsymbols & _) & Hentries & Hsame).
  split; [|exact Hsymbols].
  apply Hsame.
  - by_computation.
  - intros word prons _. split; [reflexivity|].
    unfold normalize_unicode_text. simpl.
    rewrite <- (map_id prons) at 2. apply map_ext. intros pron. apply map_id.
Defined.



(** * Further properties of the word rules *)

Section word_rule_facts.
Context `{StrOps, DataUtils}.

(** A word [EnglishG2p.parse_rules] does not handle comes back as it is,
    and only when there is no OOV function. *)
Lemma english_rules_unhandled g word p :
  EnglishG2p.parse_rules g word = Ok (p, false) →
  EnglishG2p.apply_to_oov_word g = None ∧ p = PStr word.
Proof.
  unfold EnglishG2p.parse_rules. intros Hr.
  destruct (negb (existsb EnglishG2p.WORD_CHAR word)); [done|].
  destruct (match EnglishG2p.heteronyms g with
            | Some hs => bool_decide (word ∈ hs)
            | None => false
            end); [done|].
  destruct (if _ && _ && _ && _ then _ else _) as [[|]|]; simpl in Hr; [| |done].
  { by destruct (EnglishG2p.first_pron g (drop_last 2 word)). }
  destruct (if _ && _ && _ && _ then _ else _) as [[|]|]; simpl in Hr; [| |done].
  { by destruct (EnglishG2p.first_pron g (drop_last 1 word)). }
  destruct (if dict_mem _ _ then _ else _) as [[|]|]; simpl in Hr; [| |done].
  { by destruct (EnglishG2p.first_pron g word). }
  destruct (EnglishG2p.apply_to_oov_word g); [done|]. by injection Hr as <-.
Qed.

Lemma apostrophe_s_rule_status g w res status :
  IPAG2P.apostrophe_s_rule g w = Ok (Some (res, status)) → status = true.
Proof.
  unfold IPAG2P.apostrophe_s_rule. intros Hr.
  destruct (_ && _); [|done].
  destruct (IPAG2P.word_found g w (drop_last 2 w)) as [wf|]; [|done].
  destruct (IPAG2P.ambiguity_ok g wf) as [[|]|]; simpl in Hr; [|done|done].
  destruct (IPAG2P.last_char wf) as [c|]; simpl in Hr; [|done].
  destruct (IPAG2P.first_pron g wf) as [p|]; simpl in Hr; [|done].
  repeat case_match; by simplify_eq.
Qed.

Lemma s_rule_status g w res status :
  IPAG2P.s_rule g w = Ok (Some (res, status)) → status = true.
Proof.
  unfold IPAG2P.s_rule. intros Hr.
  destruct (_ && _); [|done].
  destruct (IPAG2P.word_found g w (drop_last 1 w)) as [wf|]; [|done].
  destruct (IPAG2P.ambiguity_ok g wf) as [[|]|]; simpl in Hr; [|done|done].
  destruct (IPAG2P.last_char wf) as [c|]; simpl in Hr; [|done].
  destruct (IPAG2P.first_pron g wf) as [p|]; simpl in Hr; [|done].
  repeat case_match; by simplify_eq.
Qed.

(** A word [IPAG2P.lookup_rules] does not handle comes back as its
    prefixed graphemes, in upper case if the mixed-case branch has been
    taken, and only when there is no OOV function. *)
Lemma ipa_rules_unhandled g w p :
  IPAG2P.lookup_rules g w = Ok (p, false) →
  IPAG2P.apply_to_oov_word g = None
  ∧ (p = PList (IPAG2P._prepend_prefix_for_one_word (IPAG2P.grapheme_prefix g) w)
     ∨ (IPAG2P.grapheme_case g = Some GRAPHEME_CASE_MIXED
        ∧ p = PList (IPAG2P._prepend_prefix_for_one_word (IPAG2P.grapheme_prefix g)
                                                         (upper w)))).
Proof.
  unfold IPAG2P.lookup_rules.
  destruct (if bool_decide (IPAG2P.locale g = Some (py "en-US"))
            then IPAG2P.apostrophe_s_rule g w else Ok None)
    as [[[res1 st1]|]|] eqn:H1; simpl; [| |done].
  { intros [= -> ->]. case_bool_decide; [|done].
    by apply apostrophe_s_rule_status in H1. }
  destruct (if bool_decide (IPAG2P.locale g = Some (py "en-US"))
            then IPAG2P.s_rule g w else Ok None)
    as [[[res2 st2]|]|] eqn:H2; simpl; [| |done].
  { intros [= -> ->]. case_bool_decide; [|done].
    by apply s_rule_status in H2. }
  destruct (if dict_mem (IPAG2P.phoneme_dict g) w then IPAG2P.ambiguity_ok g w
            else Ok false) as [[|]|]; simpl; [| |done].
  { by destruct (IPAG2P.first_pron g w). }
  destruct (bool_decide (IPAG2P.grapheme_case g = Some GRAPHEME_CASE_MIXED)
            && negb (dict_mem (IPAG2P.phoneme_dict g) w)
            && dict_mem (IPAG2P.phoneme_dict g) (upper w)) eqn:Hmixed.
  - destruct (IPAG2P.ambiguity_ok g (upper w)) as [[|]|]; simpl; [| |done].
    { by destruct (IPAG2P.first_pron g (upper w)). }
    destruct (IPAG2P.apply_to_oov_word g); [done|]. intros [= <-].
    split; [done|]. right. split; [|done].
    apply andb_true_iff in Hmixed as [Hmixed _].
    apply andb_true_iff in Hmixed as [Hmixed _].
    by apply bool_decide_eq_true in Hmixed.
  - simpl. destruct (IPAG2P.apply_to_oov_word g); [done|]. intros [= <-].
    split; [done|]. by left.
Qed.

(** X1. A word with no letter or digit goes through as its characters
    with status [True]. [IPAG2P] tests this before anything else, so the
    result holds for every [phoneme_probability] and no draw is made;
    [EnglishG2p] draws first, and whichever way the draw falls what
    [__call__] appends is the list of the characters. *)
Theorem X1_punctuation_passes_through :
  (∀ (g : EnglishG2p.t) (word : pystr) (r : rng),
      existsb EnglishG2p.WORD_CHAR word = false →
      ∃ p, (EnglishG2p.parse_one_word g word r).1 = Ok (p, true)
           ∧ extend p = list_chars word)
  ∧ (∀ (g : IPAG2P.t) (word : pystr) (r : rng),
        let w := set_grapheme_case word (IPAG2P.grapheme_case g) in
        existsb IPAG2P.CHAR_REGEX w = false →
        IPAG2P.parse_one_word g word r = (Ok (PList (list_chars w), true), r)).
Proof.
  split.
  - intros g word r Hc. unfold EnglishG2p.parse_one_word, EnglishG2p.parse_rules.
    rewrite Hc. simpl.
    destruct (EnglishG2p.phoneme_probability g) as [p|]; simpl.
    + destruct (negb (Qle_bool (r 0) p)); simpl; by eexists.
    + by eexists.
  - intros g word r w Hc. unfold IPAG2P.parse_one_word. fold w. by rewrite Hc.
Qed.

Lemma english_parse_unhandled (g : EnglishG2p.t) (word : pystr) (p : pron) (r r' : rng) :
  EnglishG2p.parse_one_word g word r = (Ok (p, false), r') →
  EnglishG2p.apply_to_oov_word g = None ∧ p = PStr word.
Proof.
  unfold EnglishG2p.parse_one_word.
  destruct (EnglishG2p.phoneme_probability g) as [q|]; simpl.
  - destruct (negb (Qle_bool (r 0) q)); [done|].
    intros [= Hr _]. by apply english_rules_unhandled.
  - intros [= Hr _]. by apply english_rules_unhandled.
Qed.

Lemma ipa_parse_unhandled (g : IPAG2P.t) (word : pystr) (p : pron) (r r' : rng) :
  let w := set_grapheme_case word (IPAG2P.grapheme_case g) in
  IPAG2P.parse_one_word g word r = (Ok (p, false), r') →
  IPAG2P.apply_to_oov_word g = None
  ∧ (p = PList (IPAG2P._prepend_prefix_for_one_word (IPAG2P.grapheme_prefix g) w)
     ∨ (IPAG2P.grapheme_case g = Some GRAPHEME_CASE_MIXED
        ∧ p = PList (IPAG2P._prepend_prefix_for_one_word
                       (IPAG2P.grapheme_prefix g) (upper w)))).
Proof.
  intros w. unfold IPAG2P.parse_one_word. fold w.
  destruct (negb (existsb IPAG2P.CHAR_REGEX w)); [done|].
  destruct (match IPAG2P.phoneme_probability g with
            | Some p0 => let '(x, r'0) := random r in (negb (Qle_bool x p0), r'0)
            | None => (false, r)
            end) as [keep r1].
  destruct keep; [done|].
  destruct (match IPAG2P.heteronyms g with
            | Some hs => bool_decide (hs ≠ ∅) && bool_decide (w ∈ hs)
            | None => false
            end); [done|].
  intros [= Hr _]. by apply ipa_rules_unhandled.
Qed.

(** X2. A word that comes back with status [False] comes back as its own
    graphemes, and this happens only when no OOV function is set:
    [EnglishG2p] returns the word itself, [IPAG2P] the prefixed characters
    of the word in the configured case, or of its upper-case form when
    [grapheme_case] is mixed. *)
Theorem X2_unhandled_word_is_returned_as_graphemes :
  (∀ (g : EnglishG2p.t) (word : pystr) (p : pron) (r r' : rng),
      EnglishG2p.parse_one_word g word r = (Ok (p, false), r') →
      EnglishG2p.apply_to_oov_word g = None ∧ p = PStr word)
  ∧ (∀ (g : IPAG2P.t) (word : pystr) (p : pron) (r r' : rng),
        let w := set_grapheme_case word (IPAG2P.grapheme_case g) in
        IPAG2P.parse_one_word g word r = (Ok (p, false), r') →
        IPAG2P.apply_to_oov_word g = None
        ∧ (p = PList (map (λ c, IPAG2P.grapheme_prefix g ++ [c]) w)
           ∨ (IPAG2P.grapheme_case g = Some GRAPHEME_CASE_MIXED
              ∧ p = PList (map (λ c, IPAG2P.grapheme_prefix g ++ [c]) (upper w))))).
Proof.
  split; [apply english_parse_unhandled | apply ipa_parse_unhandled].
Qed.

(** X3. With an OOV function set every word is handled, so [__call__]
    never splits a word at its hyphens: what it appends for a word is what
    [parse_one_word] returns for the whole word. *)
Theorem X3_oov_function_disables_hyphen_fallback :
  (∀ (g : EnglishG2p.t) (f : pystr → pron) (word_str : pystr) (rest : list pystr)
     (r : rng),
      EnglishG2p.apply_to_oov_word g = Some f →
      EnglishG2p.call_word g (word_str :: rest) r
      = match EnglishG2p.parse_one_word g word_str r with
        | (Ok (pron, _), r') => (Ok (extend pron), r')
        | (Raise e, r') => (Raise e, r')
        end)
  ∧ (∀ (g : IPAG2P.t) (f : pystr → pron) (word : pystr) (r : rng),
        IPAG2P.apply_to_oov_word g = Some f →
        IPAG2P.call_word g [word] r
        = match IPAG2P.parse_one_word g word r with
          | (Ok (pron, _), r') => (Ok (extend pron), r')
          | (Raise e, r') => (Raise e, r')
          end).
Proof.
  split.
  - intros g f word_str rest r Hoov. unfold EnglishG2p.call_word.
    destruct (EnglishG2p.parse_one_word g word_str r) as [[[pron status]|e] r'] eqn:Hp;
      [|done].
    destruct status; [done|].
    apply english_parse_unhandled in Hp as [Hnone _]. congruence.
  - intros g f word r Hoov. unfold IPAG2P.call_word.
    destruct (IPAG2P.parse_one_word g word r) as [[[pron status]|e] r'] eqn:Hp;
      [|done].
    destruct status; [done|].
    apply ipa_parse_unhandled in Hp as [Hnone _]. congruence.
Qed.
End word_rule_facts.

(** * Exceptions of the word rules *)

Lemma parse_each_total parse subs r :
  (∀ s r0, ∃ res, (parse s r0).1 = Ok res) →
  ∃ ps, (parse_each parse subs r).1 = Ok ps.
Proof.
  intros Hparse. revert r. induction subs as [|s subs IH]; intros r; simpl.
  - by eexists.
  - destruct (Hparse s r) as [[p b] Hs].
    destruct (parse s r) as [res r1]. simpl in Hs. subst res.
    destruct (IH r1) as [ps Hps].
    destruct (parse_each parse subs r1) as [res r2]. simpl in Hps. subst res.
    by eexists.
Qed.

Section total_facts.
Context `{StrOps, DataUtils}.

Lemma drop_last_nonempty n (w : pystr) : n < length w → drop_last n w ≠ [].
Proof.
  unfold drop_last. intros Hn Hnil. apply (f_equal length) in Hnil.
  rewrite length_take in Hnil. simpl in Hnil. lia.
Qed.

Lemma english_ambiguity_total g word :
  dict_mem (EnglishG2p.phoneme_dict g) word = true →
  ∃ b, EnglishG2p.ambiguity_ok g word = Ok b.
Proof.
  intros Hm. apply dict_mem_true in Hm as [prons Hd].
  rewrite (english_ambiguity_ok _ _ _ Hd). by eexists.
Qed.

Lemma english_first_pron_total g word :
  (∀ k, dict_get (EnglishG2p.phoneme_dict g) k ≠ Some []) →
  dict_mem (EnglishG2p.phoneme_dict g) word = true →
  ∃ p, EnglishG2p.first_pron g word = Ok p.
Proof.
  intros Hne Hm. apply dict_mem_true in Hm as [prons Hd].
  destruct prons as [|p prons]; [by apply Hne in Hd|].
  rewrite (english_first_pron _ _ _ _ Hd). by eexists.
Qed.

(** One attempt of [parse_rules]: a test that ends in the ambiguity check
    of a key, the first pronunciation of that key if it passes, the rest
    of the function if not. *)
Lemma english_attempt_total g (cond : bool) k (answer : list pystr → pron)
      (rest : result (pron * bool)) :
  (∀ k, dict_get (EnglishG2p.phoneme_dict g) k ≠ Some []) →
  (cond = true → dict_mem (EnglishG2p.phoneme_dict g) k = true) →
  (∃ res, rest = Ok res) →
  ∃ res,
    rbind (if cond then EnglishG2p.ambiguity_ok g k else Ok false)
          (λ c, if c then rbind (EnglishG2p.first_pron g k)
                                (λ p, Ok (answer p, true))
                else rest)
    = Ok res.
Proof.
  intros Hne Hcond Hrest. destruct cond; [|done].
  specialize (Hcond eq_refl).
  destruct (english_ambiguity_total _ _ Hcond) as [b ->]. simpl.
  destruct b; [|done].
  destruct (english_first_pron_total _ _ Hne Hcond) as [p ->]. by eexists.
Qed.

Lemma english_rules_total g word :
  (∀ k, dict_get (EnglishG2p.phoneme_dict g) k ≠ Some []) →
  ∃ res, EnglishG2p.parse_rules g word = Ok res.
Proof.
  intros Hne. unfold EnglishG2p.parse_rules.
  destruct (negb (existsb EnglishG2p.WORD_CHAR word)); [by eexists|].
  destruct (match EnglishG2p.heteronyms g with
            | Some hs => bool_decide (word ∈ hs)
            | None => false
            end); [by eexists|].
  apply (english_attempt_total g _ _ (λ p, PList (p ++ [py "Z"]))); [done | |].
  { intros Hc. by apply andb_true_iff in Hc as [_ ?]. }
  apply (english_attempt_total g _ _ (λ p, PList (p ++ [py "Z"]))); [done | |].
  { intros Hc. by apply andb_true_iff in Hc as [_ ?]. }
  apply (english_attempt_total g _ _ PList); [done | done |].
  destruct (EnglishG2p.apply_to_oov_word g); by eexists.
Qed.

Lemma english_parse_total g word r :
  (∀ k, dict_get (EnglishG2p.phoneme_dict g) k ≠ Some []) →
  ∃ res, (EnglishG2p.parse_one_word g word r).1 = Ok res.
Proof.
  intros Hne. unfold EnglishG2p.parse_one_word.
  destruct (english_rules_total g word Hne) as [res Hres].
  destruct (EnglishG2p.phoneme_probability g) as [p|]; simpl.
  - destruct (negb (Qle_bool (r 0) p)); simpl; by eexists.
  - by eexists.
Qed.

Lemma english_call_word_total g word_str rest r :
  (∀ k, dict_get (EnglishG2p.phoneme_dict g) k ≠ Some []) →
  ∃ out, (EnglishG2p.call_word g (word_str :: rest) r).1 = Ok out.
Proof.
  intros Hne. unfold EnglishG2p.call_word.
  destruct (english_parse_total g word_str r Hne) as [[pron status] Hp].
  destruct (EnglishG2p.parse_one_word g word_str r) as [res r'].
  simpl in Hp. subst res.
  destruct (negb status && bool_decide (1 < length (split_on 45%N word_str)))
    eqn:Hsplit; [|by eexists].
  apply andb_true_iff in Hsplit as [_ Hlen]. apply bool_decide_eq_true in Hlen.
  rewrite (english_hyphen_fallback _ _ _ Hlen).
  destruct (parse_each_total (EnglishG2p.parse_one_word g) (split_on 45%N word_str) r')
    as [ps Hps].
  { intros s r0. by apply english_parse_total. }
  destruct (parse_each _ _ r') as [res r'']. simpl in Hps. subst res. by eexists.
Qed.

Lemma english_call_loop_total g words prons r :
  (∀ k, dict_get (EnglishG2p.phoneme_dict g) k ≠ Some []) →
  Forall (λ token : list pystr * bool, token.2 = true ∨ token.1 ≠ []) words →
  ∃ out, (EnglishG2p.call_loop g words prons r).1 = Ok out.
Proof.
  intros Hne Hwords. revert prons r.
  induction Hwords as [|[word without_changes] words Hw _ IH]; intros prons r; simpl.
  - by eexists.
  - destruct without_changes; [apply IH|].
    destruct Hw as [? | Hw]; [done|]. simpl in Hw.
    destruct word as [|word_str rest]; [done|].
    destruct (english_call_word_total g word_str rest r Hne) as [pron Hp].
    destruct (EnglishG2p.call_word g (word_str :: rest) r) as [res r'].
    simpl in Hp. subst res. apply IH.
Qed.
End total_facts.

Section ipa_total_facts.
Context `{StrOps, DataUtils}.
Import IPAG2P.

Lemma ipa_ambiguity_total g word :
  dict_mem (phoneme_dict g) word = true → ∃ b, ambiguity_ok g word = Ok b.
Proof.
  intros Hm. apply dict_mem_true in Hm as [prons Hd].
  rewrite (ipa_ambiguity_ok _ _ _ Hd). by eexists.
Qed.

Lemma ipa_first_pron_total g word :
  (∀ k, dict_get (phoneme_dict g) k ≠ Some []) →
  dict_mem (phoneme_dict g) word = true →
  ∃ p, first_pron g word = Ok p.
Proof.
  intros Hne Hm. apply dict_mem_true in Hm as [prons Hd].
  destruct prons as [|p prons]; [by apply Hne in Hd|].
  rewrite (ipa_first_pron _ _ _ _ Hd). by eexists.
Qed.

Lemma word_found_Some g word stem wf :
  word_found g word stem = Some wf →
  dict_mem (phoneme_dict g) wf = true ∧ (wf = stem ∨ wf = upper stem).
Proof.
  unfold word_found. destruct (_ && _); [|done].
  destruct (dict_mem (phoneme_dict g) stem) eqn:Hs.
  - intros [= <-]. by split; [|left].
  - destruct (dict_mem (phoneme_dict g) (upper stem)) eqn:Hu; [|done].
    intros [= <-]. by split; [|right].
Qed.

Lemma last_char_total (w : pystr) : w ≠ [] → ∃ c, last_char w = Ok c.
Proof.
  intros Hne. unfold last_char. destruct (last w) as [c|] eqn:Hl; [by eexists|].
  by apply last_None in Hl.
Qed.

Lemma apostrophe_s_rule_total g w :
  (∀ k, dict_get (phoneme_dict g) k ≠ Some []) →
  (∀ s : pystr, s ≠ [] → upper s ≠ []) →
  ∃ o, apostrophe_s_rule g w = Ok o.
Proof.
  intros Hne Hupper. unfold apostrophe_s_rule.
  destruct (bool_decide (2 < length w)) eqn:Hlen; simpl; [|by eexists].
  apply bool_decide_eq_true in Hlen.
  destruct (_ || _); [|by eexists].
  destruct (word_found g w (drop_last 2 w)) as [wf|] eqn:Hwf; [|by eexists].
  apply word_found_Some in Hwf as [Hm Hstem].
  destruct (ipa_ambiguity_total _ _ Hm) as [b ->]. simpl.
  destruct b; [|by eexists].
  assert (wf ≠ []) as Hwfne.
  { pose proof (drop_last_nonempty 2 w Hlen).
    destruct Hstem as [-> | ->]; [done | by apply Hupper]. }
  destruct (last_char_total _ Hwfne) as [c ->]. simpl.
  destruct (ipa_first_pron_total _ _ Hne Hm) as [p ->]. simpl.
  repeat case_match; by eexists.
Qed.

Lemma s_rule_total g w :
  (∀ k, dict_get (phoneme_dict g) k ≠ Some []) →
  (∀ s : pystr, s ≠ [] → upper s ≠ []) →
  ∃ o, s_rule g w = Ok o.
Proof.
  intros Hne Hupper. unfold s_rule.
  destruct (bool_decide (1 < length w)) eqn:Hlen; simpl; [|by eexists].
  apply bool_decide_eq_true in Hlen.
  destruct (_ || _); [|by eexists].
  destruct (word_found g w (drop_last 1 w)) as [wf|] eqn:Hwf; [|by eexists].
  apply word_found_Some in Hwf as [Hm Hstem].
  destruct (ipa_ambiguity_total _ _ Hm) as [b ->]. simpl.
  destruct b; [|by eexists].
  assert (wf ≠ []) as Hwfne.
  { pose proof (drop_last_nonempty 1 w Hlen).
    destruct Hstem as [-> | ->]; [done | by apply Hupper]. }
  destruct (last_char_total _ Hwfne) as [c ->]. simpl.
  destruct (ipa_first_pron_total _ _ Hne Hm) as [p ->]. simpl.
  repeat case_match; by eexists.
Qed.

Lemma ipa_attempt_total g (cond : bool) k (rest : result (pron * bool)) :
  (∀ k, dict_get (phoneme_dict g) k ≠ Some []) →
  (cond = true → dict_mem (phoneme_dict g) k = true) →
  (∃ res, rest = Ok res) →
  ∃ res,
    rbind (if cond then ambiguity_ok g k else Ok false)
          (λ c, if c then rbind (first_pron g k) (λ p, Ok (PList p, true))
                else rest)
    = Ok res.
Proof.
  intros Hne Hcond Hrest. destruct cond; [|done].
  specialize (Hcond eq_refl).
  destruct (ipa_ambiguity_total _ _ Hcond) as [b ->]. simpl.
  destruct b; [|done].
  destruct (ipa_first_pron_total _ _ Hne Hcond) as [p ->]. by eexists.
Qed.

Lemma ipa_rules_total g w :
  (∀ k, dict_get (phoneme_dict g) k ≠ Some []) →
  (∀ s : pystr, s ≠ [] → upper s ≠ []) →
  ∃ res, lookup_rules g w = Ok res.
Proof.
  intros Hne Hupper. unfold lookup_rules.
  destruct (apostrophe_s_rule_total g w Hne Hupper) as [o1 H1].
  destruct (s_rule_total g w Hne Hupper) as [o2 H2].
  assert (∃ o, (if bool_decide (locale g = Some (py "en-US"))
                then apostrophe_s_rule g w else Ok None) = Ok o) as [o ->].
  { case_bool_decide; by eexists. }
  simpl. destruct o as [res|]; [by eexists|].
  assert (∃ o, (if bool_decide (locale g = Some (py "en-US"))
                then s_rule g w else Ok None) = Ok o) as [o ->].
  { case_bool_decide; by eexists. }
  simpl. destruct o as [res|]; [by eexists|].
  apply ipa_attempt_total; [done | done |].
  apply ipa_attempt_total; [done | |].
  { intros Hc. by apply andb_true_iff in Hc as [_ ?]. }
  destruct (apply_to_oov_word g); by eexists.
Qed.

Lemma ipa_parse_total g word r :
  (∀ k, dict_get (phoneme_dict g) k ≠ Some []) →
  (∀ s : pystr, s ≠ [] → upper s ≠ []) →
  ∃ res, (parse_one_word g word r).1 = Ok res.
Proof.
  intros Hne Hupper. unfold parse_one_word.
  destruct (negb (existsb CHAR_REGEX _)); [by eexists|].
  destruct (match phoneme_probability g with
            | Some p => let '(x, r') := random r in (negb (Qle_bool x p), r')
            | None => (false, r)
            end) as [keep r1].
  destruct keep; [by eexists|].
  destruct (match heteronyms g with
            | Some hs => bool_decide (hs ≠ ∅) && bool_decide (_ ∈ hs)
            | None => false
            end); [by eexists|].
  apply ipa_rules_total; done.
Qed.

Lemma ipa_call_word_total g word r :
  (∀ k, dict_get (phoneme_dict g) k ≠ Some []) →
  (∀ s : pystr, s ≠ [] → upper s ≠ []) →
  ∃ out, (call_word g [word] r).1 = Ok out.
Proof.
  intros Hne Hupper. unfold call_word.
  destruct (ipa_parse_total g word r Hne Hupper) as [[pron status] Hp].
  destruct (parse_one_word g word r) as [res r'].
  simpl in Hp. subst res.
  destruct (negb status && bool_decide (1 < length (split_on 45%N word)))
    eqn:Hsplit; [|by eexists].
  apply andb_true_iff in Hsplit as [_ Hlen]. apply bool_decide_eq_true in Hlen.
  rewrite (ipa_hyphen_fallback _ _ _ Hlen).
  destruct (parse_each_total (parse_one_word g) (split_on 45%N word) r')
    as [ps Hps].
  { intros s r0. by apply ipa_parse_total. }
  destruct (parse_each _ _ r') as [res r'']. simpl in Hps. subst res. by eexists.
Qed.

Lemma ipa_call_loop_total g words prons r :
  (∀ k, dict_get (phoneme_dict g) k ≠ Some []) →
  (∀ s : pystr, s ≠ [] → upper s ≠ []) →
  Forall (λ token : list pystr * bool, token.2 = true ∨ ∃ word, token.1 = [word])
         words →
  ∃ out, (call_loop g words prons r).1 = Ok out.
Proof.
  intros Hne Hupper Hwords. revert prons r.
  induction Hwords as [|[ws without_changes] words Hw _ IH]; intros prons r; simpl.
  - by eexists.
  - destruct without_changes; [apply IH|].
    destruct Hw as [? | [word Hw]]; [done|]. simpl in Hw. subst ws.
    destruct (ipa_call_word_total g word r Hne Hupper) as [pron Hp].
    destruct (call_word g [word] r) as [res r'].
    simpl in Hp. subst res. apply IH.
Qed.
End ipa_total_facts.

Section total_claims.
Context `{StrOps, DataUtils}.

(** X4. The word rules raise nothing as long as no key of the dictionary
    has an empty list of pronunciations: [__call__] then returns a list
    for every text, whatever the random draws, provided the tokenizer
    gives every word to be changed at least one string ([EnglishG2p]
    reads [word[0]]) or exactly one ([IPAG2P] asserts it). For [IPAG2P]
    the upper-case form of a non-empty string is taken to be non-empty
    ([word_found[-1]] is read). *)
Theorem X4_call_raises_nothing :
  (∀ (g : EnglishG2p.t) (text : pystr) (r : rng),
      (∀ k, dict_get (EnglishG2p.phoneme_dict g) k ≠ Some []) →
      Forall (λ token : list pystr * bool, token.2 = true ∨ token.1 ≠ [])
             (EnglishG2p.word_tokenize_func g text) →
      ∃ out, (EnglishG2p.call g text r).1 = Ok out)
  ∧ (∀ (g : IPAG2P.t) (text : pystr) (r : rng),
        (∀ k, dict_get (IPAG2P.phoneme_dict g) k ≠ Some []) →
        (∀ s : pystr, s ≠ [] → upper s ≠ []) →
        (∀ t, Forall (λ token : list pystr * bool,
                        token.2 = true ∨ ∃ word, token.1 = [word])
                     (IPAG2P.word_tokenize_func g t)) →
        ∃ out, (IPAG2P.call g text r).1 = Ok out).
Proof.
  split.
  - intros g text r Hne Htok. by apply english_call_loop_total.
  - intros g text r Hne Hupper Htok. by apply ipa_call_loop_total.
Qed.
End total_claims.

(** * Mixed case, unchanged tokens and the loops of [__call__] *)

Lemma join_hyphen_split (w : pystr) :
  join_hyphen (map list_chars (split_on 45%N w)) = list_chars w.
Proof.
  induction w as [|c w IH]; [done|]. simpl. case_bool_decide as Hc.
  - subst c. simpl. rewrite <- IH.
    pose proof (split_on_nonempty 45%N w).
    by destruct (split_on 45%N w).
  - pose proof (split_on_nonempty 45%N w) as Hne.
    destruct (split_on 45%N w) as [|p ps]; [done|].
    simpl in *. rewrite <- IH. by destruct ps.
Qed.

Section call_facts.
Context `{StrOps, DataUtils}.

Lemma ipa_mixed_word_found g w stem :
  dict_mem (IPAG2P.phoneme_dict g) (upper w) = true →
  IPAG2P.word_found g w stem = None.
Proof. unfold IPAG2P.word_found. intros ->. by rewrite andb_false_r. Qed.

Lemma ipa_mixed_lookup g w prons :
  IPAG2P.grapheme_case g = Some GRAPHEME_CASE_MIXED →
  dict_get (IPAG2P.phoneme_dict g) w = None →
  dict_get (IPAG2P.phoneme_dict g) (upper w) = Some prons →
  IPAG2P.lookup_rules g w
  = if negb (IPAG2P.ignore_ambiguous_words g) || bool_decide (length prons = 1)
    then rbind (IPAG2P.first_pron g (upper w)) (λ p, Ok (PList p, true))
    else match IPAG2P.apply_to_oov_word g with
         | Some f => Ok (f (upper w), true)
         | None => Ok (PList (IPAG2P._prepend_prefix_for_one_word
                                (IPAG2P.grapheme_prefix g) (upper w)), false)
         end.
Proof.
  intros Hcase Hw Hu. unfold IPAG2P.lookup_rules.
  pose proof (dict_mem_Some _ _ _ Hu) as Hmu.
  assert (IPAG2P.apostrophe_s_rule g w = Ok None) as ->.
  { unfold IPAG2P.apostrophe_s_rule. rewrite (ipa_mixed_word_found _ _ _ Hmu).
    by case_match. }
  assert (IPAG2P.s_rule g w = Ok None) as ->.
  { unfold IPAG2P.s_rule. rewrite (ipa_mixed_word_found _ _ _ Hmu). by case_match. }
  rewrite (dict_mem_None _ _ Hw), Hmu, Hcase.
  rewrite (bool_decide_eq_true_2 (Some GRAPHEME_CASE_MIXED = Some GRAPHEME_CASE_MIXED))
    by done.
  rewrite (ipa_ambiguity_ok _ _ _ Hu).
  destruct (bool_decide (IPAG2P.locale g = Some (py "en-US"))); simpl;
    by destruct (negb (IPAG2P.ignore_ambiguous_words g)
                 || bool_decide (length prons = 1)).
Qed.

(** X5. With [grapheme_case] mixed, a word that is not a key while its
    upper-case form is one is looked up in upper case, in every locale
    (the en-US suffix rules do not apply to it): it gets the first
    pronunciation of the upper-case key if that key is unique or ambiguous
    words are not ignored; otherwise it is the upper-case form, not the
    word as written, that goes to the OOV function or comes back as
    graphemes with status [False]. *)
Theorem X5_mixed_case_lookup :
  ∀ (g : IPAG2P.t) (word : pystr) (prons : list (list pystr)) (r : rng),
    let w := set_grapheme_case word (IPAG2P.grapheme_case g) in
    IPAG2P.grapheme_case g = Some GRAPHEME_CASE_MIXED →
    IPAG2P.phoneme_probability g = None →
    existsb IPAG2P.CHAR_REGEX w = true →
    (∀ hs, IPAG2P.heteronyms g = Some hs → w ∉ hs) →
    dict_get (IPAG2P.phoneme_dict g) w = None →
    dict_get (IPAG2P.phoneme_dict g) (upper w) = Some prons →
    (∀ p rest, prons = p :: rest →
               IPAG2P.ignore_ambiguous_words g = false ∨ rest = [] →
               IPAG2P.parse_one_word g word r = (Ok (PList p, true), r))
    ∧ (IPAG2P.ignore_ambiguous_words g = true → length prons ≠ 1 →
       IPAG2P.parse_one_word g word r
       = (match IPAG2P.apply_to_oov_word g with
          | Some f => Ok (f (upper w), true)
          | None => Ok (PList (IPAG2P._prepend_prefix_for_one_word
                                 (IPAG2P.grapheme_prefix g) (upper w)), false)
          end, r)).
Proof.
  intros g word prons r w Hcase Hp Hc Hh Hw Hu.
  rewrite (ipa_reaches_lookup _ _ _ Hp Hc Hh). fold w.
  rewrite (ipa_mixed_lookup _ _ _ Hcase Hw Hu).
  split.
  - intros p rest -> Ha.
    assert (negb (IPAG2P.ignore_ambiguous_words g)
            || bool_decide (length (p :: rest) = 1) = true) as ->.
    { destruct Ha as [-> | ->]; [done | apply orb_true_r]. }
    by rewrite (ipa_first_pron _ _ _ _ Hu).
  - intros -> Hlen. simpl. by rewrite bool_decide_eq_false_2.
Qed.

Lemma english_call_loop_app g ws1 ws2 prons r :
  EnglishG2p.call_loop g (ws1 ++ ws2) prons r
  = match EnglishG2p.call_loop g ws1 prons r with
    | (Ok prons', r') => EnglishG2p.call_loop g ws2 prons' r'
    | (Raise e, r') => (Raise e, r')
    end.
Proof.
  revert prons r. induction ws1 as [|[word without_changes] ws1 IH]; intros prons r;
    simpl; [done|].
  destruct without_changes; [apply IH|].
  destruct (EnglishG2p.call_word g word r) as [[pron|e] r']; [apply IH | done].
Qed.

Lemma ipa_call_loop_app g ws1 ws2 prons r :
  IPAG2P.call_loop g (ws1 ++ ws2) prons r
  = match IPAG2P.call_loop g ws1 prons r with
    | (Ok prons', r') => IPAG2P.call_loop g ws2 prons' r'
    | (Raise e, r') => (Raise e, r')
    end.
Proof.
  revert prons r. induction ws1 as [|[word without_changes] ws1 IH]; intros prons r;
    simpl; [done|].
  destruct without_changes; [apply IH|].
  destruct (IPAG2P.call_word g word r) as [[pron|e] r']; [apply IH | done].
Qed.

Lemma english_call_loop_acc g ws prons r :
  EnglishG2p.call_loop g ws prons r
  = match EnglishG2p.call_loop g ws [] r with
    | (Ok out, r') => (Ok (prons ++ out), r')
    | (Raise e, r') => (Raise e, r')
    end.
Proof.
  revert prons r. induction ws as [|[word without_changes] ws IH]; intros prons r;
    simpl; [by rewrite app_nil_r|].
  destruct without_changes.
  - rewrite (IH (prons ++ word)), (IH word).
    destruct (EnglishG2p.call_loop g ws [] r) as [[out|e] r']; [|done].
    by rewrite app_assoc.
  - destruct (EnglishG2p.call_word g word r) as [[pron|e] r']; [|done].
    rewrite (IH (prons ++ pron)), (IH pron).
    destruct (EnglishG2p.call_loop g ws [] r') as [[out|e] r'']; [|done].
    by rewrite app_assoc.
Qed.

Lemma ipa_call_loop_acc g ws prons r :
  IPAG2P.call_loop g ws prons r
  = match IPAG2P.call_loop g ws [] r with
    | (Ok out, r') => (Ok (prons ++ out), r')
    | (Raise e, r') => (Raise e, r')
    end.
Proof.
  revert prons r. induction ws as [|[word without_changes] ws IH]; intros prons r;
    simpl; [by rewrite app_nil_r|].
  destruct without_changes.
  - rewrite (IH (prons ++ _)), (IH (map _ word)).
    destruct (IPAG2P.call_loop g ws [] r) as [[out|e] r']; [|done].
    by rewrite app_assoc.
  - destruct (IPAG2P.call_word g word r) as [[pron|e] r']; [|done].
    rewrite (IH (prons ++ pron)), (IH pron).
    destruct (IPAG2P.call_loop g ws [] r') as [[out|e] r'']; [|done].
    by rewrite app_assoc.
Qed.

(** X6. The output of [__call__] is put together token by token: for a
    token list [ws1 ++ ws2] the loop returns the output for [ws1] followed
    by the output for [ws2], the second part computed on the generator
    the first has left; an exception in the first part is the result and
    the second part is not run. *)
Theorem X6_call_loop_concatenates :
  (∀ (g : EnglishG2p.t) (ws1 ws2 : list (list pystr * bool)) (r : rng),
      EnglishG2p.call_loop g (ws1 ++ ws2) [] r
      = match EnglishG2p.call_loop g ws1 [] r with
        | (Ok out1, r') =>
            match EnglishG2p.call_loop g ws2 [] r' with
            | (Ok out2, r'') => (Ok (out1 ++ out2), r'')
            | (Raise e, r'') => (Raise e, r'')
            end
        | (Raise e, r') => (Raise e, r')
        end)
  ∧ (∀ (g : IPAG2P.t) (ws1 ws2 : list (list pystr * bool)) (r : rng),
        IPAG2P.call_loop g (ws1 ++ ws2) [] r
        = match IPAG2P.call_loop g ws1 [] r with
          | (Ok out1, r') =>
              match IPAG2P.call_loop g ws2 [] r' with
              | (Ok out2, r'') => (Ok (out1 ++ out2), r'')
              | (Raise e, r'') => (Raise e, r'')
              end
          | (Raise e, r') => (Raise e, r')
          end).
Proof.
  split.
  - intros g ws1 ws2 r. rewrite english_call_loop_app.
    destruct (EnglishG2p.call_loop g ws1 [] r) as [[out1|e] r']; [|done].
    apply english_call_loop_acc.
  - intros g ws1 ws2 r. rewrite ipa_call_loop_app.
    destruct (IPAG2P.call_loop g ws1 [] r) as [[out1|e] r']; [|done].
    apply ipa_call_loop_acc.
Qed.

(** X7. Tokens the tokenizer marks as unchangeable are copied to the
    output and nothing is drawn for them, whatever the configuration:
    [EnglishG2p] copies their strings as they are, [IPAG2P] puts the
    grapheme prefix before each of them. *)
Theorem X7_unchangeable_tokens_are_copied :
  (∀ (g : EnglishG2p.t) (text : pystr) (r : rng),
      Forall (λ token : list pystr * bool, token.2 = true)
             (EnglishG2p.word_tokenize_func g text) →
      EnglishG2p.call g text r
      = (Ok (concat (map fst (EnglishG2p.word_tokenize_func g text))), r))
  ∧ (∀ (g : IPAG2P.t) (text : pystr) (r : rng),
        IPAG2P.heteronym_model g = None →
        Forall (λ token : list pystr * bool, token.2 = true)
               (IPAG2P.word_tokenize_func g (normalize_unicode_text text)) →
        IPAG2P.call g text r
        = (Ok (concat (map (λ token : list pystr * bool,
                              map (λ word, IPAG2P.grapheme_prefix g ++ word) token.1)
                           (IPAG2P.word_tokenize_func g (normalize_unicode_text text)))),
           r)).
Proof.
  split.
  - intros g text r Hall. unfold EnglishG2p.call.
    induction Hall as [|[word wc] ws Hw _ IH]; [done|].
    simpl in Hw. subst wc. simpl.
    rewrite english_call_loop_acc, IH. done.
  - intros g text r Hmodel Hall. unfold IPAG2P.call. rewrite Hmodel.
    induction Hall as [|[word wc] ws Hw _ IH]; [done|].
    simpl in Hw. subst wc. simpl.
    rewrite ipa_call_loop_acc, IH. done.
Qed.

(** A word the rules leave as it is comes back as it is under every
    generator: a draw above the probability keeps it too. *)
Lemma english_parse_kept (g : EnglishG2p.t) (word : pystr) (b : bool) (r : rng) :
  EnglishG2p.parse_rules g word = Ok (PStr word, b) →
  ∃ b', (EnglishG2p.parse_one_word g word r).1 = Ok (PStr word, b').
Proof.
  intros Hrules. unfold EnglishG2p.parse_one_word, random. rewrite Hrules.
  destruct (EnglishG2p.phoneme_probability g) as [q|]; [|by eexists].
  destruct (negb (Qle_bool (r 0) q)); by eexists.
Qed.

Lemma parse_each_graphemes (g : EnglishG2p.t) (subs : list pystr) (r : rng) :
  (∀ sub r', sub ∈ subs →
             ∃ p b, (EnglishG2p.parse_one_word g sub r').1 = Ok (p, b)
                    ∧ (p = PStr sub ∨ p = PList (map (λ c, [c]) sub))) →
  ∃ ps r', parse_each (EnglishG2p.parse_one_word g) subs r = (Ok ps, r')
           ∧ map extend ps = map list_chars subs.
Proof.
  revert r. induction subs as [|sub subs IH]; intros r Hsubs.
  - by exists [], r.
  - destruct (Hsubs sub r) as (p & b & Hsub & Hp); [apply elem_of_cons; by left|].
    simpl. destruct (EnglishG2p.parse_one_word g sub r) as [res r1].
    simpl in Hsub. subst res.
    destruct (IH r1) as (ps & r2 & -> & Hmap).
    { intros s r' Hs. apply Hsubs. apply elem_of_cons. by right. }
    exists (p :: ps), r2. split; [done|]. simpl. rewrite Hmap.
    by destruct Hp as [-> | ->].
Qed.

(** X8. The hyphen fallback of [EnglishG2p] loses nothing: when the whole
    word is not handled and every sub-word comes back in grapheme form
    whatever is drawn for it, as itself (unknown words and heteronyms) or
    as the list of its characters (punctuation), what [__call__] appends
    is the list of the characters of the word, hyphens included. This
    holds with or without a phoneme probability, the generator being
    handed from one sub-word to the next. *)
Theorem X8_hyphen_fallback_keeps_the_graphemes :
  ∀ (g : EnglishG2p.t) (word_str : pystr) (rest : list pystr) (pron : pron) (r : rng),
    (EnglishG2p.parse_one_word g word_str r).1 = Ok (pron, false) →
    (∀ sub r', sub ∈ split_on 45%N word_str →
               ∃ p b, (EnglishG2p.parse_one_word g sub r').1 = Ok (p, b)
                      ∧ (p = PStr sub ∨ p = PList (map (λ c, [c]) sub))) →
    (EnglishG2p.call_word g (word_str :: rest) r).1
    = Ok (map (λ c, [c]) word_str).
Proof.
  intros g word_str rest pron r Hparse Hsubs.
  unfold EnglishG2p.call_word.
  destruct (EnglishG2p.parse_one_word g word_str r) as [res r1] eqn:Hword.
  simpl in Hparse. subst res. simpl.
  destruct (bool_decide (1 < length (split_on 45%N word_str))) eqn:Hlen.
  2:{ apply english_parse_unhandled in Hword as [_ ->]. done. }
  apply bool_decide_eq_true in Hlen.
  rewrite (english_hyphen_fallback _ _ _ Hlen).
  destruct (parse_each_graphemes g (split_on 45%N word_str) r1 Hsubs)
    as (ps & r2 & -> & Hps).
  simpl. by rewrite Hps, join_hyphen_split.
Qed.
End call_facts.

(** * The dictionary and the symbols of [IPAG2P] *)

Lemma dict_get_elem {V} (d : pydict V) k v : dict_get d k = Some v → (k, v) ∈ d.
Proof.
  induction d as [|[k' v'] d IH]; simpl; [done|].
  case_bool_decide as Hk.
  - intros [= <-]. subst k'. apply elem_of_cons. by left.
  - intros Hd. apply elem_of_cons. right. by apply IH.
Qed.

Lemma dict_mem_set {V} (d : pydict V) k k' v :
  dict_mem (dict_set d k' v) k = bool_decide (k' = k) || dict_mem d k.
Proof. unfold dict_mem. rewrite dict_get_set. by case_bool_decide. Qed.

Section ipa_symbols.
Context `{StrOps, DataUtils}.
Import IPAG2P.

Lemma parse_phoneme_dict_mem (d : phoneme_dict_t) word prons :
  (word, prons) ∈ d →
  dict_mem (_parse_phoneme_dict d) (normalize_unicode_text word) = true.
Proof.
  unfold _parse_phoneme_dict. generalize ([] : phoneme_dict_t).
  induction d as [|[w p] d IH]; intros acc Hin; [by apply elem_of_nil in Hin|].
  apply elem_of_cons in Hin as [[= <- <-] | Hin]; simpl; [|by apply IH].
  apply (foldl_invariant
           (λ acc : phoneme_dict_t, dict_mem acc (normalize_unicode_text word) = true)).
  - rewrite dict_mem_set. by rewrite bool_decide_eq_true_2.
  - intros a [w' p'] _ Ha. rewrite dict_mem_set, Ha. apply orb_true_r.
Qed.

Lemma normalize_entry_mem_mono case use_chars use_stresses prefix acc word_new
      prons k :
  dict_mem acc.1 k = true →
  dict_mem (normalize_entry case use_chars use_stresses prefix acc word_new prons).1 k
  = true.
Proof.
  destruct acc as [g2p_dict syms]. unfold normalize_entry.
  simpl. intros Hk.
  destruct (_ && _); simpl; rewrite ?dict_mem_set, Hk; by rewrite ?orb_true_r.
Qed.

Lemma normalize_dict_mem_mono case use_chars use_stresses prefix
      (d : phoneme_dict_t) acc k :
  dict_mem acc.1 k = true →
  dict_mem (foldl (λ acc '(word, prons),
                     normalize_entry case use_chars use_stresses prefix acc
                                     (set_grapheme_case word case) prons)
                  acc d).1 k = true.
Proof.
  intros Hk.
  apply (foldl_invariant
           (λ acc : phoneme_dict_t * gset pystr, dict_mem acc.1 k = true)); [done|].
  intros a [w p] _. apply normalize_entry_mem_mono.
Qed.

(** Every word of the dictionary given is a key of the normalized one,
    in the configured case, and also in upper case when the case is mixed
    and the word is not in upper case already. *)
Lemma normalize_dict_mem case use_chars use_stresses prefix (d : phoneme_dict_t)
      word prons :
  (word, prons) ∈ d →
  let word_new := set_grapheme_case word case in
  dict_mem (normalized case use_chars use_stresses prefix d).1 word_new = true
  ∧ (case = Some GRAPHEME_CASE_MIXED → isupper word_new = false →
     dict_mem (normalized case use_chars use_stresses prefix d).1
              (upper word_new) = true).
Proof.
  unfold normalized. generalize (([], ∅) : phoneme_dict_t * gset pystr).
  induction d as [|[w p] d IH]; intros acc Hin; [by apply elem_of_nil in Hin|].
  apply elem_of_cons in Hin as [[= <- <-] | Hin]; simpl; [|by apply IH].
  split.
  - apply normalize_dict_mem_mono. destruct acc as [g2p_dict syms].
    unfold normalize_entry. simpl.
    destruct (_ && _); simpl; rewrite ?dict_mem_set;
      rewrite (bool_decide_eq_true_2 (set_grapheme_case word case
                                      = set_grapheme_case word case)) by done;
      by rewrite ?orb_true_r.
  - intros Hcase Hupper. apply normalize_dict_mem_mono. destruct acc as [g2p_dict syms].
    unfold normalize_entry. simpl.
    rewrite Hupper, bool_decide_eq_true_2 by done. simpl.
    rewrite dict_mem_set. by rewrite bool_decide_eq_true_2.
Qed.

Lemma normalize_entry_symbols_mono case use_chars use_stresses prefix acc word_new
      prons s :
  s ∈ acc.2 →
  s ∈ (normalize_entry case use_chars use_stresses prefix acc word_new prons).2.
Proof.
  destruct acc as [g2p_dict syms]. unfold normalize_entry.
  simpl. intros Hs. rewrite foldl_union_elem. left.
  destruct use_chars; [apply elem_of_union; by left | done].
Qed.

(** The symbols collected hold every symbol of every stored
    pronunciation. *)
Lemma normalize_dict_symbols_cover case use_chars use_stresses prefix
      (d : phoneme_dict_t) k prons pron s :
  dict_get (normalized case use_chars use_stresses prefix d).1 k = Some prons →
  pron ∈ prons → s ∈ pron →
  s ∈ (normalized case use_chars use_stresses prefix d).2.
Proof.
  unfold normalized. revert k prons pron s.
  apply (foldl_invariant
           (λ acc : phoneme_dict_t * gset pystr,
              ∀ k prons pron s,
                dict_get acc.1 k = Some prons → pron ∈ prons → s ∈ pron → s ∈ acc.2)).
  - intros k prons pron s Hk. done.
  - intros [g2p_dict syms] [word prons0] _ IH k prons pron s Hk Hpron Hs.
    assert (dict_get g2p_dict k = Some prons
            ∨ prons = (if negb use_stresses
                       then map (λ pron, filter (λ symbol, symbol ∉ STRESS_SYMBOLS) pron)
                                prons0
                       else prons0)) as [Hold | Hnew].
    { revert Hk. unfold normalize_entry. simpl.
      destruct (_ && _); simpl; rewrite ?dict_get_set;
        repeat case_bool_decide; intros Hk; simplify_eq; eauto. }
    + apply normalize_entry_symbols_mono. by eapply IH.
    + subst prons. unfold normalize_entry. simpl.
      rewrite foldl_union_elem. right. eauto.
Qed.

(** With [use_chars], the prefixed graphemes of every word given are
    among the symbols. *)
Lemma normalize_dict_graphemes case use_stresses prefix (d : phoneme_dict_t)
      word prons c :
  (word, prons) ∈ d →
  c ∈ set_grapheme_case word case → CHAR_REGEX c = true →
  prefix ++ [c] ∈ (normalized case true use_stresses prefix d).2.
Proof.
  unfold normalized. generalize (([], ∅) : phoneme_dict_t * gset pystr).
  induction d as [|[w p] d IH]; intros acc Hin Hc Hchar;
    [by apply elem_of_nil in Hin|].
  apply elem_of_cons in Hin as [[= <- <-] | Hin]; simpl; [|by apply IH].
  apply (foldl_invariant
           (λ acc : phoneme_dict_t * gset pystr, prefix ++ [c] ∈ acc.2)).
  - destruct acc as [g2p_dict syms]. unfold normalize_entry. simpl.
    assert (prefix ++ [c]
            ∈ syms ∪ list_to_set
                       (_prepend_prefix_for_one_word
                          prefix (filter (λ c, PUNCT_REGEX c = false)
                                         (set_grapheme_case word case)))) as Hg.
    { apply elem_of_union. right. apply elem_of_list_to_set.
      unfold _prepend_prefix_for_one_word. apply list_elem_of_fmap.
      exists c. split; [done|]. apply list_elem_of_filter. split; [|done].
      unfold PUNCT_REGEX. by rewrite Hchar. }
    rewrite foldl_union_elem. by left.
  - intros a [w' p'] _. apply normalize_entry_symbols_mono.
Qed.

(** X9. Every word of the dictionary given to the constructor can be
    looked up afterwards: its NFC form in the configured case is a key of
    [phoneme_dict], and when the case is mixed and that form is not in
    upper case, its upper-case form is a key as well. *)
Theorem X9_every_given_word_is_a_key :
  ∀ phoneme_dict locale oov ignore hets use_chars prob use_stresses case prefix
    mapping (g : t) (word : pystr) (prons : list (list pystr)),
    init phoneme_dict locale oov ignore hets use_chars prob use_stresses case
         prefix mapping = Ok g →
    (word, prons) ∈ phoneme_dict →
    let word_new := set_grapheme_case (normalize_unicode_text word) case in
    dict_mem (IPAG2P.phoneme_dict g) word_new = true
    ∧ (case = Some GRAPHEME_CASE_MIXED → isupper word_new = false →
       dict_mem (IPAG2P.phoneme_dict g) (upper word_new) = true).
Proof.
  intros phoneme_dict locale oov ignore hets use_chars prob use_stresses case
         prefix mapping g word prons Hg Hin.
  destruct (init_attributes _ _ _ _ _ _ _ _ _ _ _ _ Hg) as (Hn & _).
  apply parse_phoneme_dict_mem in Hin. apply dict_mem_true in Hin as [prons' Hin].
  apply dict_get_elem in Hin.
  pose proof (f_equal fst Hn) as Hd. simpl in Hd. rewrite Hd.
  by eapply normalize_dict_mem.
Qed.

(** X10. The symbols set of a constructed object covers what the
    dictionary can answer: every symbol of every stored pronunciation is
    in it, and, when [use_chars] is in force, so is every prefixed
    grapheme (a character of the class of [CHAR_REGEX]) of every word
    given, in the configured case. *)
Theorem X10_symbols_cover_the_dictionary :
  ∀ phoneme_dict locale oov ignore hets use_chars prob use_stresses case prefix
    mapping (g : t),
    init phoneme_dict locale oov ignore hets use_chars prob use_stresses case
         prefix mapping = Ok g →
    (∀ k prons pron s,
        dict_get (IPAG2P.phoneme_dict g) k = Some prons → pron ∈ prons → s ∈ pron →
        s ∈ symbols g)
    ∧ (IPAG2P.use_chars g = true →
       ∀ word prons c,
         (word, prons) ∈ phoneme_dict →
         c ∈ set_grapheme_case (normalize_unicode_text word) case →
         CHAR_REGEX c = true →
         prefix ++ [c] ∈ symbols g).
Proof.
  intros phoneme_dict locale oov ignore hets use_chars prob use_stresses case
         prefix mapping g Hg.
  destruct (init_attributes _ _ _ _ _ _ _ _ _ _ _ _ Hg) as (Hn & _).
  assert (IPAG2P.use_chars g
          = if negb use_chars && bool_decide (is_Some prob) then true else use_chars)
    as Huc.
  { by apply init_record in Hg as (_ & _ & ->). }
  pose proof (f_equal fst Hn) as Hd. pose proof (f_equal snd Hn) as Hs.
  simpl in Hd, Hs. rewrite Hd, Hs. split.
  - intros k prons pron s. apply normalize_dict_symbols_cover.
  - rewrite Huc. intros -> word prons c Hin Hc Hchar.
    apply parse_phoneme_dict_mem in Hin. apply dict_mem_true in Hin as [prons' Hin].
    apply dict_get_elem in Hin. by eapply normalize_dict_graphemes.
Qed.

End ipa_symbols.

(** * A phoneme probability of one *)

(** Two parsers that agree as long as the draws of the first stay at most
    [p] agree on a list of sub-words. *)
Lemma parse_each_agree (p : Q) parse1 parse0 subs :
  (∀ w r r0, draws_le p r →
             (parse1 w r).1 = (parse0 w r0).1 ∧ draws_le p (parse1 w r).2) →
  rng_free_all parse0 →
  ∀ r r0, draws_le p r →
          (parse_each parse1 subs r).1 = (parse_each parse0 subs r0).1
          ∧ draws_le p (parse_each parse1 subs r).2.
Proof.
  intros Hagree Hfree. induction subs as [|s subs IH]; intros r r0 Hr; simpl; [done|].
  destruct (Hagree s r r0 Hr) as [H1 H2].
  pose proof (Hfree s r0 r0) as H0.
  destruct (parse1 s r) as [res1 r1], (parse0 s r0) as [res0 r0'].
  simpl in *. injection H0 as ->. subst res0.
  destruct res1 as [[p1 b1]|e]; [|done].
  destruct (IH r1 r0 H2) as [H3 H4].
  destruct (parse_each parse1 subs r1) as [res1 r1'],
           (parse_each parse0 subs r0) as [res0 r0''].
  simpl in *. subst res0. by destruct res1.
Qed.

Section probability_one.
Context `{StrOps, DataUtils, Nltk}.

Lemma english_parse_agree g1 g0 p :
  EnglishG2p.phoneme_probability g1 = Some p →
  EnglishG2p.phoneme_probability g0 = None →
  (∀ w, EnglishG2p.parse_rules g1 w = EnglishG2p.parse_rules g0 w) →
  ∀ w r r0, draws_le p r →
    (EnglishG2p.parse_one_word g1 w r).1 = (EnglishG2p.parse_one_word g0 w r0).1
    ∧ draws_le p (EnglishG2p.parse_one_word g1 w r).2.
Proof.
  intros Hp1 Hp0 Hrules w r r0 Hr. unfold EnglishG2p.parse_one_word, random.
  rewrite Hp1, Hp0, (Hr 0). simpl. split; [apply Hrules|].
  intros n. apply Hr.
Qed.

Lemma english_call_word_agree g1 g0 p :
  (∀ w r r0, draws_le p r →
     (EnglishG2p.parse_one_word g1 w r).1 = (EnglishG2p.parse_one_word g0 w r0).1
     ∧ draws_le p (EnglishG2p.parse_one_word g1 w r).2) →
  EnglishG2p.phoneme_probability g0 = None →
  ∀ word r r0, draws_le p r →
    (EnglishG2p.call_word g1 word r).1 = (EnglishG2p.call_word g0 word r0).1
    ∧ draws_le p (EnglishG2p.call_word g1 word r).2.
Proof.
  intros Hagree Hp0 word r r0 Hr. unfold EnglishG2p.call_word.
  destruct word as [|word_str rest]; [done|].
  destruct (Hagree word_str r r0 Hr) as [E1 E2].
  pose proof (english_parse_rng_free g0 Hp0 word_str r0 r0) as E0.
  destruct (EnglishG2p.parse_one_word g1 word_str r) as [res1 r1],
           (EnglishG2p.parse_one_word g0 word_str r0) as [res0 r0'].
  simpl in *. injection E0 as ->. subst res0.
  destruct res1 as [[pron is_handled]|e]; [|done].
  case_match; [|done].
  rewrite !english_hyphen_loop.
  destruct (parse_each_agree p _ _ (split_on 45%N word_str) Hagree
              (english_parse_rng_free g0 Hp0) r1 r0 E2) as [E3 E4].
  destruct (parse_each (EnglishG2p.parse_one_word g1) _ r1) as [ps1 r1'],
           (parse_each (EnglishG2p.parse_one_word g0) _ r0) as [ps0 r0''].
  simpl in *. subst ps0. by destruct ps1.
Qed.

Lemma english_call_loop_agree g1 g0 p :
  (∀ w r r0, draws_le p r →
     (EnglishG2p.parse_one_word g1 w r).1 = (EnglishG2p.parse_one_word g0 w r0).1
     ∧ draws_le p (EnglishG2p.parse_one_word g1 w r).2) →
  EnglishG2p.phoneme_probability g0 = None →
  ∀ words prons r r0, draws_le p r →
    (EnglishG2p.call_loop g1 words prons r).1
    = (EnglishG2p.call_loop g0 words prons r0).1.
Proof.
  intros Hagree Hp0 words.
  induction words as [|[word without_changes] words IH]; intros prons r r0 Hr;
    simpl; [done|].
  destruct without_changes; [by apply IH|].
  destruct (english_call_word_agree g1 g0 p Hagree Hp0 word r r0 Hr) as [E1 E2].
  pose proof (english_call_word_rng_free g0 word Hp0 r0 r0) as E0.
  destruct (EnglishG2p.call_word g1 word r) as [res1 r1],
           (EnglishG2p.call_word g0 word r0) as [res0 r0'].
  simpl in *. injection E0 as ->. subst res0.
  destruct res1; [by apply IH | done].
Qed.

(** Two objects built from the same arguments but for the probability. *)
Lemma english_init_agree pd tok oov ign het prob1 prob0 mf g1 g0 :
  EnglishG2p.init pd tok oov ign het prob1 mf = Ok g1 →
  EnglishG2p.init pd tok oov ign het prob0 mf = Ok g0 →
  (∀ w, EnglishG2p.parse_rules g1 w = EnglishG2p.parse_rules g0 w)
  ∧ EnglishG2p.word_tokenize_func g1 = EnglishG2p.word_tokenize_func g0
  ∧ EnglishG2p.phoneme_probability g1 = prob1
  ∧ EnglishG2p.phoneme_probability g0 = prob0.
Proof.
  unfold EnglishG2p.init.
  destruct (match pd with
            | Some (EnglishG2p.DictFile lines) => EnglishG2p._parse_as_cmu_dict lines
            | Some (EnglishG2p.DictObj d) => Ok d
            | None => Ok nltk_cmudict
            end) as [d|e]; simpl; [|done].
  by intros [= <-] [= <-].
Qed.

Lemma english_probability_one pd tok oov ign het mf p g1 g0 text r r0 :
  EnglishG2p.init pd tok oov ign het (Some p) mf = Ok g1 →
  EnglishG2p.init pd tok oov ign het None mf = Ok g0 →
  draws_le p r →
  (EnglishG2p.call g1 text r).1 = (EnglishG2p.call g0 text r0).1.
Proof.
  intros Hg1 Hg0 Hr.
  destruct (english_init_agree _ _ _ _ _ _ _ _ _ _ Hg1 Hg0) as (Hrules & Htok & Hp1 & Hp0).
  unfold EnglishG2p.call. rewrite Htok.
  apply (english_call_loop_agree g1 g0 p); [|done..].
  by apply english_parse_agree.
Qed.
(** The dictionary [_normalize_dict] builds does not depend on
    [use_chars], which only adds graphemes to the symbols. *)
Lemma normalize_dict_use_chars case uc1 uc0 use_stresses prefix (d : phoneme_dict_t) :
  (normalized case uc1 use_stresses prefix d).1
  = (normalized case uc0 use_stresses prefix d).1.
Proof.
  unfold normalized.
  generalize (∅ : gset pystr) at 1. generalize (∅ : gset pystr).
  generalize ([] : phoneme_dict_t).
  induction d as [|[word prons] d IH]; intros acc s0 s1; simpl; [done|].
  destruct (_ && _); apply IH.
Qed.

Lemma init_other_attributes phoneme_dict locale oov ignore hets use_chars prob
      use_stresses case prefix mapping g :
  IPAG2P.init phoneme_dict locale oov ignore hets use_chars prob use_stresses case
       prefix mapping = Ok g →
  IPAG2P.locale g = locale
  ∧ IPAG2P.ignore_ambiguous_words g = ignore
  ∧ IPAG2P.heteronym_model g = None
  ∧ IPAG2P.word_tokenize_func g
    = (if bool_decide (locale = Some (py "en-US")) then english_word_tokenize
       else any_locale_word_tokenize)
  ∧ IPAG2P.heteronyms g
    = match list_to_set <$> hets with
      | Some hs =>
          if bool_decide (hs ≠ ∅)
          then Some (set_map (λ het, set_grapheme_case het case) hs)
          else Some hs
      | None => None
      end.
Proof.
  intros Hg. by apply init_record in Hg as (_ & _ & ->).
Qed.

(** The attributes the rules below the draw read. *)
Lemma lookup_rules_ext (g1 g0 : IPAG2P.t) w :
  IPAG2P.phoneme_dict g1 = IPAG2P.phoneme_dict g0 →
  IPAG2P.locale g1 = IPAG2P.locale g0 →
  IPAG2P.grapheme_case g1 = IPAG2P.grapheme_case g0 →
  IPAG2P.grapheme_prefix g1 = IPAG2P.grapheme_prefix g0 →
  IPAG2P.ignore_ambiguous_words g1 = IPAG2P.ignore_ambiguous_words g0 →
  IPAG2P.apply_to_oov_word g1 = IPAG2P.apply_to_oov_word g0 →
  IPAG2P.lookup_rules g1 w = IPAG2P.lookup_rules g0 w.
Proof.
  intros Hd Hl Hc Hx Hi Ho.
  unfold IPAG2P.lookup_rules, IPAG2P.apostrophe_s_rule, IPAG2P.s_rule,
    IPAG2P.word_found, IPAG2P.ambiguity_ok, IPAG2P.is_unique_in_phoneme_dict,
    IPAG2P.first_pron.
  by rewrite Hd, Hl, Hc, Hx, Hi, Ho.
Qed.

Lemma ipa_parse_agree g1 g0 p :
  IPAG2P.phoneme_probability g1 = Some p →
  IPAG2P.phoneme_probability g0 = None →
  IPAG2P.grapheme_case g1 = IPAG2P.grapheme_case g0 →
  IPAG2P.grapheme_prefix g1 = IPAG2P.grapheme_prefix g0 →
  IPAG2P.heteronyms g1 = IPAG2P.heteronyms g0 →
  (∀ w, IPAG2P.lookup_rules g1 w = IPAG2P.lookup_rules g0 w) →
  ∀ w r r0, draws_le p r →
    (IPAG2P.parse_one_word g1 w r).1 = (IPAG2P.parse_one_word g0 w r0).1
    ∧ draws_le p (IPAG2P.parse_one_word g1 w r).2.
Proof.
  intros Hp1 Hp0 Hc Hx Hh Hrules w r r0 Hr.
  unfold IPAG2P.parse_one_word, random.
  rewrite Hp1, Hp0, Hc, Hx, Hh, (Hr 0). simpl.
  assert (draws_le p (λ n, r (S n))) as Hr' by (intros n; apply Hr).
  destruct (negb (existsb IPAG2P.CHAR_REGEX _)); [done|].
  destruct (match IPAG2P.heteronyms g0 with Some _ => _ | None => _ end); [done|].
  simpl. split; [apply Hrules | done].
Qed.

Lemma ipa_call_word_agree g1 g0 p :
  (∀ w r r0, draws_le p r →
     (IPAG2P.parse_one_word g1 w r).1 = (IPAG2P.parse_one_word g0 w r0).1
     ∧ draws_le p (IPAG2P.parse_one_word g1 w r).2) →
  IPAG2P.phoneme_probability g0 = None →
  ∀ words r r0, draws_le p r →
    (IPAG2P.call_word g1 words r).1 = (IPAG2P.call_word g0 words r0).1
    ∧ draws_le p (IPAG2P.call_word g1 words r).2.
Proof.
  intros Hagree Hp0 words r r0 Hr. unfold IPAG2P.call_word.
  destruct words as [|word [|? ?]]; [done | | done].
  destruct (Hagree word r r0 Hr) as [E1 E2].
  pose proof (ipa_parse_rng_free g0 Hp0 word r0 r0) as E0.
  destruct (IPAG2P.parse_one_word g1 word r) as [res1 r1],
           (IPAG2P.parse_one_word g0 word r0) as [res0 r0'].
  simpl in *. injection E0 as ->. subst res0.
  destruct res1 as [[pron is_handled]|e]; [|done].
  case_match; [|done].
  rewrite !ipa_hyphen_loop.
  destruct (parse_each_agree p _ _ (split_on 45%N word) Hagree
              (ipa_parse_rng_free g0 Hp0) r1 r0 E2) as [E3 E4].
  destruct (parse_each (IPAG2P.parse_one_word g1) _ r1) as [ps1 r1'],
           (parse_each (IPAG2P.parse_one_word g0) _ r0) as [ps0 r0''].
  simpl in *. subst ps0. by destruct ps1.
Qed.

Lemma ipa_call_loop_agree g1 g0 p :
  (∀ w r r0, draws_le p r →
     (IPAG2P.parse_one_word g1 w r).1 = (IPAG2P.parse_one_word g0 w r0).1
     ∧ draws_le p (IPAG2P.parse_one_word g1 w r).2) →
  IPAG2P.phoneme_probability g0 = None →
  IPAG2P.grapheme_prefix g1 = IPAG2P.grapheme_prefix g0 →
  ∀ words prons r r0, draws_le p r →
    (IPAG2P.call_loop g1 words prons r).1
    = (IPAG2P.call_loop g0 words prons r0).1.
Proof.
  intros Hagree Hp0 Hx words.
  induction words as [|[word without_changes] words IH]; intros prons r r0 Hr;
    simpl; [done|].
  destruct without_changes; [rewrite Hx; by apply IH|].
  destruct (ipa_call_word_agree g1 g0 p Hagree Hp0 word r r0 Hr) as [E1 E2].
  pose proof (ipa_call_word_rng_free g0 word Hp0 r0 r0) as E0.
  destruct (IPAG2P.call_word g1 word r) as [res1 r1],
           (IPAG2P.call_word g0 word r0) as [res0 r0'].
  simpl in *. injection E0 as ->. subst res0.
  destruct res1; [by apply IH | done].
Qed.

Lemma ipa_probability_one pd locale oov ign hets uc us case prefix mf p g1 g0
      text r r0 :
  IPAG2P.init pd locale oov ign hets uc (Some p) us case prefix mf = Ok g1 →
  IPAG2P.init pd locale oov ign hets uc None us case prefix mf = Ok g0 →
  draws_le p r →
  (IPAG2P.call g1 text r).1 = (IPAG2P.call g0 text r0).1.
Proof.
  intros Hg1 Hg0 Hr.
  destruct (init_attributes _ _ _ _ _ _ _ _ _ _ _ _ Hg1) as (Hn1 & Ho1 & Hp1 & Hc1 & Hx1).
  destruct (init_attributes _ _ _ _ _ _ _ _ _ _ _ _ Hg0) as (Hn0 & Ho0 & Hp0 & Hc0 & Hx0).
  destruct (init_other_attributes _ _ _ _ _ _ _ _ _ _ _ _ Hg1)
    as (Hl1 & Hi1 & Hm1 & Ht1 & Hh1).
  destruct (init_other_attributes _ _ _ _ _ _ _ _ _ _ _ _ Hg0)
    as (Hl0 & Hi0 & Hm0 & Ht0 & Hh0).
  assert (IPAG2P.phoneme_dict g1 = IPAG2P.phoneme_dict g0) as Hd.
  { pose proof (f_equal fst Hn1) as E1. pose proof (f_equal fst Hn0) as E0.
    simpl in E1, E0. rewrite E1, E0. apply normalize_dict_use_chars. }
  unfold IPAG2P.call. rewrite Hm1, Hm0, Ht1, Ht0.
  apply (ipa_call_loop_agree g1 g0 p); [|done|congruence|done].
  apply ipa_parse_agree; [done|done|congruence..|].
  intros w. apply lookup_rules_ext; congruence.
Qed.

(** X12. A phoneme probability that no draw exceeds is the same as none,
    as the constructors document for the probability 1 ([random()] is
    below 1): two objects built from the same arguments, one with the
    probability [p] and one with [None], return the same symbols (or raise
    the same exception) on every text, whenever every draw of the first is
    at most [p], and whatever generator the second holds. For [IPAG2P]
    this holds although the probability forces [use_chars]: that changes
    the symbols kept, not the dictionary. *)
Theorem X12_probability_one_is_no_probability :
  (∀ pd tok oov ign het mf p (g1 g0 : EnglishG2p.t) text r r0,
      EnglishG2p.init pd tok oov ign het (Some p) mf = Ok g1 →
      EnglishG2p.init pd tok oov ign het None mf = Ok g0 →
      draws_le p r →
      (EnglishG2p.call g1 text r).1 = (EnglishG2p.call g0 text r0).1)
  ∧ (∀ pd locale oov ign hets uc us case prefix mf p (g1 g0 : IPAG2P.t) text r r0,
        IPAG2P.init pd locale oov ign hets uc (Some p) us case prefix mf = Ok g1 →
        IPAG2P.init pd locale oov ign hets uc None us case prefix mf = Ok g0 →
        draws_le p r →
        (IPAG2P.call g1 text r).1 = (IPAG2P.call g0 text r0).1).
Proof.
  split.
  - intros. by eapply english_probability_one.
  - intros. by eapply ipa_probability_one.
Qed.
End probability_one.

(** * The dictionary files *)

(** A loop that appends one pronunciation per line it reads collects, for
    every word, the pronunciations of its lines in the order of the file. *)
Lemma foldl_collect {L} (f : result phoneme_dict_t → L → result phoneme_dict_t)
      (reads : L → bool) (word : L → pystr) (pron : L → list pystr)
      (acc : phoneme_dict_t) (lines : list L) :
  Forall (λ line, ∀ d, f (Ok d) line =
            if reads line
            then Ok (dict_set d (word line)
                              (default [] (dict_get d (word line)) ++ [pron line]))
            else Ok d) lines →
  ∃ d, foldl f (Ok acc) lines = Ok d
       ∧ ∀ w, dict_get d w =
              match dict_get acc w,
                    map pron (filter (λ line, reads line = true ∧ word line = w) lines)
              with
              | None, [] => None
              | o, new => Some (default [] o ++ new)
              end.
Proof.
  intros Hlines. revert acc.
  induction Hlines as [|line lines Hline _ IH]; intros acc; simpl.
  - exists acc. split; [done|]. intros w.
    destruct (dict_get acc w); simpl; [by rewrite app_nil_r | done].
  - rewrite Hline. destruct (reads line) eqn:Hr; cbv iota.
    + destruct (IH (dict_set acc (word line)
                             (default [] (dict_get acc (word line)) ++ [pron line])))
        as (d & Hfold & Hd).
      exists d. split; [exact Hfold|]. intros w.
      rewrite Hd, dict_get_set, filter_cons.
      destruct (decide (reads line = true ∧ word line = w)) as [[_ Hw]|Hn].
      * rewrite bool_decide_eq_true_2 by done. subst w. simpl.
        destruct (dict_get acc (word line)); simpl; by rewrite <- ?app_assoc.
      * rewrite bool_decide_eq_false_2; [done|]. intros Hw. by apply Hn.
    + destruct (IH acc) as (d & Hfold & Hd).
      exists d. split; [exact Hfold|]. intros w. rewrite Hd, filter_cons.
      destruct (decide (reads line = true ∧ word line = w)) as [[Hr' _]|Hn]; [|done].
      congruence.
Qed.

Lemma foldl_raise_stays {D L} (f : result D → L → result D) e lines :
  (∀ e' l, f (Raise e') l = Raise e') → foldl f (Raise e) lines = Raise e.
Proof.
  intros Hraise. induction lines as [|l lines IH]; simpl; [done|].
  by rewrite Hraise.
Qed.

(** A loop whose steps raise nothing but [e] raises [e] as soon as one of
    its lines does. *)
Lemma foldl_raises {D L} (f : result D → L → result D) e lines line :
  (∀ e' l, f (Raise e') l = Raise e') →
  (∀ d l, (∃ d', f (Ok d) l = Ok d') ∨ f (Ok d) l = Raise e) →
  line ∈ lines → (∀ d, f (Ok d) line = Raise e) →
  ∀ acc, (∃ d, acc = Ok d) ∨ acc = Raise e → foldl f acc lines = Raise e.
Proof.
  intros Hraise Hstep Hin Hbad.
  induction lines as [|l lines IH]; intros acc Hacc; [by apply elem_of_nil in Hin|].
  simpl. apply elem_of_cons in Hin as [<-|Hin].
  - assert (f acc line = Raise e) as ->.
    { destruct Hacc as [[d ->]| ->]; [apply Hbad | apply Hraise]. }
    by apply foldl_raise_stays.
  - apply IH; [done|].
    destruct Hacc as [[d ->]| ->]; [|rewrite Hraise; by right].
    destruct (Hstep d l) as [[d' ->]| ->]; eauto.
Qed.

Section cmu_file.
Context `{StrOps, DataUtils, Nltk}.

Lemma parse_as_cmu_dict_entries (lines : list pystr) :
  (∀ line, line ∈ lines → EnglishG2p.cmu_entry_line line = true →
           2 ≤ length (split_two_spaces line)) →
  ∃ d, EnglishG2p._parse_as_cmu_dict lines = Ok d
       ∧ ∀ w, dict_get d w = match cmu_entries lines w with
                             | [] => None
                             | prons => Some prons
                             end.
Proof.
  intros Hwf. unfold EnglishG2p._parse_as_cmu_dict, cmu_entries.
  match goal with
  | |- ∃ d, foldl ?f _ _ = _ ∧ _ =>
      pose proof (foldl_collect f EnglishG2p.cmu_entry_line cmu_word
                                cmu_pronunciation [] lines) as HC
  end.
  lazymatch type of HC with ?A → _ => assert A as HF end.
  { apply Forall_forall. intros line Hin d. simpl.
    destruct (EnglishG2p.cmu_entry_line line) eqn:He; [|done].
    pose proof (Hwf line Hin He) as Hlen. unfold cmu_word, cmu_pronunciation.
    destruct (split_two_spaces line) as [|p0 [|p1 ps]]; simpl in *; [lia | lia |].
    by destruct (dict_get d (lower (sub_alt 0 p0))). }
  destruct (HC HF) as (d & Hd & Hget). exists d. split; [done|].
  intros w. rewrite Hget. simpl. by destruct (map _ _).
Qed.

Lemma parse_as_cmu_dict_raises (lines : list pystr) line :
  line ∈ lines → EnglishG2p.cmu_entry_line line = true →
  length (split_two_spaces line) < 2 →
  EnglishG2p._parse_as_cmu_dict lines = Raise IndexError.
Proof.
  intros Hin He Hlen. unfold EnglishG2p._parse_as_cmu_dict.
  apply (foldl_raises _ IndexError lines line); [done | | done | | by eauto].
  - intros d l. simpl. destruct (EnglishG2p.cmu_entry_line l); [|by eauto].
    destruct (split_two_spaces l) as [|p0 [|p1 ps]]; [by right | by right |].
    destruct (dict_get d _); eauto.
  - intros d. simpl. rewrite He.
    destruct (split_two_spaces line) as [|p0 [|p1 ps]]; [done | done |].
    simpl in Hlen. lia.
Qed.

(** X13. What [_parse_as_cmu_dict] reads from a file, provided every entry
    line has two consecutive spaces after its word: the dictionary has a
    key exactly for the words of the entry lines, the lines that begin
    with a capital letter or an apostrophe, and maps each to the
    pronunciations of all its lines in the order of the file, so that the
    variants [WORD(2)], [WORD(3)] are gathered under the lower-case
    [word]; the other lines are skipped. *)
Theorem X13_cmu_file_is_grouped_by_word :
  ∀ lines : list pystr,
    (∀ line, line ∈ lines → EnglishG2p.cmu_entry_line line = true →
             2 ≤ length (split_two_spaces line)) →
    ∃ d, EnglishG2p._parse_as_cmu_dict lines = Ok d
         ∧ ∀ w, dict_get d w = match cmu_entries lines w with
                               | [] => None
                               | prons => Some prons
                               end.
Proof. apply parse_as_cmu_dict_entries. Qed.

(** X14. An entry line of a CMUdict file with no pronunciation part, that
    is with no two consecutive spaces, makes [_parse_as_cmu_dict], and so
    [__init__] on that file, raise [IndexError] ([parts[1]]), wherever the
    line is in the file. *)
Theorem X14_cmu_entry_without_pronunciation :
  ∀ (lines : list pystr) line tok oov ign het prob mf,
    line ∈ lines → EnglishG2p.cmu_entry_line line = true →
    length (split_two_spaces line) < 2 →
    EnglishG2p._parse_as_cmu_dict lines = Raise IndexError
    ∧ EnglishG2p.init (Some (EnglishG2p.DictFile lines)) tok oov ign het prob mf
      = Raise IndexError.
Proof.
  intros lines line tok oov ign het prob mf Hin He Hlen.
  pose proof (parse_as_cmu_dict_raises lines line Hin He Hlen) as Hr.
  split; [done|]. unfold EnglishG2p.init. by rewrite Hr.
Qed.

(** X15. An [EnglishG2p] built on a CMUdict file whose entry lines all
    have a pronunciation part raises nothing: [__init__] returns an
    object, no key of its dictionary has an empty list of pronunciations,
    and [__call__] returns a list on every text the tokenizer cuts into
    non-empty words, whatever the other arguments and the draws. *)
Theorem X15_cmu_file_object_raises_nothing :
  ∀ (lines : list pystr) tok oov ign het prob mf,
    (∀ line, line ∈ lines → EnglishG2p.cmu_entry_line line = true →
             2 ≤ length (split_two_spaces line)) →
    ∃ g, EnglishG2p.init (Some (EnglishG2p.DictFile lines)) tok oov ign het prob mf
         = Ok g
         ∧ (∀ k, dict_get (EnglishG2p.phoneme_dict g) k ≠ Some [])
         ∧ ∀ text r,
             Forall (λ token : list pystr * bool, token.2 = true ∨ token.1 ≠ [])
                    (tok text) →
             ∃ out, (EnglishG2p.call g text r).1 = Ok out.
Proof.
  intros lines tok oov ign het prob mf Hwf.
  destruct (parse_as_cmu_dict_entries lines Hwf) as (d & Hd & Hget).
  unfold EnglishG2p.init. rewrite Hd. simpl. eexists. split; [done|].
  assert (∀ k, dict_get d k ≠ Some []) as Hne.
  { intros k. rewrite Hget. by destruct (cmu_entries lines k). }
  split; [done|]. intros text r Htok.
  by apply english_call_loop_total.
Qed.
End cmu_file.

(** ** The IPA dictionary file *)

Section str_facts.
Context `{StrOps}.

Lemma lstrip_head (s : pystr) c s' : lstrip s = c :: s' → unicode_space c = false.
Proof.
  induction s as [|c0 s IH]; simpl; [done|].
  destruct (unicode_space c0) eqn:Hc; [done|]. by intros [= <- _].
Qed.

Lemma rstrip_last (s : pystr) c : last (rstrip s) = Some c → unicode_space c = false.
Proof.
  unfold rstrip. rewrite last_reverse.
  destruct (lstrip (reverse s)) as [|c0 s'] eqn:Hs; [done|].
  intros [= <-]. by eapply lstrip_head.
Qed.

(** The second part [split(maxsplit=1)] gives begins with a character that
    is not white space. *)
Lemma split_maxsplit1_second (s : pystr) :
  2 ≤ length (split_maxsplit1 s) →
  ∃ c rest, nth 1 (split_maxsplit1 s) [] = c :: rest ∧ unicode_space c = false.
Proof.
  unfold split_maxsplit1.
  destruct (lstrip s) as [|c0 s0]; simpl; [lia|].
  destruct (if unicode_space c0 then _ else _) as [word rest].
  destruct (lstrip rest) as [|c' rest'] eqn:Hrest; simpl; [lia|].
  intros _. exists c', rest'. split; [done|]. by eapply lstrip_head.
Qed.
End str_facts.

Section ipa_file.
Context `{StrOps, DataUtils}.

Lemma ipa_pronunciation_shape (line : pystr) :
  2 ≤ length (ipa_line_parts line) →
  ipa_pronunciation line ≠ []
  ∧ ∀ s, s ∈ ipa_pronunciation line → ∃ c, s = [c] ∧ unicode_space c = false.
Proof.
  intros Hlen. unfold ipa_pronunciation, ipa_line_parts in *. split.
  - destruct (split_maxsplit1_second _ Hlen) as (c & rest & -> & Hc).
    assert (c ∈ filter (λ c0 : N, unicode_space c0 = false) (c :: rest)) as Hin
      by (apply list_elem_of_filter; split; [done | apply elem_of_cons; by left]).
    destruct (filter _ _); [by apply elem_of_nil in Hin | done].
  - intros s Hs. apply list_elem_of_fmap in Hs as (c & -> & Hc).
    apply list_elem_of_filter in Hc as [Hc _]. by exists c.
Qed.

Lemma parse_phoneme_dict_file_entries (lines : list pystr) :
  (∀ line, line ∈ lines → line ≠ [] → normalize_unicode_text line ≠ []) →
  (∀ line, line ∈ lines → ipa_line_read line = true →
           2 ≤ length (ipa_line_parts line)) →
  ∃ d, IPAG2P._parse_phoneme_dict_file lines = Ok d
       ∧ ∀ w, dict_get d w = match ipa_entries lines w with
                             | [] => None
                             | prons => Some prons
                             end.
Proof.
  intros Hnorm Hwf. unfold IPAG2P._parse_phoneme_dict_file, ipa_entries.
  match goal with
  | |- ∃ d, foldl ?f _ _ = _ ∧ _ =>
      pose proof (foldl_collect f ipa_line_read ipa_word ipa_pronunciation
                                [] lines) as HC
  end.
  lazymatch type of HC with ?A → _ => assert A as HF end.
  { apply Forall_forall. intros line Hin d. simpl.
    pose proof (Hwf line Hin) as Hlen. pose proof (Hnorm line Hin) as Hne.
    unfold ipa_word, ipa_pronunciation, ipa_line_parts, ipa_line_read in *.
    destruct line as [|c0 line0]; [done|].
    destruct (normalize_unicode_text (c0 :: line0)) as [|c line'];
      [by exfalso; apply Hne|].
    destruct (IPAG2P.ipa_entry_char c); [|done].
    specialize (Hlen eq_refl).
    destruct (split_maxsplit1 (strip (c :: line'))) as [|p0 [|p1 ps]];
      simpl in *; [lia | lia | done]. }
  destruct (HC HF) as (d & Hd & Hget). exists d. split; [done|].
  intros w. rewrite Hget. simpl. by destruct (map _ _).
Qed.

End ipa_file.

Section ipa_file_claims.
Context `{StrOps, DataUtils}.

Lemma parse_phoneme_dict_file_raises (lines : list pystr) line :
  line ∈ lines →
  (line ≠ [] ∧ normalize_unicode_text line = [])
  ∨ (ipa_line_read line = true ∧ length (ipa_line_parts line) < 2) →
  IPAG2P._parse_phoneme_dict_file lines = Raise IndexError.
Proof.
  intros Hin Hbad. unfold IPAG2P._parse_phoneme_dict_file.
  apply (foldl_raises _ IndexError lines line); [done | | done | | by eauto].
  - intros d l. simpl. destruct l as [|c0 l0]; [by eauto|].
    destruct (normalize_unicode_text (c0 :: l0)) as [|c l']; [by right|].
    destruct (IPAG2P.ipa_entry_char c); [|by eauto].
    destruct (split_maxsplit1 _) as [|p0 [|p1 ps]]; eauto.
  - intros d. simpl. unfold ipa_line_read, ipa_line_parts in Hbad.
    destruct line as [|c0 line0]; [by destruct Hbad as [[? _]|[? _]]|].
    destruct (normalize_unicode_text (c0 :: line0)) as [|c line']; [done|].
    destruct Hbad as [[_ ?]|[Hread Hlen]]; [done|]. rewrite Hread.
    destruct (split_maxsplit1 _) as [|p0 [|p1 ps]]; [done | done |].
    simpl in Hlen. lia.
Qed.

(** X16. What [IPAG2P._parse_phoneme_dict] reads from a file, provided no
    line loses all its characters in the NFC normalization and every line
    read has something after its word: a key exactly for the words of the
    lines read, each with the pronunciations of all its lines in the order
    of the file (the variants [Word(2)] gathered under [Word], the case
    kept); and every pronunciation is a non-empty list of single
    characters, none of them white space. *)
Theorem X16_ipa_file_is_grouped_by_word :
  ∀ lines : list pystr,
    (∀ line, line ∈ lines → line ≠ [] → normalize_unicode_text line ≠ []) →
    (∀ line, line ∈ lines → ipa_line_read line = true →
             2 ≤ length (ipa_line_parts line)) →
    ∃ d, IPAG2P._parse_phoneme_dict_file lines = Ok d
         ∧ (∀ w, dict_get d w = match ipa_entries lines w with
                                | [] => None
                                | prons => Some prons
                                end)
         ∧ (∀ w prons pron,
               dict_get d w = Some prons → pron ∈ prons →
               pron ≠ []
               ∧ ∀ s, s ∈ pron → ∃ c, s = [c] ∧ unicode_space c = false).
Proof.
  intros lines Hnorm Hwf.
  destruct (parse_phoneme_dict_file_entries lines Hnorm Hwf) as (d & Hd & Hget).
  exists d. split; [done|]. split; [done|].
  intros w prons pron Hw Hin. rewrite Hget in Hw.
  assert (pron ∈ ipa_entries lines w) as Hin'.
  { destruct (ipa_entries lines w); [done|]. by injection Hw as <-. }
  unfold ipa_entries in Hin'.
  apply list_elem_of_fmap in Hin' as (line & -> & Hline).
  apply list_elem_of_filter in Hline as [[Hread _] Hline].
  apply ipa_pronunciation_shape. by apply Hwf.
Qed.

(** X17. [IPAG2P._parse_phoneme_dict] raises [IndexError] on a file with a
    line that is read and has only a word ([parts[1]]), or with a line
    that the NFC normalization leaves empty ([line[0]]), wherever the line
    is in the file. *)
Theorem X17_ipa_entry_without_pronunciation :
  ∀ (lines : list pystr) line,
    line ∈ lines →
    (line ≠ [] ∧ normalize_unicode_text line = [])
    ∨ (ipa_line_read line = true ∧ length (ipa_line_parts line) < 2) →
    IPAG2P._parse_phoneme_dict_file lines = Raise IndexError.
Proof. apply parse_phoneme_dict_file_raises. Qed.
End ipa_file_claims.

(** ** The pinyin dictionary file *)

Section pinyin_file.
Context `{StrOps, DataUtils, Pinyin}.

Lemma parse_as_pinyin_dict_last (lines : list pystr) (acc : pydict (list pystr)) :
  (∀ line, line ∈ lines → 2 ≤ length (split_on 9%N line)) →
  ∃ d, foldl (λ acc line,
                let* g2p_dict := acc in
                match split_on 9%N line with
                | parts0 :: parts1 :: _ =>
                    Ok (dict_set g2p_dict (lower parts0)
                                 (map (λ pron, py "#" ++ pron)
                                      (ChineseG2p.split_ws parts1 [])))
                | _ => Raise IndexError
                end) (Ok acc) lines = Ok d
       ∧ ∀ k, dict_get d k
              = match last (filter (λ line, pinyin_key line = k) lines) with
                | Some line => Some (pinyin_phonemes line)
                | None => dict_get acc k
                end.
Proof.
  revert acc. induction lines as [|l lines IH]; intros acc Hwf; simpl.
  - by exists acc.
  - pose proof (Hwf l ltac:(apply elem_of_cons; by left)) as Hlen.
    destruct (split_on 9%N l) as [|p0 [|p1 ps]] eqn:Hl; simpl in Hlen; [lia | lia |].
    destruct (IH (dict_set acc (lower p0)
                           (map (λ pron, py "#" ++ pron) (ChineseG2p.split_ws p1 []))))
      as (d & Hfold & Hget).
    { intros line Hin. apply Hwf. apply elem_of_cons. by right. }
    exists d. split; [exact Hfold|]. intros k.
    rewrite Hget, filter_cons.
    assert (pinyin_key l = lower p0) as Hkey by (unfold pinyin_key; by rewrite Hl).
    assert (pinyin_phonemes l
            = map (λ pron, py "#" ++ pron) (ChineseG2p.split_ws p1 [])) as Hph
        by (unfold pinyin_phonemes; by rewrite Hl).
    destruct (decide (pinyin_key l = k)) as [Hk|Hk].
    + rewrite last_cons. destruct (last (filter _ lines)); [done|].
      rewrite dict_get_set, bool_decide_eq_true_2 by congruence. by rewrite Hph.
    + destruct (last (filter _ lines)); [done|].
      rewrite dict_get_set, bool_decide_eq_false_2 by congruence. done.
Qed.

Lemma parse_as_pinyin_dict_raises (lines : list pystr) line :
  line ∈ lines → length (split_on 9%N line) < 2 →
  ChineseG2p._parse_as_pinyin_dict lines = Raise IndexError.
Proof.
  intros Hin Hlen. unfold ChineseG2p._parse_as_pinyin_dict.
  apply (foldl_raises _ IndexError lines line); [done | | done | | by eauto].
  - intros d l. simpl. destruct (split_on 9%N l) as [|p0 [|p1 ps]]; eauto.
  - intros d. simpl. destruct (split_on 9%N line) as [|p0 [|p1 ps]]; [done | done |].
    simpl in Hlen. lia.
Qed.

(** X18. What [ChineseG2p._parse_as_pinyin_dict] reads from a file. If
    every line has a tab, the dictionary has a key exactly for the
    lower-case text before the first tab of each line, and a key keeps the
    phonemes of the last line that gives it: a later line replaces the
    earlier ones, it does not add to them. A line without a tab, an empty
    last line for one, makes the function and [__init__] on that file
    raise [IndexError]. *)
Theorem X18_pinyin_file_last_line_wins :
  (∀ lines : list pystr,
      (∀ line, line ∈ lines → 2 ≤ length (split_on 9%N line)) →
      ∃ d, ChineseG2p._parse_as_pinyin_dict lines = Ok d
           ∧ ∀ k, dict_get d k
                  = pinyin_phonemes
                      <$> last (filter (λ line, pinyin_key line = k) lines))
  ∧ (∀ (lines : list pystr) line tok oov mf seg,
        line ∈ lines → length (split_on 9%N line) < 2 →
        seg ∈ [None; Some (py "jieba")] →
        ChineseG2p._parse_as_pinyin_dict lines = Raise IndexError
        ∧ ChineseG2p.init (Some (ChineseG2p.DictFile lines)) tok oov mf seg
          = Raise IndexError).
Proof.
  split.
  - intros lines Hwf.
    destruct (parse_as_pinyin_dict_last lines [] Hwf) as (d & Hd & Hget).
    exists d. split; [exact Hd|]. intros k. rewrite Hget.
    by destruct (last _).
  - intros lines line tok oov mf seg Hin Hlen Hseg.
    pose proof (parse_as_pinyin_dict_raises lines line Hin Hlen) as Hr.
    split; [done|]. unfold ChineseG2p.init.
    rewrite (bool_decide_eq_true_2 _ Hseg). simpl. by rewrite Hr.
Qed.
End pinyin_file.

(** ** The heteronyms file *)

Section heteronyms_file.
Context `{StrOps, DataUtils, Nltk}.

(** X19. The heteronyms [EnglishG2p] reads from a file are its lines
    without their trailing white space (the line ends among it): a word is
    among them exactly when it is some line so stripped, none of them ends
    in white space, and [parse_one_word] hands back such a word as it is,
    handled, if it has a letter or a digit, whatever the dictionary, the
    phoneme probability and the draw. *)
Theorem X19_heteronyms_file :
  ∀ (lines : list pystr) dict tok oov ign prob mf (g : EnglishG2p.t),
    EnglishG2p.init dict tok oov ign (Some (EnglishG2p.HeteronymsFile lines))
                    prob mf = Ok g →
    ∃ hs, EnglishG2p.heteronyms g = Some hs
          ∧ (∀ w, w ∈ hs ↔ ∃ line, line ∈ lines ∧ w = rstrip line)
          ∧ (∀ w c, w ∈ hs → last w = Some c → unicode_space c = false)
          ∧ (∀ w r, w ∈ hs → existsb EnglishG2p.WORD_CHAR w = true →
                    (EnglishG2p.parse_one_word g w r).1 = Ok (PStr w, true)).
Proof.
  intros lines dict tok oov ign prob mf g. unfold EnglishG2p.init.
  destruct (match dict with
            | Some (EnglishG2p.DictFile l) => EnglishG2p._parse_as_cmu_dict l
            | Some (EnglishG2p.DictObj d) => Ok d
            | None => Ok nltk_cmudict
            end) as [d|e]; simpl; [|done].
  intros [= <-]. simpl. eexists. split; [done|].
  assert (∀ w, w ∈ (list_to_set (EnglishG2p._parse_file_by_lines lines) : gset pystr)
               ↔ ∃ line, line ∈ lines ∧ w = rstrip line) as Hmem.
  { intros w. rewrite elem_of_list_to_set. unfold EnglishG2p._parse_file_by_lines.
    rewrite list_elem_of_fmap. split; intros (line & ? & ?); by exists line. }
  split; [done|]. split.
  - intros w c Hw. apply Hmem in Hw as (line & _ & ->). apply rstrip_last.
  - intros w r Hw Hchar.
    unfold EnglishG2p.parse_one_word, EnglishG2p.parse_rules, random. simpl.
    rewrite Hchar, (bool_decide_eq_true_2 _ Hw). simpl.
    destruct prob as [p|]; [|done]. by destruct (negb (Qle_bool (r 0) p)).
Qed.
End heteronyms_file.

(** * The further properties on sample inputs *)

(** The members of a sample list, one after the other. *)
Ltac each_member Hin :=
  apply list_elem_of_In in Hin; vm_compute in Hin;
  repeat (destruct Hin as [<-|Hin]); [..|destruct Hin].

(** A sample list has no such member. *)
Ltac no_member Hin :=
  apply list_elem_of_In in Hin; vm_compute in Hin;
  repeat (destruct Hin as [Hin|Hin]; [discriminate Hin|]); destruct Hin.

(** "..." has no letter or digit. *)
Lemma X1_punctuation_passes_through_witness :
  (∃ p, (EnglishG2p.parse_one_word (H := Sample.str_ops)
           (Sample.english [py "lead"] (Some (1 # 2))) (py "...")
           (Sample.constant_rng 0)).1 = Ok (p, true)
        ∧ extend p = [py "."; py "."; py "."])
  ∧ IPAG2P.parse_one_word (H := Sample.str_ops) (H0 := Sample.data_utils)
      (Sample.ipa [py "LEAD"]) (py "...") (Sample.constant_rng 0)
    = (Ok (PList [py "."; py "."; py "."], true), Sample.constant_rng 0).
Proof.
  destruct (@X1_punctuation_passes_through Sample.str_ops Sample.data_utils)
    as [HE HI].
  split.
  - apply (HE (Sample.english [py "lead"] (Some (1 # 2))) (py "...")
              (Sample.constant_rng 0)).
    reflexivity.
  - apply (HI (Sample.ipa [py "LEAD"]) (py "...") (Sample.constant_rng 0)).
    reflexivity.
Defined.

(** "read" is ambiguous and "xyz" unknown: both come back unhandled, the
    graphemes of "xyz" behind the prefix "#". *)
Lemma X2_unhandled_word_is_returned_as_graphemes_witness :
  (EnglishG2p.apply_to_oov_word (Sample.english [py "lead"] None) = None
   ∧ PStr (py "read") = PStr (py "read"))
  ∧ (IPAG2P.apply_to_oov_word (Sample.ipa_sharp [py "LEAD"]) = None
     ∧ (PList [py "#X"; py "#Y"; py "#Z"] = PList [py "#X"; py "#Y"; py "#Z"]
        ∨ (IPAG2P.grapheme_case (Sample.ipa_sharp [py "LEAD"])
           = Some (GRAPHEME_CASE_MIXED (DataUtils := Sample.data_utils))
           ∧ PList [py "#X"; py "#Y"; py "#Z"] = PList [py "#X"; py "#Y"; py "#Z"]))).
Proof.
  destruct (@X2_unhandled_word_is_returned_as_graphemes Sample.str_ops
              Sample.data_utils) as [HE HI].
  split.
  - apply (HE (Sample.english [py "lead"] None) (py "read") (PStr (py "read"))
              (Sample.constant_rng 0) (Sample.constant_rng 0)).
    reflexivity.
  - apply (HI (Sample.ipa_sharp [py "LEAD"]) (py "xyz")
              (PList [py "#X"; py "#Y"; py "#Z"])
              (Sample.constant_rng 0) (Sample.constant_rng 0)).
    vm_compute. reflexivity.
Defined.

(** With the spelling function for unknown words, "x-ray" is spelled out
    as a whole. *)
Lemma X3_oov_function_disables_hyphen_fallback_witness :
  EnglishG2p.call_word (H := Sample.str_ops)
    (Sample.english_with Sample.tokenize (Some Sample.spell)) [py "x-ray"]
    (Sample.constant_rng 0)
  = match EnglishG2p.parse_one_word (H := Sample.str_ops)
            (Sample.english_with Sample.tokenize (Some Sample.spell)) (py "x-ray")
            (Sample.constant_rng 0) with
    | (Ok (pron, _), r') => (Ok (extend pron), r')
    | (Raise e, r') => (Raise e, r')
    end
  ∧ IPAG2P.call_word (H := Sample.str_ops) (H0 := Sample.data_utils)
      (Sample.ipa_with (Some (py "upper")) Sample.tokenize (Some Sample.spell))
      [py "x-ray"] (Sample.constant_rng 0)
    = match IPAG2P.parse_one_word (H := Sample.str_ops) (H0 := Sample.data_utils)
              (Sample.ipa_with (Some (py "upper")) Sample.tokenize (Some Sample.spell))
              (py "x-ray") (Sample.constant_rng 0) with
      | (Ok (pron, _), r') => (Ok (extend pron), r')
      | (Raise e, r') => (Raise e, r')
      end.
Proof.
  destruct (@X3_oov_function_disables_hyphen_fallback Sample.str_ops
              Sample.data_utils) as [HE HI].
  split.
  - apply (HE (Sample.english_with Sample.tokenize (Some Sample.spell)) Sample.spell
              (py "x-ray") [] (Sample.constant_rng 0)).
    reflexivity.
  - apply (HI (Sample.ipa_with (Some (py "upper")) Sample.tokenize (Some Sample.spell))
              Sample.spell (py "x-ray") (Sample.constant_rng 0)).
    reflexivity.
Defined.

(** No key of the sample dictionaries has an empty list of
    pronunciations. *)
Lemma X4_call_raises_nothing_witness :
  (∃ out, (EnglishG2p.call (H := Sample.str_ops)
             (Sample.english [py "lead"] (Some (1 # 2))) (py "hi cat's x-ray")
             (Sample.constant_rng 0)).1 = Ok out)
  ∧ ∃ out, (IPAG2P.call (H := Sample.str_ops) (H0 := Sample.data_utils)
              (Sample.ipa [py "LEAD"]) (py "cat's dogs x-ray")
              (Sample.constant_rng 0)).1 = Ok out.
Proof.
  destruct (@X4_call_raises_nothing Sample.str_ops Sample.data_utils) as [HE HI].
  split.
  - apply (HE (Sample.english [py "lead"] (Some (1 # 2))) (py "hi cat's x-ray")
              (Sample.constant_rng 0)).
    + intros k Hk. apply dict_get_elem in Hk. no_member Hk.
    + apply Forall_forall. intros token Hin. each_member Hin; by right.
  - apply (HI (Sample.ipa [py "LEAD"]) (py "cat's dogs x-ray")
              (Sample.constant_rng 0)).
    + intros k Hk. apply dict_get_elem in Hk. no_member Hk.
    + intros s Hs. simpl. by destruct s.
    + intros t. apply Forall_forall. intros token Hin. simpl in Hin.
      unfold Sample.tokenize in Hin.
      apply list_elem_of_fmap in Hin as (word & -> & _). right. by exists word.
Defined.

(** With the case mixed and the keys in upper case, "cat" gets the
    pronunciation of "CAT", and the ambiguous "read" comes back as the
    graphemes of "READ". *)
Lemma X5_mixed_case_lookup_witness :
  IPAG2P.parse_one_word (H := Sample.str_ops) (H0 := Sample.data_utils)
    (Sample.ipa_with (Some (py "mixed")) Sample.tokenize None) (py "cat")
    (Sample.constant_rng 0)
  = (Ok (PList [[712%N]; py "k"; [230%N]; py "t"], true), Sample.constant_rng 0)
  ∧ IPAG2P.parse_one_word (H := Sample.str_ops) (H0 := Sample.data_utils)
      (Sample.ipa_with (Some (py "mixed")) Sample.tokenize None) (py "read")
      (Sample.constant_rng 0)
    = (Ok (PList [py "#R"; py "#E"; py "#A"; py "#D"], false), Sample.constant_rng 0).
Proof.
  split.
  - destruct (@X5_mixed_case_lookup Sample.str_ops Sample.data_utils
                (Sample.ipa_with (Some (py "mixed")) Sample.tokenize None) (py "cat")
                [[[712%N]; py "k"; [230%N]; py "t"]] (Sample.constant_rng 0))
      as [Hfirst _];
      [reflexivity | reflexivity | reflexivity | intros hs Hhs; discriminate Hhs
       | reflexivity | reflexivity |].
    apply (Hfirst [[712%N]; py "k"; [230%N]; py "t"] []); [reflexivity|].
    right. reflexivity.
  - destruct (@X5_mixed_case_lookup Sample.str_ops Sample.data_utils
                (Sample.ipa_with (Some (py "mixed")) Sample.tokenize None) (py "read")
                [[[712%N]; [633%N]; py "i"; py "d"]; [[712%N]; [633%N]; [603%N]; py "d"]]
                (Sample.constant_rng 0))
      as [_ Hambiguous];
      [reflexivity | reflexivity | reflexivity | intros hs Hhs; discriminate Hhs
       | reflexivity | reflexivity |].
    apply Hambiguous; [reflexivity | simpl; lia].
Defined.

(** A text already in phonemes is copied, with the prefix by [IPAG2P]. *)
Lemma X7_unchangeable_tokens_are_copied_witness :
  EnglishG2p.call (H := Sample.str_ops)
    (Sample.english_with Sample.tokenize_unchanged None) (py "HH AY1")
    (Sample.constant_rng 0)
  = (Ok [py "HH"; py "AY1"], Sample.constant_rng 0)
  ∧ IPAG2P.call (H := Sample.str_ops) (H0 := Sample.data_utils)
      (Sample.ipa_with (Some (py "upper")) Sample.tokenize_unchanged None)
      (py "HH AY1") (Sample.constant_rng 0)
    = (Ok [py "#HH"; py "#AY1"], Sample.constant_rng 0).
Proof.
  destruct (@X7_unchangeable_tokens_are_copied Sample.str_ops Sample.data_utils)
    as [HE HI].
  split.
  - apply (HE (Sample.english_with Sample.tokenize_unchanged None) (py "HH AY1")
              (Sample.constant_rng 0)).
    apply Forall_forall. intros token Hin. each_member Hin; reflexivity.
  - apply (HI (Sample.ipa_with (Some (py "upper")) Sample.tokenize_unchanged None)
              (py "HH AY1") (Sample.constant_rng 0)); [reflexivity|].
    apply Forall_forall. intros token Hin. each_member Hin; reflexivity.
Defined.

(** "x-ray" is unknown, and so are "x" and "ray"; with the probability
    one half, the first draw lets the rules run on the word and the
    later ones keep the sub-words as they are. *)
Lemma X8_hyphen_fallback_keeps_the_graphemes_witness :
  (EnglishG2p.call_word (H := Sample.str_ops)
     (Sample.english [py "lead"] (Some (1 # 2))) [py "x-ray"]
     (Sample.two_rng 0 1)).1
  = Ok [py "x"; py "-"; py "r"; py "a"; py "y"].
Proof.
  apply (@X8_hyphen_fallback_keeps_the_graphemes Sample.str_ops
           (Sample.english [py "lead"] (Some (1 # 2))) (py "x-ray") []
           (PStr (py "x-ray")) (Sample.two_rng 0 1)).
  - vm_compute. reflexivity.
  - intros sub r' Hin. each_member Hin.
    + destruct (@english_parse_kept Sample.str_ops
                  (Sample.english [py "lead"] (Some (1 # 2))) (py "x") false r')
        as [b Hb]; [vm_compute; reflexivity|].
      exists (PStr (py "x")), b. split; [exact Hb | left; reflexivity].
    + destruct (@english_parse_kept Sample.str_ops
                  (Sample.english [py "lead"] (Some (1 # 2))) (py "ray") false r')
        as [b Hb]; [vm_compute; reflexivity|].
      exists (PStr (py "ray")), b. split; [exact Hb | left; reflexivity].
Defined.

(** "Cat" of the sample dictionary is the key "CAT" of the object. *)
Lemma X9_every_given_word_is_a_key_witness :
  dict_mem (IPAG2P.phoneme_dict (Sample.built (Sample.ipa_init true))) (py "CAT")
  = true.
Proof.
  assert (Sample.ipa_init true = Ok (Sample.built (Sample.ipa_init true)))
    as Hinit by (vm_compute; reflexivity).
  assert ((py "Cat", [[[712%N]; py "k"; [230%N]; py "t"]]) ∈ Sample.ipa_dict)
    as Hin by by_computation.
  destruct (@X9_every_given_word_is_a_key Sample.str_ops Sample.data_utils
              Sample.ipa_dict (Some (py "en-US")) None true (Some [py "lead"]) false
              None true (Some (py "upper")) [] None
              (Sample.built (Sample.ipa_init true)) (py "Cat")
              [[[712%N]; py "k"; [230%N]; py "t"]] Hinit Hin) as [Hkey _].
  exact Hkey.
Defined.

(** With a phoneme probability the graphemes are symbols beside the
    phonemes. *)
Lemma X10_symbols_cover_the_dictionary_witness :
  [712%N] ∈ IPAG2P.symbols (Sample.built (Sample.ipa_init_with (Some 1%Q)))
  ∧ py "C" ∈ IPAG2P.symbols (Sample.built (Sample.ipa_init_with (Some 1%Q))).
Proof.
  assert (Sample.ipa_init_with (Some 1%Q)
          = Ok (Sample.built (Sample.ipa_init_with (Some 1%Q))))
    as Hinit by (vm_compute; reflexivity).
  destruct (@X10_symbols_cover_the_dictionary Sample.str_ops Sample.data_utils
              Sample.ipa_dict (Some (py "en-US")) None true (Some [py "lead"]) false
              (Some 1%Q) true (Some (py "upper")) [] None
              (Sample.built (Sample.ipa_init_with (Some 1%Q))) Hinit)
    as [Hphonemes Hgraphemes].
  split.
  - apply (Hphonemes (py "CAT") [[[712%N]; py "k"; [230%N]; py "t"]]
                     [[712%N]; py "k"; [230%N]; py "t"] [712%N]);
      [vm_compute; reflexivity | by_computation | by_computation].
  - apply (Hgraphemes ltac:(vm_compute; reflexivity) (py "Cat")
                      [[[712%N]; py "k"; [230%N]; py "t"]] 67%N);
      [by_computation | by_computation | reflexivity].
Defined.

(** With the probability 1 and draws of one half, the objects built on the
    sample files answer as those built with no probability. *)
Lemma X12_probability_one_is_no_probability_witness :
  (EnglishG2p.call (H := Sample.str_ops)
     (Sample.english_built (Sample.english_init (Some 1%Q))) (py "hi cat lead")
     (Sample.constant_rng (1 # 2))).1
  = (EnglishG2p.call (H := Sample.str_ops)
       (Sample.english_built (Sample.english_init None)) (py "hi cat lead")
       (Sample.constant_rng 0)).1
  ∧ (IPAG2P.call (H := Sample.str_ops) (H0 := Sample.data_utils)
       (Sample.built (Sample.ipa_init_with (Some 1%Q))) (py "cat dog")
       (Sample.constant_rng (1 # 2))).1
    = (IPAG2P.call (H := Sample.str_ops) (H0 := Sample.data_utils)
         (Sample.built (Sample.ipa_init_with None)) (py "cat dog")
         (Sample.constant_rng 0)).1.
Proof.
  destruct (@X12_probability_one_is_no_probability Sample.str_ops Sample.data_utils
              Sample.nltk) as [HE HI].
  split.
  - apply (HE (Some (EnglishG2p.DictFile Sample.cmu_lines)) Sample.tokenize None true
              (Some (EnglishG2p.HeteronymsFile Sample.heteronym_lines)) None 1%Q
              (Sample.english_built (Sample.english_init (Some 1%Q)))
              (Sample.english_built (Sample.english_init None)));
      [vm_compute; reflexivity | vm_compute; reflexivity
       | intros n; vm_compute; reflexivity].
  - apply (HI Sample.ipa_dict (Some (py "en-US")) None true (Some [py "lead"]) false
              true (Some (py "upper")) [] None 1%Q
              (Sample.built (Sample.ipa_init_with (Some 1%Q)))
              (Sample.built (Sample.ipa_init_with None)));
      [vm_compute; reflexivity | vm_compute; reflexivity
       | intros n; vm_compute; reflexivity].
Defined.

(** The sample file gives "read" its two pronunciations, in the order of
    the file, and no key for the comment. *)
Lemma X13_cmu_file_is_grouped_by_word_witness :
  ∃ d, EnglishG2p._parse_as_cmu_dict (H := Sample.str_ops) Sample.cmu_lines = Ok d
       ∧ dict_get d (py "read")
         = Some [[py "R"; py "IY1"; py "D"]; [py "R"; py "EH1"; py "D"]]
       ∧ dict_get d (py "cat") = Some [[py "K"; py "AE1"; py "T"]]
       ∧ dict_get d (py ";;;") = None.
Proof.
  destruct (@X13_cmu_file_is_grouped_by_word Sample.str_ops Sample.cmu_lines)
    as (d & Hd & Hget).
  { intros line Hin. each_member Hin;
      first [ intros _; vm_compute; lia | intros He; vm_compute in He; discriminate He ]. }
  exists d. split; [exact Hd|]. rewrite !Hget.
  split; [vm_compute; reflexivity | split; vm_compute; reflexivity].
Defined.

(** "DOG" has no pronunciation. *)
Lemma X14_cmu_entry_without_pronunciation_witness :
  EnglishG2p._parse_as_cmu_dict (H := Sample.str_ops) Sample.cmu_lines_bad
  = Raise IndexError
  ∧ EnglishG2p.init (H := Sample.str_ops) (H0 := Sample.nltk)
      (Some (EnglishG2p.DictFile Sample.cmu_lines_bad)) Sample.tokenize None true
      None None None
    = Raise IndexError.
Proof.
  apply (@X14_cmu_entry_without_pronunciation Sample.str_ops Sample.nltk
           Sample.cmu_lines_bad (py "DOG" ++ [10%N]));
    [by_computation | reflexivity | vm_compute; lia].
Defined.

(** The object built on the sample file answers on a text with unknown
    words, suffixes and hyphens. *)
Lemma X15_cmu_file_object_raises_nothing_witness :
  ∃ g, Sample.english_init (Some (1 # 2)) = Ok g
       ∧ ∃ out, (EnglishG2p.call (H := Sample.str_ops) g (py "hi cat's x-ray")
                                 (Sample.constant_rng 0)).1 = Ok out.
Proof.
  destruct (@X15_cmu_file_object_raises_nothing Sample.str_ops Sample.nltk
              Sample.cmu_lines Sample.tokenize None true
              (Some (EnglishG2p.HeteronymsFile Sample.heteronym_lines))
              (Some (1 # 2)) None) as (g & Hg & Hne & Hcall).
  { intros line Hin. each_member Hin;
      first [ intros _; vm_compute; lia | intros He; vm_compute in He; discriminate He ]. }
  exists g. split; [exact Hg|]. apply Hcall.
  apply Forall_forall. intros token Hin. each_member Hin; by right.
Defined.

(** The sample file gives "read" its two pronunciations and keeps the
    case of "Cat". *)
Lemma X16_ipa_file_is_grouped_by_word_witness :
  ∃ d, IPAG2P._parse_phoneme_dict_file (H := Sample.str_ops) (H0 := Sample.data_utils)
         Sample.ipa_lines = Ok d
       ∧ dict_get d (py "read")
         = Some [[[712%N]; [633%N]; py "i"; py "d"]; [[712%N]; [633%N]; [603%N]; py "d"]]
       ∧ dict_get d (py "Cat") = Some [[[712%N]; py "k"; [230%N]; py "t"]]
       ∧ dict_get d (py "cat") = None.
Proof.
  destruct (@X16_ipa_file_is_grouped_by_word Sample.str_ops Sample.data_utils
              Sample.ipa_lines) as (d & Hd & Hget & _).
  { intros line _ Hne. exact Hne. }
  { intros line Hin. each_member Hin;
      first [ intros _; vm_compute; lia | intros He; vm_compute in He; discriminate He ]. }
  exists d. split; [exact Hd|]. rewrite !Hget.
  split; [vm_compute; reflexivity | split; vm_compute; reflexivity].
Defined.

(** "dog" has no pronunciation. *)
Lemma X17_ipa_entry_without_pronunciation_witness :
  IPAG2P._parse_phoneme_dict_file (H := Sample.str_ops) (H0 := Sample.data_utils)
    Sample.ipa_lines_bad
  = Raise IndexError.
Proof.
  apply (@X17_ipa_entry_without_pronunciation Sample.str_ops Sample.data_utils
           Sample.ipa_lines_bad (py "dog" ++ [10%N])); [by_computation|].
  right. split; [reflexivity | vm_compute; lia].
Defined.

(** The second line for "ni" replaces the first; an empty last line
    raises. *)
Lemma X18_pinyin_file_last_line_wins_witness :
  (∃ d, ChineseG2p._parse_as_pinyin_dict (H := Sample.str_ops)
          Sample.pinyin_lines_twice = Ok d
        ∧ dict_get d (py "ni") = Some [py "#n"; py "#ii"]
        ∧ dict_get d (py "hao") = Some [py "#h"; py "#au"])
  ∧ ChineseG2p.init (H := Sample.str_ops) (H0 := Sample.pinyin)
      (Some (ChineseG2p.DictFile Sample.pinyin_lines_bad)) None None None None
    = Raise IndexError.
Proof.
  destruct (@X18_pinyin_file_last_line_wins Sample.str_ops Sample.pinyin)
    as [Hlast Hraise].
  split.
  - destruct (Hlast Sample.pinyin_lines_twice) as (d & Hd & Hget).
    { intros line Hin. each_member Hin; vm_compute; lia. }
    exists d. split; [exact Hd|]. rewrite !Hget.
    split; vm_compute; reflexivity.
  - apply (Hraise Sample.pinyin_lines_bad [10%N] None None None None);
      [by_computation | vm_compute; lia | by_computation].
Defined.

(** "lead" of the sample heteronyms file, read without its line end. *)
Lemma X19_heteronyms_file_witness :
  ∃ hs, EnglishG2p.heteronyms (Sample.english_built (Sample.english_init None))
        = Some hs
        ∧ py "lead" ∈ hs
        ∧ (EnglishG2p.parse_one_word (H := Sample.str_ops)
             (Sample.english_built (Sample.english_init None)) (py "lead")
             (Sample.constant_rng 0)).1 = Ok (PStr (py "lead"), true).
Proof.
  destruct (@X19_heteronyms_file Sample.str_ops Sample.nltk Sample.heteronym_lines
              (Some (EnglishG2p.DictFile Sample.cmu_lines)) Sample.tokenize None true
              None None (Sample.english_built (Sample.english_init None)))
    as (hs & Hhs & Hmem & _ & Hparse); [vm_compute; reflexivity|].
  assert (py "lead" ∈ hs) as Hin.
  { apply Hmem. exists (py "lead" ++ [10%N]).
    split; [by_computation | vm_compute; reflexivity]. }
  exists hs. split; [exact Hhs|]. split; [exact Hin|].
  apply Hparse; [exact Hin | reflexivity].
Defined.
